(** * TBTK: spectral-property extraction, susceptibility cache, FLEX loop and
    state tree, as a shallow embedding of the C++ sources.

    Conventions of the embedding.
    - [int] values are integers in [Z]; the [int] products and sums of sizes
      and offsets are written with their 32-bit two's-complement
      wrap-around ([wrap]); loop counters and the depth budget of the state
      tree stay within range and are plain integers.
    - [double] values are real numbers in [R] (exact arithmetic); an extent
      may in addition be [+infinity].
    - [std::vector<T>] is [list T]; the bounds-checked [at] is [vec_at] and
      [vec_set]; raw arrays obtained from [new T[n]] are lists whose
      out-of-bounds accesses are failures.
    - A function that can terminate the process, throw or touch memory it
      does not own returns a [Result]. *)

From Stdlib Require Import ZArith List String Reals Lra Lia.
From stdpp Require Import base tactics option list gmap.

(** ** Outcomes of fallible code *)

(** The ways a call can end other than by returning.
    - [Exit1 printed]: [cout << printed; exit(1);].
    - [TBTKExit function message] and [TBTKAssertFailed function message]:
      Modelled from the spec: the macros [TBTKExit] and [TBTKAssert] come
      from TBTKMacros.h, which is not among the sources at hand. They are
      taken to report [function] and [message] and to terminate the
      process, [TBTKAssert] after having evaluated its expression to false.
    - [OutOfRange]: [std::out_of_range] thrown by [vector::at].
    - [OutOfBounds]: an access outside an array obtained from [new T[n]].
    - [BadArrayNewLength]: [new T[n]] with a negative [n].
    - [FuelExhausted]: the recursion budget of a function of this
      development was used up; the program has no such outcome. *)
Inductive Failure : Type :=
| Exit1 (printed : string)
| TBTKExit (function message : string)
| TBTKAssertFailed (function message : string)
| OutOfRange
| OutOfBounds
| BadArrayNewLength
| FuelExhausted.

Inductive Result (A : Type) : Type :=
| Ok (a : A)
| Fail (f : Failure).

Arguments Ok {A} a.
Arguments Fail {A} f.

Definition bind {A B : Type} (m : Result A) (k : A -> Result B) : Result B :=
  match m with
  | Ok a => k a
  | Fail f => Fail f
  end.

Notation "'do' x <- m ; k" := (bind m (fun x => k))
  (at level 10, x name, m at level 100, k at level 200).
Notation "'do' ' p <- m ; k" := (bind m (fun x => let 'p := x in k))
  (at level 10, p pattern, m at level 100, k at level 200).

(** [v.at(n)]: throws [std::out_of_range] outside the vector. *)
Definition vec_at {A : Type} (v : list A) (n : nat) : Result A :=
  match v !! n with
  | Some x => Ok x
  | None => Fail OutOfRange
  end.

(** [v.at(n) = x]. *)
Definition vec_set {A : Type} (v : list A) (n : nat) (x : A) : Result (list A) :=
  match v !! n with
  | Some _ => Ok (<[n := x]> v)
  | None => Fail OutOfRange
  end.

(** [p[n]] on a raw array of [length p] elements. *)
Definition array_get {A : Type} (p : list A) (n : Z) : Result A :=
  if (n <? 0)%Z then Fail OutOfBounds
  else match p !! Z.to_nat n with
       | Some x => Ok x
       | None => Fail OutOfBounds
       end.

Definition array_set {A : Type} (p : list A) (n : Z) (x : A) : Result (list A) :=
  if (n <? 0)%Z then Fail OutOfBounds
  else match p !! Z.to_nat n with
       | Some _ => Ok (<[Z.to_nat n := x]> p)
       | None => Fail OutOfBounds
       end.

(** [for(n = start; n < start + count; n++) s = body(n, s)]. *)
Fixpoint forRange {S : Type} (start count : nat)
    (body : nat -> S -> Result S) (s : S) : Result S :=
  match count with
  | O => Ok s
  | Datatypes.S count' =>
      do s' <- body start s;
      forRange (Datatypes.S start) count' body s'
  end.

(** [std::complex<double>]. *)
Definition C : Type := (R * R)%type.
Definition real (z : C) : R := fst z.
Definition imag (z : C) : R := snd z.
Definition Cminus (a b : C) : C := ((real a - real b)%R, (imag a - imag b)%R).
Definition Cabs (z : C) : R := sqrt (real z * real z + imag z * imag z).
Definition C0 : C := (0%R, 0%R).

(** 32-bit [int]. *)
Definition INT_MAX : Z := 2 ^ 31 - 1.
Definition wrap (z : Z) : Z := ((z + 2 ^ 31) mod 2 ^ 32 - 2 ^ 31)%Z.
Definition int_mul (a b : Z) : Z := wrap (a * b).
Definition int_add (a b : Z) : Z := wrap (a + b).

(** An [Index] is its vector of subindices. *)
Abbreviation Index := (list Z).

(** ** Basic facts about the outcome monad, loops and [int] *)

Lemma bind_Ok {A B : Type} (a : A) (k : A -> Result B) : bind (Ok a) k = k a.
Proof. reflexivity. Qed.

Lemma bind_Fail {A B : Type} (f : Failure) (k : A -> Result B) :
  bind (Fail f) k = Fail f.
Proof. reflexivity. Qed.

Lemma vec_at_Some {A : Type} (v : list A) (n : nat) (x : A) :
  v !! n = Some x -> vec_at v n = Ok x.
Proof. intros H. unfold vec_at. now rewrite H. Qed.

Lemma vec_set_Some {A : Type} (v : list A) (n : nat) (x y : A) :
  v !! n = Some y -> vec_set v n x = Ok (<[n := x]> v).
Proof. intros H. unfold vec_set. now rewrite H. Qed.

Lemma forRange_S {S : Type} (start count : nat)
    (body : nat -> S -> Result S) (s : S) :
  forRange start (Datatypes.S count) body s =
  bind (body start s) (forRange (Datatypes.S start) count body).
Proof. reflexivity. Qed.

Lemma forRange_ext {S : Type} (body body' : nat -> S -> Result S) :
  forall (count start : nat) (s : S),
    (forall n s, (start <= n < start + count)%nat -> body n s = body' n s) ->
    forRange start count body s = forRange start count body' s.
Proof.
  induction count as [|count IH]; intros start s Hext; simpl; [reflexivity|].
  rewrite Hext by lia.
  destruct (body' start s) as [s'|f]; simpl; [|reflexivity].
  apply IH. intros n s0 Hn. apply Hext. lia.
Qed.

Lemma wrap_range (z : Z) : (- 2 ^ 31 <= wrap z <= INT_MAX)%Z.
Proof.
  unfold wrap, INT_MAX.
  pose proof (Z.mod_pos_bound (z + 2 ^ 31) (2 ^ 32) ltac:(lia)). lia.
Qed.

Lemma wrap_id (z : Z) : (- 2 ^ 31 <= z <= INT_MAX)%Z -> wrap z = z.
Proof.
  unfold wrap, INT_MAX. intros H.
  rewrite Z.mod_small by lia. lia.
Qed.

Lemma wrap_cong (z : Z) : (wrap z mod 2 ^ 32 = z mod 2 ^ 32)%Z.
Proof.
  unfold wrap.
  replace ((z + 2 ^ 31) mod 2 ^ 32 - 2 ^ 31)%Z
    with ((z + 2 ^ 31) mod 2 ^ 32 + (- 2 ^ 31))%Z by lia.
  rewrite Zplus_mod_idemp_l. f_equal. lia.
Qed.

Lemma wrap_eq_of_cong (a b : Z) :
  (a mod 2 ^ 32 = b mod 2 ^ 32)%Z -> wrap a = wrap b.
Proof.
  intros H. unfold wrap.
  rewrite <- (Zplus_mod_idemp_l a), H, Zplus_mod_idemp_l. reflexivity.
Qed.

Lemma int_mul_wrap_l (a b : Z) : int_mul (wrap a) b = int_mul a b.
Proof.
  unfold int_mul. apply wrap_eq_of_cong.
  rewrite <- Zmult_mod_idemp_l, wrap_cong, Zmult_mod_idemp_l. reflexivity.
Qed.

(** ** PropertyExtractorChebyshev *)

Module Chebyshev.

Local Open Scope Z_scope.

Section Extractor.

(** The sentinel subindex values come from a header that is not part of the
    sources at hand; they are parameters of the development. *)
Variables IDX_ALL IDX_SUM_ALL IDX_SPIN : Z.

(** The ChebyshevSolver is an external collaborator: its state is abstract,
    and the Green's function it delivers for a pair of indices is a
    function of the energy point. *)
Variable ChebyshevSolver : Type.
Variable generateLookupTable : Z -> Z -> ChebyshevSolver -> ChebyshevSolver.
Variable loadLookupTableGPU : ChebyshevSolver -> ChebyshevSolver.
Variable solverGreensFunction : ChebyshevSolver -> Index -> Index -> nat -> C.

Record PropertyExtractorChebyshev : Type := {
  cSolver : ChebyshevSolver;
  numCoefficients : Z;
  energyResolution : Z;
  useGPUToCalculateCoefficients : bool;
  useGPUToGenerateGreensFunctions : bool;
  useLookupTable : bool
}.

Definition constructorError : string :=
  "Error in PropertyExtractorChebyshev: useLookupTable cannot be false if useGPUToGenerateGreensFunction is true.
".

(** The constructor. *)
Definition construct (solver : ChebyshevSolver) (nCoefficients eResolution : Z)
    (gpuCoefficients gpuGreensFunctions lookupTable : bool)
    : Result PropertyExtractorChebyshev :=
  if lookupTable then
    let solver1 := generateLookupTable nCoefficients eResolution solver in
    let solver2 :=
      if gpuGreensFunctions then loadLookupTableGPU solver1 else solver1 in
    Ok {| cSolver := solver2;
          numCoefficients := nCoefficients;
          energyResolution := eResolution;
          useGPUToCalculateCoefficients := gpuCoefficients;
          useGPUToGenerateGreensFunctions := gpuGreensFunctions;
          useLookupTable := lookupTable |}
  else if gpuGreensFunctions then
    Fail (Exit1 constructorError)
  else
    Ok {| cSolver := solver;
          numCoefficients := nCoefficients;
          energyResolution := eResolution;
          useGPUToCalculateCoefficients := gpuCoefficients;
          useGPUToGenerateGreensFunctions := gpuGreensFunctions;
          useLookupTable := lookupTable |}.

Definition coefficientsError : string :=
  "Error in PropertyExtractorChebyshev::calculateGreensFunctions: CPU generation of coefficients not yet supported.
".

(** [calculateGreensFunction(to, from)], that is [calculateGreensFunctions]
    for the single target [to]: the allocation of the coefficients, which
    fails for a negative size, then the buffer of [energyResolution] values
    the solver delivers, or the exit of the CPU path. *)
Definition calculateGreensFunction (this : PropertyExtractorChebyshev)
    (to from : Index) : Result (list C) :=
  if energyResolution this <? 0 then Fail BadArrayNewLength
  else if useGPUToCalculateCoefficients this then
    Ok (map (solverGreensFunction (cSolver this) to from)
            (seq 0 (Z.to_nat (energyResolution this))))
  else Fail (Exit1 coefficientsError).

(** The scan [for(; currentSubindex >= 0; currentSubindex--)] for the last
    negative subindex; [k] is [currentSubindex + 1], [None] is [-1]. *)
Fixpoint findWildcard (pattern : Index) (k : nat) : option nat :=
  match k with
  | O => None
  | S k' =>
      match pattern !! k' with
      | Some p => if p <? 0 then Some k' else findWildcard pattern k'
      | None => None
      end
  end.

Section Calculate.

Variable M : Type.
Variable callback : M -> Index -> Z -> Result M.

(** The [for(int n = 0; n < ranges.indices.at(currentSubindex); n++)] loop
    of [calculate]; [step] is the recursive call, [count] the number of
    iterations still to run. *)
Fixpoint sweep (step : M -> Index -> Z -> Result M) (currentSubindex : nat)
    (isSumIndex : bool) (offsetMultiplier : Z) (count : nat) (n : Z)
    (memory : M) (pattern : Index) (currentOffset : Z) : Result M :=
  match count with
  | O => Ok memory
  | S count' =>
      let pattern' := <[currentSubindex := n]> pattern in
      do memory' <- step memory pattern' currentOffset;
      sweep step currentSubindex isSumIndex offsetMultiplier count' (n + 1)
        memory' pattern'
        (if isSumIndex then currentOffset
         else int_add currentOffset offsetMultiplier)
  end.

(** [calculate(callback, memory, pattern, ranges, currentOffset,
    offsetMultiplier)]. Each level of the recursion replaces one negative
    subindex by a concrete one; [fuel] bounds the number of levels. *)
Fixpoint calculate (fuel : nat) (memory : M) (pattern ranges : Index)
    (currentOffset offsetMultiplier : Z) {struct fuel} : Result M :=
  match findWildcard pattern (length pattern) with
  | None => callback memory pattern currentOffset
  | Some currentSubindex =>
      match fuel with
      | O => Fail FuelExhausted
      | S fuel' =>
          do p <- vec_at pattern currentSubindex;
          do nextOffsetMultiplier <-
            (if p <? IDX_SUM_ALL then
               do r <- vec_at ranges currentSubindex;
               Ok (int_mul offsetMultiplier r)
             else Ok offsetMultiplier);
          let isSumIndex := p =? IDX_SUM_ALL in
          do r <- vec_at ranges currentSubindex;
          sweep
            (fun memory pattern currentOffset =>
               calculate fuel' memory pattern ranges currentOffset
                 nextOffsetMultiplier)
            currentSubindex isSumIndex offsetMultiplier (Z.to_nat r) 0
            memory pattern currentOffset
      end
  end.

End Calculate.

(** The two loops shared by [calculateLDOS] and [calculateSP_LDOS]. *)
Definition forceRanges (pattern ranges : Index) : Result Index :=
  forRange 0 (length pattern)
    (fun n ranges =>
       do p <- vec_at pattern n;
       if 0 <=? p then vec_set ranges n 1 else Ok ranges)
    ranges.

Definition arraySize (pattern ranges : Index) : Result Z :=
  forRange 0 (length ranges)
    (fun n size =>
       do p <- vec_at pattern n;
       if p <? IDX_SUM_ALL then
         do r <- vec_at ranges n;
         Ok (int_mul size r)
       else Ok size)
    1.

(** [new T[size]] followed by the loop that stores [zero] everywhere. *)
Definition newZeroed {T : Type} (zero : T) (size : Z) : Result (list T) :=
  if size <? 0 then Fail BadArrayNewLength
  else Ok (replicate (Z.to_nat size) zero).

(** [calculateLDOSCallback]. *)
Definition calculateLDOSCallback (cb_this : PropertyExtractorChebyshev)
    (ldos : list R) (index : Index) (offset : Z) : Result (list R) :=
  do greensFunction <- calculateGreensFunction cb_this index index;
  forRange 0 (Z.to_nat (energyResolution cb_this))
    (fun n ldos =>
       let slot := int_add (int_mul (energyResolution cb_this) offset)
                           (Z.of_nat n) in
       do g <- array_get greensFunction (Z.of_nat n);
       do old <- array_get ldos slot;
       array_set ldos slot (old - imag g / PI)%R)
    ldos.

(** The part of [calculateLDOS] that runs before [calculate]: the forced
    ranges and the zeroed buffer. *)
Definition calculateLDOS_prepare (pattern ranges : Index)
    : Result (Index * list R) :=
  do ranges' <- forceRanges pattern ranges;
  do ldosArraySize <- arraySize pattern ranges';
  do ldos <- newZeroed 0%R ldosArraySize;
  Ok (ranges', ldos).

(** [calculateLDOS]. *)
Definition calculateLDOS (this : PropertyExtractorChebyshev)
    (pattern ranges : Index) : Result (list R) :=
  do '(ranges', ldos) <- calculateLDOS_prepare pattern ranges;
  calculate (list R) (calculateLDOSCallback this) (length pattern) ldos
    pattern ranges' 0 1.

(** The scan for the spin subindex: the first position holding [IDX_SPIN],
    found by the loop that ends with [break]. *)
Fixpoint findSpin (pattern : Index) (n : nat) : option nat :=
  match pattern with
  | [] => None
  | p :: rest => if p =? IDX_SPIN then Some n else findSpin rest (S n)
  end.

(** [calculateSP_LDOSCallback]; the spin subindex travels in [hint]. *)
Definition calculateSP_LDOSCallback (cb_this : PropertyExtractorChebyshev)
    (hint : nat) (sp_ldos : list C) (index : Index) (offset : Z)
    : Result (list C) :=
  forRange 0 4
    (fun n sp_ldos =>
       do to <- vec_set index hint (Z.of_nat n / 2);
       do from <- vec_set index hint (Z.of_nat n mod 2);
       do greensFunction <- calculateGreensFunction cb_this to from;
       forRange 0 (Z.to_nat (energyResolution cb_this))
         (fun e sp_ldos =>
            let slot :=
              int_add (int_add (int_mul (int_mul 4 (energyResolution cb_this))
                                        offset)
                               (int_mul 4 (Z.of_nat e)))
                      (Z.of_nat n) in
            do g <- array_get greensFunction (Z.of_nat e);
            array_set sp_ldos slot g)
         sp_ldos)
    sp_ldos.

Definition noSpinError : string :=
  "Error in PropertyExtractorChebyshev::calculateSP_LDOS: No spin index indicated.
".

(** [calculateSP_LDOS]: what was written to [cout], and the outcome; a
    returned [None] is the null pointer. *)
Definition calculateSP_LDOS (this : PropertyExtractorChebyshev)
    (pattern ranges : Index) : list string * Result (option (list C)) :=
  match findSpin pattern 0 with
  | None => ([noSpinError], Ok None)
  | Some spin =>
      ([],
       do pattern1 <- vec_set pattern spin 0;
       do ranges1 <- vec_set ranges spin 1;
       do ranges' <- forceRanges pattern1 ranges1;
       do sp_ldosArraySize <- arraySize pattern1 ranges';
       do sp_ldos <- newZeroed C0 (int_mul 4 sp_ldosArraySize);
       do result <- calculate (list C) (calculateSP_LDOSCallback this spin)
                      (length pattern1) sp_ldos pattern1 ranges' 0 1;
       Ok (Some result))
  end.

(** The destructor. *)
Variable destroyLookupTableGPU : ChebyshevSolver -> ChebyshevSolver.

Definition destructor (this : PropertyExtractorChebyshev) : ChebyshevSolver :=
  if useGPUToGenerateGreensFunctions this
  then destroyLookupTableGPU (cSolver this)
  else cSolver this.

(** *** Specification-side descriptions *)

(** The ranges after every concretely fixed coordinate has been forced
    to 1. *)
Definition forcedRanges (pattern ranges : Index) : Index :=
  zip_with (fun p r => if 0 <=? p then 1 else r) pattern ranges.


(** The product the size loop forms: over the entries below
    [IDX_SUM_ALL]. *)
Fixpoint loopProduct (pattern ranges : Index) : Z :=
  match pattern, ranges with
  | p :: ps, r :: rs =>
      (if p <? IDX_SUM_ALL then r else 1) * loopProduct ps rs
  | _, _ => 1
  end.


(** The callback applied in turn to a list of (index, offset) pairs. *)
Fixpoint invokeAll {M : Type} (callback : M -> Index -> Z -> Result M)
    (memory : M) (calls : list (Index * Z)) : Result M :=
  match calls with
  | [] => Ok memory
  | (index, offset) :: rest =>
      do memory' <- callback memory index offset;
      invokeAll callback memory' rest
  end.

(** The concrete indices of a wildcard at [position] with range [r]. *)
Definition slices (pattern : Index) (position : nat) (r : Z) : list Index :=
  map (fun n => <[position := Z.of_nat n]> pattern) (seq 0 (Z.to_nat r)).

(** The number of negative subindices of a pattern. *)
Fixpoint wildcards (pattern : Index) : nat :=
  match pattern with
  | [] => O
  | p :: ps => ((if (p <? 0)%Z then 1 else 0) + wildcards ps)%nat
  end.

(** The sum of a list of reals. *)
Definition sumR (l : list R) : R := fold_right Rplus 0%R l.

(** One slice's contribution [-Im(G)/pi] at the energy point [e] is
    subtracted as [Im(G)/pi]. *)
Definition contribution (this : PropertyExtractorChebyshev) (index : Index)
    (e : nat) : R :=
  (imag (solverGreensFunction (cSolver this) index index e) / PI)%R.

(** *** The constructor *)

(** C9. Constructing the extractor with [useLookupTable = false] and
    [useGPUToGenerateGreensFunctions = true] prints the error and calls
    [exit(1)], whatever the solver, the number of coefficients, the energy
    resolution and [useGPUToCalculateCoefficients] are. *)
Theorem construct_gpu_without_lookup_table_exits :
  forall (solver : ChebyshevSolver) (nCoefficients eResolution : Z)
         (gpuCoefficients : bool),
    construct solver nCoefficients eResolution gpuCoefficients true false
    = Fail (Exit1 constructorError).
Proof. intros. reflexivity. Qed.

Lemma construct_fails_only_so :
  forall solver nCoefficients eResolution gpuCoefficients gpuGreens lookup f,
    construct solver nCoefficients eResolution gpuCoefficients gpuGreens lookup
    = Fail f ->
    lookup = false /\ gpuGreens = true /\ f = Exit1 constructorError.
Proof.
  intros solver n e c g l f. unfold construct.
  destruct l, g; intros H; try discriminate.
  injection H as <-. auto.
Qed.

(** *** The loops of [calculateLDOS] *)

Lemma forceRanges_loop (pattern : Index) :
  forall (count n : nat) (ranges : Index),
    (n + count)%nat = length pattern ->
    length ranges = length pattern ->
    forRange n count
      (fun n ranges =>
         do p <- vec_at pattern n;
         if 0 <=? p then vec_set ranges n 1 else Ok ranges)
      ranges
    = Ok (take n ranges ++ forcedRanges (drop n pattern) (drop n ranges)).
Proof.
  induction count as [|count IH]; intros n ranges Hn Hlen.
  - simpl. rewrite (drop_ge pattern), take_ge by lia.
    unfold forcedRanges. simpl. now rewrite app_nil_r.
  - destruct (lookup_lt_is_Some_2 pattern n ltac:(lia)) as [p Hp].
    destruct (lookup_lt_is_Some_2 ranges n ltac:(lia)) as [r Hr].
    rewrite forRange_S, (vec_at_Some _ _ _ Hp), bind_Ok.
    rewrite (drop_S _ _ _ Hp), (drop_S _ _ _ Hr).
    unfold forcedRanges at 1. simpl zip_with. fold (forcedRanges (drop (S n) pattern) (drop (S n) ranges)).
    destruct (0 <=? p) eqn:Hp0.
    + rewrite (vec_set_Some _ _ _ _ Hr), bind_Ok.
      rewrite IH by (rewrite ?length_insert; lia).
      rewrite (take_S_r _ _ 1) by (apply list_lookup_insert_eq; lia).
      rewrite take_insert_ge, drop_insert_lt by lia.
      now rewrite <- app_assoc.
    + rewrite bind_Ok, IH by lia.
      rewrite (take_S_r _ _ _ Hr). now rewrite <- app_assoc.
Qed.

Lemma forceRanges_forced (pattern ranges : Index) :
  length ranges = length pattern ->
  forceRanges pattern ranges = Ok (forcedRanges pattern ranges).
Proof.
  intros Hlen. unfold forceRanges.
  rewrite forceRanges_loop by lia. reflexivity.
Qed.

Lemma length_forcedRanges (pattern ranges : Index) :
  length ranges = length pattern ->
  length (forcedRanges pattern ranges) = length pattern.
Proof.
  intros Hlen. unfold forcedRanges. rewrite length_zip_with. lia.
Qed.


Lemma forcedRanges_wildcard (pattern ranges : Index) (n : nat) (p : Z) :
  pattern !! n = Some p -> p < 0 ->
  forcedRanges pattern ranges !! n = ranges !! n.
Proof.
  intros Hp Hp0. unfold forcedRanges.
  rewrite lookup_zip_with, Hp. simpl.
  destruct (ranges !! n) as [r|]; simpl; [|reflexivity].
  destruct (Z.leb_spec 0 p); [lia | reflexivity].
Qed.

Lemma arraySize_loop (pattern : Index) :
  forall (count n : nat) (ranges : Index) (size : Z),
    (n + count)%nat = length ranges ->
    length pattern = length ranges ->
    - 2 ^ 31 <= size <= INT_MAX ->
    exists size',
      forRange n count
        (fun n size =>
           do p <- vec_at pattern n;
           if p <? IDX_SUM_ALL then
             do r <- vec_at ranges n;
             Ok (int_mul size r)
           else Ok size)
        size = Ok size'
      /\ - 2 ^ 31 <= size' <= INT_MAX
      /\ size' mod 2 ^ 32
         = (size * loopProduct (drop n pattern) (drop n ranges)) mod 2 ^ 32.
Proof.
  induction count as [|count IH]; intros n ranges size Hn Hlen Hsize.
  - exists size. simpl. repeat split; try lia.
    rewrite (drop_ge pattern) by lia. simpl. f_equal. lia.
  - destruct (lookup_lt_is_Some_2 pattern n ltac:(lia)) as [p Hp].
    destruct (lookup_lt_is_Some_2 ranges n ltac:(lia)) as [r Hr].
    rewrite forRange_S, (vec_at_Some _ _ _ Hp), bind_Ok.
    rewrite (drop_S _ _ _ Hp), (drop_S _ _ _ Hr). simpl loopProduct.
    destruct (p <? IDX_SUM_ALL).
    + rewrite (vec_at_Some _ _ _ Hr). rewrite !bind_Ok.
      destruct (IH (S n) ranges (int_mul size r)) as (size' & Hrun & Hrange & Hcong);
        [lia | lia | apply wrap_range |].
      exists size'. repeat split; try assumption; try lia.
      rewrite Hcong. unfold int_mul.
      rewrite <- Zmult_mod_idemp_l, wrap_cong, Zmult_mod_idemp_l.
      f_equal. lia.
    + rewrite bind_Ok.
      destruct (IH (S n) ranges size) as (size' & Hrun & Hrange & Hcong);
        [lia | lia | lia |].
      exists size'. repeat split; try assumption; try lia.
      rewrite Hcong. f_equal. lia.
Qed.

Lemma arraySize_loopProduct (pattern ranges : Index) :
  length pattern = length ranges ->
  - 2 ^ 31 <= loopProduct pattern ranges <= INT_MAX ->
  arraySize pattern ranges = Ok (loopProduct pattern ranges).
Proof.
  intros Hlen Hrange. unfold arraySize.
  destruct (arraySize_loop pattern (length ranges) 0 ranges 1)
    as (size' & Hrun & Hsize & Hcong); [lia | lia | unfold INT_MAX; lia |].
  rewrite Hrun. f_equal.
  rewrite <- (wrap_id size'), <- (wrap_id (loopProduct pattern ranges))
    by assumption.
  apply wrap_eq_of_cong. rewrite Hcong, !drop_0. f_equal. lia.
Qed.




(** *** [calculateSP_LDOS] without a spin subindex *)

Lemma findSpin_None (pattern : Index) :
  Forall (fun p => p <> IDX_SPIN) pattern ->
  forall n, findSpin pattern n = None.
Proof.
  induction 1 as [|p ps Hp Hps IH]; intros n; simpl; [reflexivity|].
  destruct (Z.eqb_spec p IDX_SPIN); [contradiction | apply IH].
Qed.

Lemma calculateSP_LDOS_without_spin_returns_null_plain
    (this : PropertyExtractorChebyshev) (pattern ranges : Index) :
  findSpin pattern 0 = None ->
  calculateSP_LDOS this pattern ranges = ([noSpinError], Ok None).
Proof. intros H. unfold calculateSP_LDOS. now rewrite H. Qed.

(** C4, as the code has it. When no subindex of the pattern is [IDX_SPIN],
    [calculateSP_LDOS] prints the error message and returns the null
    pointer to its caller: no buffer is produced, and the process is not
    terminated. *)
Theorem calculateSP_LDOS_without_spin_returns_null :
  forall (this : PropertyExtractorChebyshev) (pattern ranges : Index),
    Forall (fun p => p <> IDX_SPIN) pattern ->
    calculateSP_LDOS this pattern ranges = ([noSpinError], Ok None).
Proof.
  intros this pattern ranges Hno. unfold calculateSP_LDOS.
  now rewrite findSpin_None.
Qed.

(** *** The iteration engine *)

Lemma findWildcard_Some (pattern : Index) :
  forall (m k : nat),
    findWildcard pattern m = Some k ->
    exists p, pattern !! k = Some p /\ p < 0.
Proof.
  induction m as [|m IH]; intros k; simpl; [discriminate|].
  destruct (pattern !! m) as [p|] eqn:Hp; [|discriminate].
  destruct (Z.ltb_spec p 0).
  - intros [= <-]. eauto.
  - apply IH.
Qed.

Lemma findWildcard_concrete (pattern : Index) :
  forall (m : nat),
    (forall j q, (j < m)%nat -> pattern !! j = Some q -> 0 <= q) ->
    findWildcard pattern m = None.
Proof.
  induction m as [|m IH]; intros Hall; simpl; [reflexivity|].
  destruct (pattern !! m) as [p|] eqn:Hp; [|reflexivity].
  destruct (Z.ltb_spec p 0).
  - specialize (Hall m p ltac:(lia) Hp). lia.
  - apply IH. intros j q Hj. apply Hall. lia.
Qed.

Lemma findWildcard_last (pattern : Index) (k : nat) (p : Z) :
  pattern !! k = Some p -> p < 0 ->
  forall (m : nat),
    (k < m <= length pattern)%nat ->
    (forall j q, (k < j < m)%nat -> pattern !! j = Some q -> 0 <= q) ->
    findWildcard pattern m = Some k.
Proof.
  intros Hk Hp. induction m as [|m IH]; intros Hm Hall; [lia|].
  simpl. destruct (decide (m = k)) as [->|Hne].
  - rewrite Hk. destruct (Z.ltb_spec p 0); [reflexivity | lia].
  - destruct (lookup_lt_is_Some_2 pattern m ltac:(lia)) as [q Hq].
    rewrite Hq. pose proof (Hall m q ltac:(lia) Hq).
    destruct (Z.ltb_spec q 0); [lia|].
    apply IH; [lia|]. intros j q' Hj. apply Hall. lia.
Qed.

Lemma wildcards_insert (pattern : Index) :
  forall (k : nat) (p n : Z),
    pattern !! k = Some p -> p < 0 -> 0 <= n ->
    S (wildcards (<[k := n]> pattern)) = wildcards pattern.
Proof.
  induction pattern as [|q ps IH]; intros k p n Hk Hp Hn; [discriminate|].
  destruct k as [|k]; simpl in *.
  - injection Hk as ->.
    destruct (Z.ltb_spec n 0), (Z.ltb_spec p 0); lia.
  - rewrite <- (IH k p n Hk Hp Hn). lia.
Qed.

Lemma wildcards_pos (pattern : Index) (k : nat) (p : Z) :
  pattern !! k = Some p -> p < 0 -> (0 < wildcards pattern)%nat.
Proof.
  revert k. induction pattern as [|q ps IH]; intros k Hk Hp; [discriminate|].
  destruct k as [|k]; simpl in *.
  - injection Hk as ->. destruct (Z.ltb_spec p 0); lia.
  - specialize (IH k Hk Hp). lia.
Qed.

Section Engine.

Variable M : Type.
Variable callback : M -> Index -> Z -> Result M.

(** A pattern without wildcards invokes the callback once, at the current
    offset. *)
Lemma calculate_concrete (fuel : nat) (memory : M) (pattern ranges : Index)
    (currentOffset offsetMultiplier : Z) :
  Forall (fun p => 0 <= p) pattern ->
  calculate M callback fuel memory pattern ranges currentOffset
    offsetMultiplier
  = callback memory pattern currentOffset.
Proof.
  intros Hall.
  assert (Hnone : findWildcard pattern (length pattern) = None).
  { apply findWildcard_concrete. intros j q _ Hq.
    rewrite Forall_lookup in Hall. exact (Hall j q Hq). }
  destruct fuel; simpl; now rewrite Hnone.
Qed.

Lemma sweep_ext (step step' : M -> Index -> Z -> Result M) (k : nat)
    (isSum : bool) (mult : Z) (pattern : Index) :
  (forall memory n offset, 0 <= n ->
      step memory (<[k := n]> pattern) offset
      = step' memory (<[k := n]> pattern) offset) ->
  forall (count : nat) (n : Z) (memory : M) (pat : Index) (offset : Z),
    0 <= n ->
    (forall x, <[k := x]> pat = <[k := x]> pattern) ->
    sweep M step k isSum mult count n memory pat offset
    = sweep M step' k isSum mult count n memory pat offset.
Proof.
  intros Hstep. induction count as [|count IH];
    intros n memory pat offset Hn Hpat; simpl; [reflexivity|].
  rewrite Hpat, Hstep by assumption.
  destruct (step' memory (<[k := n]> pattern) offset) as [memory'|f];
    simpl; [|reflexivity].
  apply IH; [lia|]. intros x. now rewrite list_insert_insert_eq.
Qed.

(** The recursion never runs out of levels once [fuel] covers the number
    of wildcards: the outcome is then independent of [fuel]. *)
Lemma calculate_fuel :
  forall (fuel fuel' : nat) (memory : M) (pattern ranges : Index)
         (currentOffset offsetMultiplier : Z),
    (wildcards pattern <= fuel)%nat ->
    (wildcards pattern <= fuel')%nat ->
    calculate M callback fuel memory pattern ranges currentOffset
      offsetMultiplier
    = calculate M callback fuel' memory pattern ranges currentOffset
        offsetMultiplier.
Proof.
  induction fuel as [|fuel IH];
    intros fuel' memory pattern ranges offset mult Hf Hf'.
  - destruct (findWildcard pattern (length pattern)) as [k|] eqn:Hfind.
    + destruct (findWildcard_Some _ _ _ Hfind) as (p & Hp & Hneg).
      pose proof (wildcards_pos _ _ _ Hp Hneg). lia.
    + destruct fuel'; simpl; now rewrite Hfind.
  - destruct (findWildcard pattern (length pattern)) as [k|] eqn:Hfind.
    + destruct (findWildcard_Some _ _ _ Hfind) as (p & Hp & Hneg).
      pose proof (wildcards_pos _ _ _ Hp Hneg).
      destruct fuel' as [|fuel']; [lia|].
      simpl. rewrite Hfind. rewrite (vec_at_Some _ _ _ Hp), !bind_Ok.
      destruct (if p <? IDX_SUM_ALL
                then do r <- vec_at ranges k; Ok (int_mul mult r)
                else Ok mult) as [next|f]; simpl; [|reflexivity].
      destruct (vec_at ranges k) as [r|f]; simpl; [|reflexivity].
      apply sweep_ext with (pattern := pattern); [|lia|reflexivity].
      intros memory' n offset' Hn.
      pose proof (wildcards_insert pattern k p n Hp Hneg Hn).
      apply IH; lia.
    + simpl. destruct fuel'; simpl; now rewrite Hfind.
Qed.

Lemma wildcards_le_length (pattern : Index) :
  (wildcards pattern <= length pattern)%nat.
Proof.
  induction pattern as [|p ps IH]; simpl; [lia|].
  destruct (p <? 0); lia.
Qed.

(** Over a dimension marked [isSumIndex], the loop hands every slice to
    [step] with one and the same offset. *)
Lemma sweep_sum_axis (step : M -> Index -> Z -> Result M) (k : nat)
    (mult : Z) (pattern : Index) (offset : Z) :
  (forall memory n, 0 <= n ->
      step memory (<[k := n]> pattern) offset
      = callback memory (<[k := n]> pattern) offset) ->
  forall (count start : nat) (memory : M) (pat : Index),
    (forall x, <[k := x]> pat = <[k := x]> pattern) ->
    sweep M step k true mult count (Z.of_nat start) memory pat offset
    = invokeAll callback memory
        (map (fun n => (<[k := Z.of_nat n]> pattern, offset))
             (seq start count)).
Proof.
  intros Hstep. induction count as [|count IH];
    intros start memory pat Hpat; simpl; [reflexivity|].
  rewrite Hpat, Hstep by lia.
  destruct (callback memory (<[k := Z.of_nat start]> pattern) offset)
    as [memory'|f]; simpl; [|reflexivity].
  replace (Z.of_nat start + 1) with (Z.of_nat (S start)) by lia.
  apply IH. intros x. now rewrite list_insert_insert_eq.
Qed.

(** A pattern whose only wildcard is one [IDX_SUM_ALL] subindex, of range
    [r]: the callback is invoked once per slice, [r] times in all, each
    time with the offset [calculate] was entered with. *)
Lemma calculate_sum_axis (fuel : nat) (memory : M) (pattern ranges : Index)
    (k : nat) (r currentOffset offsetMultiplier : Z) :
  IDX_SUM_ALL < 0 ->
  pattern !! k = Some IDX_SUM_ALL ->
  (forall j q, j <> k -> pattern !! j = Some q -> 0 <= q) ->
  ranges !! k = Some r ->
  calculate M callback (S fuel) memory pattern ranges currentOffset
    offsetMultiplier
  = invokeAll callback memory
      (map (fun index => (index, currentOffset)) (slices pattern k r)).
Proof.
  intros Hneg Hk Hothers Hr.
  assert (Hfind : findWildcard pattern (length pattern) = Some k).
  { apply (findWildcard_last pattern k IDX_SUM_ALL Hk Hneg).
    - apply lookup_lt_Some in Hk. lia.
    - intros j q Hj. apply Hothers. lia. }
  simpl. rewrite Hfind, (vec_at_Some _ _ _ Hk), bind_Ok.
  rewrite Z.ltb_irrefl, bind_Ok, Z.eqb_refl.
  rewrite (vec_at_Some _ _ _ Hr), bind_Ok.
  change 0 with (Z.of_nat 0).
  rewrite (sweep_sum_axis _ k offsetMultiplier pattern currentOffset).
  - unfold slices. now rewrite map_map.
  - intros memory' n Hn. apply calculate_concrete.
    apply Forall_lookup. intros j q Hq.
    destruct (decide (j = k)) as [->|Hne].
    + rewrite list_lookup_insert_eq in Hq
        by (apply lookup_lt_Some in Hk; lia).
      injection Hq as <-. lia.
    + rewrite list_lookup_insert_ne in Hq by congruence.
      now apply (Hothers j).
  - reflexivity.
Qed.

(** With a concrete coordinate [c] in place of the [IDX_SUM_ALL] subindex
    the callback receives that same offset. *)
Lemma calculate_fixed_coordinate (fuel : nat) (memory : M)
    (pattern ranges : Index) (k : nat) (c currentOffset offsetMultiplier : Z) :
  0 <= c ->
  (k < length pattern)%nat ->
  (forall j q, j <> k -> pattern !! j = Some q -> 0 <= q) ->
  calculate M callback fuel memory (<[k := c]> pattern) ranges currentOffset
    offsetMultiplier
  = callback memory (<[k := c]> pattern) currentOffset.
Proof.
  intros Hc Hk Hothers. apply calculate_concrete.
  apply Forall_lookup. intros j q Hq.
  destruct (decide (j = k)) as [->|Hne].
  - rewrite list_lookup_insert_eq in Hq by lia. injection Hq as <-. lia.
  - rewrite list_lookup_insert_ne in Hq by congruence. now apply (Hothers j).
Qed.

Lemma length_slices (pattern : Index) (k : nat) (r : Z) :
  0 <= r -> Z.of_nat (length (slices pattern k r)) = r.
Proof.
  intros Hr. unfold slices. rewrite length_map, length_seq. lia.
Qed.

End Engine.

(** *** The LDOS reduction *)

Section Reduction.

Variable this : PropertyExtractorChebyshev.
Hypothesis coefficientsOnGPU : useGPUToCalculateCoefficients this = true.

Lemma calculateLDOSCallback_loop (ldos0 : list R) (index : Index) (offset : Z) :
  0 <= energyResolution this ->
  0 <= offset ->
  energyResolution this * (offset + 1) <= INT_MAX ->
  energyResolution this * (offset + 1) <= Z.of_nat (length ldos0) ->
  forall (count n : nat) (ldos : list R),
    (n + count)%nat = Z.to_nat (energyResolution this) ->
    length ldos = length ldos0 ->
    exists ldos',
      forRange n count
        (fun n ldos =>
           let slot := int_add (int_mul (energyResolution this) offset)
                               (Z.of_nat n) in
           do g <- array_get
                     (map (solverGreensFunction (cSolver this) index index)
                          (seq 0 (Z.to_nat (energyResolution this))))
                     (Z.of_nat n);
           do old <- array_get ldos slot;
           array_set ldos slot (old - imag g / PI)%R)
        ldos = Ok ldos'
      /\ length ldos' = length ldos
      /\ (forall e, (n <= e < n + count)%nat ->
            ldos' !! (Z.to_nat (energyResolution this * offset) + e)%nat
            = (fun x => (x - contribution this index e)%R)
                <$> ldos !! (Z.to_nat (energyResolution this * offset) + e)%nat)
      /\ (forall i,
            ~ (Z.to_nat (energyResolution this * offset) + n <= i
               < Z.to_nat (energyResolution this * offset) + n + count)%nat ->
            ldos' !! i = ldos !! i).
Proof.
  intros HE Hoff Hmax Hlen0.
  set (E := energyResolution this) in *.
  set (B := Z.to_nat (E * offset)).
  assert (HB : 0 <= E * offset) by nia.
  induction count as [|count IH]; intros n ldos Hn Hlen.
  - exists ldos. simpl. split; [reflexivity|]. split; [reflexivity|].
    split; [intros e He; lia | intros; reflexivity].
  - rewrite forRange_S. cbv zeta.
    assert (Hslot : int_add (int_mul E offset) (Z.of_nat n)
                    = E * offset + Z.of_nat n).
    { unfold int_add, int_mul, INT_MAX in *.
      rewrite (wrap_id (E * offset)) by (unfold INT_MAX; nia).
      apply wrap_id. unfold INT_MAX. nia. }
    rewrite Hslot.
    assert (Hg : array_get
                   (map (solverGreensFunction (cSolver this) index index)
                        (seq 0 (Z.to_nat E))) (Z.of_nat n)
                 = Ok (solverGreensFunction (cSolver this) index index n)).
    { unfold array_get. destruct (Z.ltb_spec (Z.of_nat n) 0); [lia|].
      rewrite Nat2Z.id, list_lookup_fmap, lookup_seq_lt by lia.
      reflexivity. }
    rewrite Hg, bind_Ok.
    assert (Hpos : Z.to_nat (E * offset + Z.of_nat n) = (B + n)%nat)
      by (subst B; lia).
    destruct (lookup_lt_is_Some_2 ldos (B + n)) as [old Hold].
    { subst B. unfold INT_MAX in *. nia. }
    unfold array_get, array_set.
    destruct (Z.ltb_spec (E * offset + Z.of_nat n) 0); [lia|].
    rewrite Hpos, Hold, bind_Ok.
    destruct (IH (S n) (<[(B + n)%nat := (old - imag (solverGreensFunction
                 (cSolver this) index index n) / PI)%R]> ldos))
      as (ldos' & Hrun & Hlen' & Hin & Hout);
      [lia | rewrite length_insert; lia |].
    exists ldos'. split; [exact Hrun|].
    split; [rewrite Hlen', length_insert; reflexivity|].
    split.
    + intros e He. destruct (decide (e = n)) as [->|Hne].
      * rewrite Hout by lia.
        rewrite list_lookup_insert_eq
          by (apply lookup_lt_Some in Hold; exact Hold).
        rewrite Hold. reflexivity.
      * rewrite Hin by lia. rewrite list_lookup_insert_ne by lia. reflexivity.
    + intros i Hi. rewrite Hout by lia.
      rewrite list_lookup_insert_ne by lia. reflexivity.
Qed.

(** On a buffer that holds the slot, the callback subtracts the slice's
    contribution from each of the slot's [energyResolution] elements and
    leaves everything else alone. *)
Lemma calculateLDOSCallback_in_bounds (ldos : list R) (index : Index)
    (offset : Z) :
  0 <= energyResolution this ->
  0 <= offset ->
  energyResolution this * (offset + 1) <= INT_MAX ->
  energyResolution this * (offset + 1) <= Z.of_nat (length ldos) ->
  exists ldos',
    calculateLDOSCallback this ldos index offset = Ok ldos'
    /\ length ldos' = length ldos
    /\ (forall e, (e < Z.to_nat (energyResolution this))%nat ->
          ldos' !! (Z.to_nat (energyResolution this * offset) + e)%nat
          = (fun x => (x - contribution this index e)%R)
              <$> ldos !! (Z.to_nat (energyResolution this * offset) + e)%nat)
    /\ (forall i,
          ~ (Z.to_nat (energyResolution this * offset) <= i
             < Z.to_nat (energyResolution this * offset)
               + Z.to_nat (energyResolution this))%nat ->
          ldos' !! i = ldos !! i).
Proof.
  intros HE Hoff Hmax Hlen.
  unfold calculateLDOSCallback, calculateGreensFunction.
  destruct (Z.ltb_spec (energyResolution this) 0); [lia|].
  rewrite coefficientsOnGPU, bind_Ok.
  destruct (calculateLDOSCallback_loop ldos index offset HE Hoff Hmax Hlen
              (Z.to_nat (energyResolution this)) 0 ldos)
    as (ldos' & Hrun & Hlen' & Hin & Hout); [lia | reflexivity |].
  exists ldos'. split; [exact Hrun|]. split; [exact Hlen'|]. split.
  - intros e He. apply Hin. lia.
  - intros i Hi. apply Hout. lia.
Qed.

(** Additivity: invoking the callback on a list of slices with one offset
    leaves, in each element of that slot, the initial value minus the sum
    of the slices' contributions. *)
Lemma invokeAll_LDOS_additive (offset : Z) :
  0 <= energyResolution this ->
  0 <= offset ->
  energyResolution this * (offset + 1) <= INT_MAX ->
  forall (indices : list Index) (ldos : list R),
    energyResolution this * (offset + 1) <= Z.of_nat (length ldos) ->
    exists ldos',
      invokeAll (calculateLDOSCallback this) ldos
        (map (fun index => (index, offset)) indices) = Ok ldos'
      /\ length ldos' = length ldos
      /\ (forall e, (e < Z.to_nat (energyResolution this))%nat ->
            ldos' !! (Z.to_nat (energyResolution this * offset) + e)%nat
            = (fun x =>
                 (x - sumR (map (fun index => contribution this index e) indices))%R)
                <$> ldos !! (Z.to_nat (energyResolution this * offset) + e)%nat)
      /\ (forall i,
            ~ (Z.to_nat (energyResolution this * offset) <= i
               < Z.to_nat (energyResolution this * offset)
                 + Z.to_nat (energyResolution this))%nat ->
            ldos' !! i = ldos !! i).
Proof.
  intros HE Hoff Hmax.
  induction indices as [|index indices IH]; intros ldos Hlen.
  - exists ldos. simpl. repeat split.
    intros e He.
    destruct (ldos !! (Z.to_nat (energyResolution this * offset) + e)%nat);
      simpl; [f_equal; lra | reflexivity].
  - destruct (calculateLDOSCallback_in_bounds ldos index offset HE Hoff Hmax Hlen)
      as (ldos1 & Hrun1 & Hlen1 & Hin1 & Hout1).
    destruct (IH ldos1) as (ldos' & Hrun & Hlen' & Hin & Hout); [lia|].
    exists ldos'. simpl. rewrite Hrun1, bind_Ok.
    split; [exact Hrun|]. split; [lia|]. split.
    + intros e He. rewrite Hin, Hin1 by assumption.
      destruct (ldos !! (Z.to_nat (energyResolution this * offset) + e)%nat);
        simpl; [f_equal; lra | reflexivity].
    + intros i Hi. rewrite Hout, Hout1 by assumption. reflexivity.
Qed.

(** The iteration over a pattern with one [IDX_SUM_ALL] subindex of range
    [r], on a buffer that holds the slot: every element of the slot ends
    as its initial value minus the sum of the [r] per-slice
    contributions. *)
Lemma calculate_LDOS_sum_axis_additive (fuel : nat) (ldos : list R)
    (pattern ranges : Index) (k : nat) (r offset multiplier : Z) :
  IDX_SUM_ALL < 0 ->
  pattern !! k = Some IDX_SUM_ALL ->
  (forall j q, j <> k -> pattern !! j = Some q -> 0 <= q) ->
  ranges !! k = Some r ->
  0 <= energyResolution this ->
  0 <= offset ->
  energyResolution this * (offset + 1) <= INT_MAX ->
  energyResolution this * (offset + 1) <= Z.of_nat (length ldos) ->
  exists ldos',
    calculate (list R) (calculateLDOSCallback this) (S fuel) ldos pattern
      ranges offset multiplier = Ok ldos'
    /\ (forall e, (e < Z.to_nat (energyResolution this))%nat ->
          ldos' !! (Z.to_nat (energyResolution this * offset) + e)%nat
          = (fun x =>
               (x - sumR (map (fun index => contribution this index e)
                              (slices pattern k r)))%R)
              <$> ldos !! (Z.to_nat (energyResolution this * offset) + e)%nat).
Proof.
  intros Hneg Hk Hothers Hr HE Hoff Hmax Hlen.
  rewrite (calculate_sum_axis _ _ fuel ldos pattern ranges k r offset
             multiplier Hneg Hk Hothers Hr).
  destruct (invokeAll_LDOS_additive offset HE Hoff Hmax (slices pattern k r)
              ldos Hlen) as (ldos' & Hrun & _ & Hin & _).
  exists ldos'. split; assumption.
Qed.

(** C6, at the entry point. With an energy resolution of two or more,
    [calculateLDOS] on the pattern [{IDX_SUM_ALL}] with a range of at least
    one allocates a single element and the first callback already writes
    behind it. *)
Theorem calculateLDOS_sum_axis_overruns_buffer :
  forall (r : Z),
    IDX_SUM_ALL < 0 ->
    2 <= energyResolution this ->
    1 <= r ->
    calculateLDOS this [IDX_SUM_ALL] [r] = Fail OutOfBounds.
Proof.
  intros r Hneg HE Hr.
  assert (Hforce : forceRanges [IDX_SUM_ALL] [r] = Ok [r]).
  { unfold forceRanges. simpl. unfold vec_at. simpl.
    destruct (Z.leb_spec 0 IDX_SUM_ALL); [lia | reflexivity]. }
  assert (Hsize : arraySize [IDX_SUM_ALL] [r] = Ok 1).
  { unfold arraySize. simpl. unfold vec_at. simpl.
    now rewrite Z.ltb_irrefl. }
  unfold calculateLDOS, calculateLDOS_prepare.
  rewrite Hforce, bind_Ok, Hsize, bind_Ok.
  change (newZeroed 0%R 1) with (Ok [0%R]). rewrite !bind_Ok.
  change (length [IDX_SUM_ALL]) with 1%nat.
  rewrite (calculate_sum_axis _ _ 0 _ [IDX_SUM_ALL] [r] 0%nat r 0 1 Hneg);
    [| reflexivity | intros [|j] q Hj Hq; [congruence | discriminate]
     | reflexivity].
  unfold slices.
  destruct (Z.to_nat r) as [|r'] eqn:Hr'; [lia|].
  simpl map. simpl invokeAll.
  unfold calculateLDOSCallback at 1, calculateGreensFunction.
  destruct (Z.ltb_spec (energyResolution this) 0); [lia|].
  rewrite coefficientsOnGPU, bind_Ok.
  destruct (Z.to_nat (energyResolution this)) as [|[|E']] eqn:HE'; [lia|lia|].
  rewrite forRange_S. cbv zeta.
  replace (int_mul (energyResolution this) 0) with 0
    by (unfold int_mul; rewrite Z.mul_0_r; reflexivity).
  change (int_add 0 (Z.of_nat 0)) with 0.
  simpl.
  change (int_add 0 1) with 1.
  simpl. reflexivity.
Qed.

End Reduction.

(** *** A dimension that is resolved *)

Section Spread.

Variable M : Type.
Variable callback : M -> Index -> Z -> Result M.

Lemma int_add_wrap_l (a b : Z) : int_add (wrap a) b = wrap (a + b).
Proof.
  unfold int_add. apply wrap_eq_of_cong.
  rewrite <- Zplus_mod_idemp_l, wrap_cong, Zplus_mod_idemp_l. reflexivity.
Qed.

(** Over a dimension that is not summed, the loop hands the slices to
    [step] with offsets that advance by the offset multiplier. *)
Lemma sweep_resolved_axis (step : M -> Index -> Z -> Result M) (k : nat)
    (mult : Z) (pattern : Index) (offset : Z) :
  (forall memory n o, 0 <= n ->
      step memory (<[k := n]> pattern) o
      = callback memory (<[k := n]> pattern) o) ->
  forall (count start : nat) (memory : M) (pat : Index),
    (forall x, <[k := x]> pat = <[k := x]> pattern) ->
    sweep M step k false mult count (Z.of_nat start) memory pat
      (wrap (offset + Z.of_nat start * mult))
    = invokeAll callback memory
        (map (fun n => (<[k := Z.of_nat n]> pattern,
                        wrap (offset + Z.of_nat n * mult)))
             (seq start count)).
Proof.
  intros Hstep. induction count as [|count IH];
    intros start memory pat Hpat; simpl; [reflexivity|].
  rewrite Hpat, Hstep by lia.
  destruct (callback memory (<[k := Z.of_nat start]> pattern) _)
    as [memory'|f]; simpl; [|reflexivity].
  replace (Z.of_nat start + 1) with (Z.of_nat (S start)) by lia.
  rewrite int_add_wrap_l.
  replace (offset + Z.of_nat start * mult + mult)
    with (offset + Z.of_nat (S start) * mult) by lia.
  apply IH. intros x. now rewrite list_insert_insert_eq.
Qed.

(** X1. A pattern whose only wildcard is a subindex other than
    [IDX_SUM_ALL], of range [r]: the callback is invoked once per slice,
    [r] times in all, slice [n] with the offset
    [currentOffset + n * offsetMultiplier] of [int] arithmetic, so that
    the slices are laid out one offset multiplier apart. *)
Theorem calculate_spreads_a_resolved_axis :
  forall (fuel : nat) (memory : M) (pattern ranges : Index) (k : nat)
         (p r currentOffset offsetMultiplier : Z),
    pattern !! k = Some p ->
    p < 0 ->
    p <> IDX_SUM_ALL ->
    (forall j q, j <> k -> pattern !! j = Some q -> 0 <= q) ->
    ranges !! k = Some r ->
    - 2 ^ 31 <= currentOffset <= INT_MAX ->
    calculate M callback (S fuel) memory pattern ranges currentOffset
      offsetMultiplier
    = invokeAll callback memory
        (map (fun n =>
                (<[k := Z.of_nat n]> pattern,
                 wrap (currentOffset + Z.of_nat n * offsetMultiplier)))
             (seq 0 (Z.to_nat r))).
Proof.
  intros fuel memory pattern ranges k p r currentOffset offsetMultiplier
    Hk Hneg Hsum Hothers Hr Hrange.
  assert (Hfind : findWildcard pattern (length pattern) = Some k).
  { apply (findWildcard_last pattern k p Hk Hneg).
    - apply lookup_lt_Some in Hk. lia.
    - intros j q Hj. apply Hothers. lia. }
  simpl. rewrite Hfind, (vec_at_Some _ _ _ Hk), bind_Ok.
  rewrite (vec_at_Some _ _ _ Hr).
  destruct (p <? IDX_SUM_ALL); rewrite !bind_Ok;
    (destruct (Z.eqb_spec p IDX_SUM_ALL) as [|_]; [contradiction|]);
    change 0 with (Z.of_nat 0);
    rewrite <- (wrap_id currentOffset Hrange) at 1;
    replace currentOffset with (currentOffset + Z.of_nat 0 * offsetMultiplier)
      at 1 by lia;
    (rewrite (sweep_resolved_axis _ k offsetMultiplier pattern currentOffset);
     [ reflexivity
     | intros memory' n o Hn; apply calculate_concrete;
       apply Forall_lookup; intros j q Hq;
       destruct (decide (j = k)) as [->|Hne];
       [ rewrite list_lookup_insert_eq in Hq
           by (apply lookup_lt_Some in Hk; lia);
         injection Hq as <-; lia
       | rewrite list_lookup_insert_ne in Hq by congruence;
         now apply (Hothers j) ]
     | reflexivity ]).
Qed.

(** If every invocation of the callback fails in one way, and every
    wildcard has a range of at least one, [calculate] fails in that
    way. *)
Lemma calculate_fails_with_callback (f : Failure) (ranges : Index) :
  (forall memory index offset, callback memory index offset = Fail f) ->
  forall (fuel : nat) (memory : M) (pattern : Index)
         (currentOffset offsetMultiplier : Z),
    (wildcards pattern <= fuel)%nat ->
    (forall k p, pattern !! k = Some p -> p < 0 ->
                 exists r, ranges !! k = Some r /\ 1 <= r) ->
    calculate M callback fuel memory pattern ranges currentOffset
      offsetMultiplier = Fail f.
Proof.
  intros Hfail. induction fuel as [|fuel IH];
    intros memory pattern offset mult Hfuel Hranges.
  - destruct (findWildcard pattern (length pattern)) as [k|] eqn:Hfind.
    + destruct (findWildcard_Some _ _ _ Hfind) as (p & Hp & Hneg).
      pose proof (wildcards_pos _ _ _ Hp Hneg). lia.
    + simpl. rewrite Hfind. apply Hfail.
  - simpl. destruct (findWildcard pattern (length pattern)) as [k|] eqn:Hfind;
      [|apply Hfail].
    destruct (findWildcard_Some _ _ _ Hfind) as (p & Hp & Hneg).
    destruct (Hranges k p Hp Hneg) as (r & Hr & Hone).
    rewrite (vec_at_Some _ _ _ Hp), bind_Ok, (vec_at_Some _ _ _ Hr).
    assert (Hnext : exists next,
               (if p <? IDX_SUM_ALL
                then do r0 <- Ok r; Ok (int_mul mult r0)
                else Ok mult) = Ok next).
    { destruct (p <? IDX_SUM_ALL); eauto. }
    destruct Hnext as (next & ->). rewrite !bind_Ok.
    destruct (Z.to_nat r) as [|count] eqn:Hcount; [lia|].
    simpl. rewrite IH; [reflexivity | |].
    + pose proof (wildcards_insert pattern k p 0 Hp Hneg ltac:(lia)). lia.
    + intros j q Hq Hq0. destruct (decide (j = k)) as [->|Hne].
      * rewrite list_lookup_insert_eq in Hq
          by (apply lookup_lt_Some in Hp; lia).
        injection Hq as <-. lia.
      * rewrite list_lookup_insert_ne in Hq by congruence.
        now apply (Hranges j q).
Qed.

End Spread.

(** *** The outcomes of [calculateLDOS] *)

(** X2. An extractor set up to calculate the coefficients on the CPU
    cannot extract an LDOS: whenever the pattern makes [calculate] invoke
    the callback at all, that is, when every wildcard has a range of at
    least one, [calculateLDOS] prints that the CPU generation of
    coefficients is not yet supported and calls [exit(1)]. *)
Theorem calculateLDOS_on_the_cpu_exits :
  forall (this : PropertyExtractorChebyshev) (pattern ranges ranges' : Index)
         (ldos : list R),
    useGPUToCalculateCoefficients this = false ->
    0 <= energyResolution this ->
    calculateLDOS_prepare pattern ranges = Ok (ranges', ldos) ->
    (forall k p, pattern !! k = Some p -> p < 0 ->
                 exists r, ranges' !! k = Some r /\ 1 <= r) ->
    calculateLDOS this pattern ranges = Fail (Exit1 coefficientsError).
Proof.
  intros this pattern ranges ranges' ldos Hcpu HE Hprepare Hranges.
  unfold calculateLDOS. rewrite Hprepare, bind_Ok.
  apply calculate_fails_with_callback; [|apply wildcards_le_length|assumption].
  intros memory index offset.
  unfold calculateLDOSCallback, calculateGreensFunction.
  destruct (Z.ltb_spec (energyResolution this) 0); [lia|].
  now rewrite Hcpu.
Qed.

Lemma forRange_total {S : Type} (P : S -> Prop)
    (body : nat -> S -> Result S) :
  forall (count start : nat) (s : S),
    P s ->
    (forall n s, (start <= n < start + count)%nat -> P s ->
                 exists s', body n s = Ok s' /\ P s') ->
    exists s', forRange start count body s = Ok s' /\ P s'.
Proof.
  induction count as [|count IH]; intros start s Hs Hbody; simpl; [eauto|].
  destruct (Hbody start s ltac:(lia) Hs) as (s1 & -> & Hs1). simpl.
  apply IH; [assumption|]. intros n s0 Hn. apply Hbody. lia.
Qed.

Lemma forRange_fails {S : Type} (P : S -> Prop)
    (body : nat -> S -> Result S) (f : Failure) (m : nat) :
  (forall s, P s -> body m s = Fail f) ->
  forall (count start : nat) (s : S),
    (start <= m < start + count)%nat ->
    P s ->
    (forall n s, (start <= n < m)%nat -> P s ->
                 exists s', body n s = Ok s' /\ P s') ->
    forRange start count body s = Fail f.
Proof.
  intros Hfail. induction count as [|count IH]; intros start s Hm Hs Hbody;
    [lia|]. simpl.
  destruct (decide (start = m)) as [->|Hne].
  - now rewrite Hfail.
  - destruct (Hbody start s ltac:(lia) Hs) as (s1 & -> & Hs1). simpl.
    apply IH; [lia | assumption |]. intros n s0 Hn. apply Hbody. lia.
Qed.

(** X3. When [ranges] has more subindices than [pattern], the
    loop that forms the size of the array reads [pattern] behind its end:
    [calculateLDOS] ends with [std::out_of_range], before any memory is
    allocated and before the solver is asked for anything. *)
Theorem calculateLDOS_with_longer_ranges_throws :
  forall (this : PropertyExtractorChebyshev) (pattern ranges : Index),
    (length pattern < length ranges)%nat ->
    calculateLDOS_prepare pattern ranges = Fail OutOfRange
    /\ calculateLDOS this pattern ranges = Fail OutOfRange.
Proof.
  intros this pattern ranges Hlen.
  assert (Hprepare : calculateLDOS_prepare pattern ranges = Fail OutOfRange).
  { unfold calculateLDOS_prepare, forceRanges.
    destruct (forRange_total (fun r : Index => length r = length ranges)
                (fun n ranges0 =>
                   do p <- vec_at pattern n;
                   if 0 <=? p then vec_set ranges0 n 1 else Ok ranges0)
                (length pattern) 0 ranges eq_refl)
      as (ranges' & -> & Hlen').
    { intros n r Hn Hr.
      destruct (lookup_lt_is_Some_2 pattern n ltac:(lia)) as [p Hp].
      rewrite (vec_at_Some _ _ _ Hp), bind_Ok.
      destruct (0 <=? p); [|eauto].
      destruct (lookup_lt_is_Some_2 r n ltac:(lia)) as [x Hx].
      rewrite (vec_set_Some _ _ _ _ Hx). eexists. split; [reflexivity|].
      now rewrite length_insert. }
    rewrite bind_Ok. unfold arraySize.
    rewrite (forRange_fails (fun _ : Z => True) _ OutOfRange (length pattern));
      [reflexivity | | lia | exact I |].
    - intros size _. unfold vec_at at 1.
      rewrite lookup_ge_None_2 by lia. reflexivity.
    - intros n size Hn _.
      destruct (lookup_lt_is_Some_2 pattern n ltac:(lia)) as [p Hp].
      destruct (lookup_lt_is_Some_2 ranges' n ltac:(lia)) as [x Hx].
      rewrite (vec_at_Some _ _ _ Hp), bind_Ok, (vec_at_Some _ _ _ Hx).
      destruct (p <? IDX_SUM_ALL); eauto. }
  split; [assumption|]. unfold calculateLDOS. now rewrite Hprepare.
Qed.

Lemma loopProduct_without_resolved_axis (pattern : Index) :
  IDX_SUM_ALL < 0 ->
  Forall (fun p => 0 <= p \/ p = IDX_SUM_ALL) pattern ->
  forall ranges, loopProduct pattern ranges = 1.
Proof.
  intros Hneg Hentries. induction Hentries as [|p ps Hp Hps IH];
    intros [|x xs]; try reflexivity.
  simpl. rewrite IH. destruct (Z.ltb_spec p IDX_SUM_ALL); lia.
Qed.

(** X4. With an energy resolution of 1 the array [calculateLDOS]
    allocates is large enough, and a pattern whose only wildcard is one
    [IDX_SUM_ALL] subindex is reduced by addition: the result is the one
    value [- sum Im(G_slice) / pi] over the slices of the summed
    dimension. *)
Theorem calculateLDOS_sums_over_a_sum_axis :
  forall (this : PropertyExtractorChebyshev) (pattern ranges : Index)
         (k : nat) (r : Z),
    useGPUToCalculateCoefficients this = true ->
    energyResolution this = 1 ->
    IDX_SUM_ALL < 0 ->
    length ranges = length pattern ->
    pattern !! k = Some IDX_SUM_ALL ->
    (forall j q, j <> k -> pattern !! j = Some q -> 0 <= q) ->
    ranges !! k = Some r ->
    calculateLDOS this pattern ranges
    = Ok [(0 - sumR (map (fun index => contribution this index 0)
                         (slices pattern k r)))%R].
Proof.
  intros this pattern ranges k r Hgpu HE Hneg Hlen Hk Hothers Hr.
  assert (Hentries : Forall (fun p => 0 <= p \/ p = IDX_SUM_ALL) pattern).
  { apply Forall_lookup. intros j q Hq.
    destruct (decide (j = k)) as [->|Hne].
    - right. rewrite Hk in Hq. now injection Hq as <-.
    - left. now apply (Hothers j). }
  pose proof (loopProduct_without_resolved_axis pattern Hneg Hentries
                (forcedRanges pattern ranges)) as Hproduct.
  unfold calculateLDOS, calculateLDOS_prepare.
  rewrite forceRanges_forced, bind_Ok by assumption.
  rewrite arraySize_loopProduct;
    [|now rewrite length_forcedRanges
     |rewrite Hproduct; unfold INT_MAX; lia].
  rewrite Hproduct, bind_Ok.
  change (newZeroed 0%R 1) with (Ok [0%R]). rewrite !bind_Ok.
  destruct (length pattern) as [|fuel] eqn:Hfuel;
    [apply lookup_lt_Some in Hk; lia|].
  assert (Hr' : forcedRanges pattern ranges !! k = Some r).
  { rewrite (forcedRanges_wildcard pattern ranges k IDX_SUM_ALL Hk Hneg).
    exact Hr. }
  rewrite (calculate_sum_axis _ _ fuel [0%R] pattern
             (forcedRanges pattern ranges) k r 0 1 Hneg Hk Hothers Hr').
  destruct (invokeAll_LDOS_additive this Hgpu 0 ltac:(lia) ltac:(lia)
              ltac:(rewrite HE; unfold INT_MAX; lia) (slices pattern k r)
              [0%R] ltac:(rewrite HE; simpl; lia))
    as (ldos' & -> & Hlength & Hslot & _).
  f_equal. specialize (Hslot 0%nat ltac:(rewrite HE; lia)).
  rewrite HE in Hslot. simpl in Hslot.
  destruct ldos' as [|x [|y rest]]; try discriminate.
  simpl in Hslot. injection Hslot as ->. reflexivity.
Qed.

(** X5. One invocation of the LDOS callback at an offset whose
    slots lie within the array: the [energyResolution] slots from
    [energyResolution * offset] on are each decreased by [Im(G)/pi] at
    that energy, every other element of the array is left as it was, and
    the array keeps its size. *)
Theorem calculateLDOSCallback_updates_its_slots_only :
  forall (this : PropertyExtractorChebyshev) (ldos : list R) (index : Index)
         (offset : Z),
    useGPUToCalculateCoefficients this = true ->
    0 <= energyResolution this ->
    0 <= offset ->
    energyResolution this * (offset + 1) <= INT_MAX ->
    energyResolution this * (offset + 1) <= Z.of_nat (length ldos) ->
    exists ldos',
      calculateLDOSCallback this ldos index offset = Ok ldos'
      /\ length ldos' = length ldos
      /\ (forall e, (e < Z.to_nat (energyResolution this))%nat ->
            ldos' !! (Z.to_nat (energyResolution this * offset) + e)%nat
            = (fun x => (x - contribution this index e)%R)
                <$> ldos !! (Z.to_nat (energyResolution this * offset) + e)%nat)
      /\ (forall i,
            ~ (Z.to_nat (energyResolution this * offset) <= i
               < Z.to_nat (energyResolution this * offset)
                 + Z.to_nat (energyResolution this))%nat ->
            ldos' !! i = ldos !! i).
Proof.
  intros this ldos index offset Hgpu HE Hoffset Hmax Hfits.
  destruct (calculateLDOSCallback_in_bounds this Hgpu ldos index offset HE
              Hoffset Hmax Hfits) as (ldos' & Hrun & Hlength & Hown & Hframe).
  exists ldos'. repeat split; assumption.
Qed.

(** *** [calculateSP_LDOS] with a spin subindex *)

Lemma findSpin_at (pattern : Index) :
  forall (k : nat),
    pattern !! k = Some IDX_SPIN ->
    (forall j q, (j < k)%nat -> pattern !! j = Some q -> q <> IDX_SPIN) ->
    forall n, findSpin pattern n = Some (n + k)%nat.
Proof.
  induction pattern as [|p ps IH]; intros k Hk Hfirst n; [discriminate|].
  simpl. destruct k as [|k].
  - simpl in Hk. injection Hk as ->. rewrite Z.eqb_refl. f_equal. lia.
  - destruct (Z.eqb_spec p IDX_SPIN) as [Heq|_].
    + exfalso. now apply (Hfirst 0%nat p); [lia | reflexivity |].
    + rewrite (IH k Hk); [f_equal; lia|].
      intros j q Hj Hq. apply (Hfirst (S j) q); [lia | exact Hq].
Qed.

(** On a pattern whose only negative subindex is the spin subindex, the
    array has four elements and the callback is invoked once, at offset
    0, on the pattern with the spin subindex replaced by 0. *)
Lemma calculateSP_LDOS_of_one_site (this : PropertyExtractorChebyshev)
    (pattern ranges : Index) (k : nat) :
  IDX_SUM_ALL < 0 ->
  IDX_SPIN < 0 ->
  length ranges = length pattern ->
  pattern !! k = Some IDX_SPIN ->
  (forall j q, j <> k -> pattern !! j = Some q -> 0 <= q) ->
  calculateSP_LDOS this pattern ranges
  = ([], do result <- calculateSP_LDOSCallback this k (replicate 4 C0)
                        (<[k := 0]> pattern) 0;
         Ok (Some result)).
Proof.
  intros Hsum Hspin Hlen Hk Hothers.
  assert (Hlt : (k < length pattern)%nat) by now apply lookup_lt_Some in Hk.
  destruct (lookup_lt_is_Some_2 ranges k ltac:(lia)) as [r Hr].
  assert (Hconcrete : Forall (fun p => 0 <= p) (<[k := 0]> pattern)).
  { apply Forall_lookup. intros j q Hq.
    destruct (decide (j = k)) as [->|Hne].
    - rewrite list_lookup_insert_eq in Hq by lia. injection Hq as <-. lia.
    - rewrite list_lookup_insert_ne in Hq by congruence.
      now apply (Hothers j). }
  unfold calculateSP_LDOS.
  rewrite (findSpin_at pattern k Hk).
  2:{ intros j q Hj Hq Heq. pose proof (Hothers j q ltac:(lia) Hq). lia. }
  simpl Nat.add. f_equal.
  rewrite (vec_set_Some _ _ _ _ Hk), bind_Ok.
  rewrite (vec_set_Some _ _ _ _ Hr), bind_Ok.
  rewrite forceRanges_forced, bind_Ok by now rewrite !length_insert.
  rewrite arraySize_loopProduct.
  - rewrite loopProduct_without_resolved_axis; [|assumption|].
    + rewrite bind_Ok. change (newZeroed C0 (int_mul 4 1))
        with (Ok (replicate 4 C0)).
      rewrite bind_Ok. now rewrite calculate_concrete.
    + eapply Forall_impl; [exact Hconcrete|]. intros p Hp. now left.
  - rewrite length_forcedRanges; [reflexivity|]. now rewrite !length_insert.
  - rewrite loopProduct_without_resolved_axis; [unfold INT_MAX; lia|assumption|].
    eapply Forall_impl; [exact Hconcrete|]. intros p Hp. now left.
Qed.

(** X28. For a pattern whose only negative subindex is the spin
    subindex, with an energy resolution of 1, [calculateSP_LDOS] returns
    the four values of the spin matrix of the Green's function at that
    site: element [n] is [G] from spin [n % 2] to spin [n / 2], that is,
    up-up, up-down, down-up, down-down. *)
Theorem calculateSP_LDOS_returns_the_spin_matrix :
  forall (this : PropertyExtractorChebyshev) (pattern ranges : Index)
         (k : nat),
    useGPUToCalculateCoefficients this = true ->
    energyResolution this = 1 ->
    IDX_SUM_ALL < 0 ->
    IDX_SPIN < 0 ->
    length ranges = length pattern ->
    pattern !! k = Some IDX_SPIN ->
    (forall j q, j <> k -> pattern !! j = Some q -> 0 <= q) ->
    calculateSP_LDOS this pattern ranges
    = ([], Ok (Some
         (map (fun n =>
                 solverGreensFunction (cSolver this)
                   (<[k := Z.of_nat n / 2]> pattern)
                   (<[k := Z.of_nat n mod 2]> pattern) 0%nat)
              (seq 0 4)))).
Proof.
  intros this pattern ranges k Hgpu HE Hsum Hspin Hlen Hk Hothers.
  rewrite (calculateSP_LDOS_of_one_site this pattern ranges k Hsum Hspin Hlen
             Hk Hothers).
  f_equal.
  assert (Hlt : (k < length pattern)%nat) by now apply lookup_lt_Some in Hk.
  assert (Hzero : <[k := 0]> pattern !! k = Some 0)
    by now rewrite list_lookup_insert_eq.
  unfold calculateSP_LDOSCallback, calculateGreensFunction.
  rewrite HE, Hgpu. change (1 <? 0) with false. change (Z.to_nat 1) with 1%nat.
  cbv iota.
  rewrite !forRange_S. simpl forRange.
  rewrite !(vec_set_Some _ _ _ _ Hzero), !bind_Ok, !list_insert_insert_eq.
  reflexivity.
Qed.

(** X29. With an energy resolution of two or more the array
    [calculateSP_LDOS] allocates is too small: it has [4 * size] elements,
    while the callback indexes it with
    [4 * energyResolution * offset + 4 * e + n]. On a pattern whose only
    negative subindex is the spin subindex, the array has four elements
    and the write for the second energy point already lies behind it. *)
Theorem calculateSP_LDOS_overruns_its_array :
  forall (this : PropertyExtractorChebyshev) (pattern ranges : Index)
         (k : nat),
    useGPUToCalculateCoefficients this = true ->
    2 <= energyResolution this ->
    IDX_SUM_ALL < 0 ->
    IDX_SPIN < 0 ->
    length ranges = length pattern ->
    pattern !! k = Some IDX_SPIN ->
    (forall j q, j <> k -> pattern !! j = Some q -> 0 <= q) ->
    calculateSP_LDOS this pattern ranges = ([], Fail OutOfBounds).
Proof.
  intros this pattern ranges k Hgpu HE Hsum Hspin Hlen Hk Hothers.
  rewrite (calculateSP_LDOS_of_one_site this pattern ranges k Hsum Hspin Hlen
             Hk Hothers).
  f_equal.
  assert (Hlt : (k < length pattern)%nat) by now apply lookup_lt_Some in Hk.
  assert (Hzero : <[k := 0]> pattern !! k = Some 0)
    by now rewrite list_lookup_insert_eq.
  unfold calculateSP_LDOSCallback, calculateGreensFunction.
  destruct (Z.ltb_spec (energyResolution this) 0); [lia|].
  rewrite Hgpu, forRange_S.
  rewrite !(vec_set_Some _ _ _ _ Hzero), !bind_Ok.
  destruct (Z.to_nat (energyResolution this)) as [|[|E']] eqn:HE'; [lia|lia|].
  rewrite !forRange_S. cbv zeta.
  replace (int_mul (int_mul 4 (energyResolution this)) 0) with 0
    by (unfold int_mul at 1; rewrite Z.mul_0_r; reflexivity).
  change (int_add (int_add 0 (int_mul 4 (Z.of_nat 0))) (Z.of_nat 0)) with 0.
  change (int_add (int_add 0 (int_mul 4 (Z.of_nat 1))) (Z.of_nat 0)) with 4.
  reflexivity.
Qed.

(** *** The constructor and the destructor *)

(** X6. Whatever the constructor has set up, the destructor
    takes down: the lookup table is destroyed on the GPU exactly for the
    extractors whose constructor loaded it there, since the one
    combination of flags for which the destructor would destroy a table
    that was never loaded is the one the constructor refuses. *)
Theorem destructor_destroys_what_the_constructor_loaded :
  forall (solver : ChebyshevSolver) (nCoefficients eResolution : Z)
         (gpuCoefficients gpuGreens lookup : bool)
         (this : PropertyExtractorChebyshev),
    construct solver nCoefficients eResolution gpuCoefficients gpuGreens lookup
    = Ok this ->
    (gpuGreens = true ->
     lookup = true
     /\ cSolver this
        = loadLookupTableGPU
            (generateLookupTable nCoefficients eResolution solver)
     /\ destructor this = destroyLookupTableGPU (cSolver this))
    /\ (gpuGreens = false ->
        cSolver this
        = (if lookup
           then generateLookupTable nCoefficients eResolution solver
           else solver)
        /\ destructor this = cSolver this).
Proof.
  intros solver n e c g l this. unfold construct, destructor.
  destruct l, g; intros H; try discriminate; injection H as <-; simpl;
    split; intros Hg; try discriminate; auto.
Qed.


End Extractor.

(** *** Concrete instances

    The sentinels are instantiated with [IDX_SUM_ALL = -1] and
    [IDX_SPIN = -6], the solver with a stateless one whose Green's functions
    are constant. *)



Lemma calculateSP_LDOS_without_spin_returns_null_witness :
  calculateSP_LDOS (-1) (-6) unit (fun _ _ _ _ => C0)
    {| cSolver := tt; numCoefficients := 10; energyResolution := 1;
       useGPUToCalculateCoefficients := true;
       useGPUToGenerateGreensFunctions := false;
       useLookupTable := false |}
    [0; -2] [1; 3]
  = ([noSpinError], Ok None).
Proof.
  apply calculateSP_LDOS_without_spin_returns_null.
  repeat constructor; lia.
Defined.

(** C4, as stated, fails: on the pattern [{0}], which has no spin
    subindex, [calculateSP_LDOS] does not end in a failure that terminates
    the process; it returns. *)
Lemma calculateSP_LDOS_without_spin_does_not_exit :
  ~ (exists (out : list string) (f : Failure),
       calculateSP_LDOS (-1) (-6) unit (fun _ _ _ _ => C0)
         {| cSolver := tt; numCoefficients := 10; energyResolution := 1;
            useGPUToCalculateCoefficients := true;
            useGPUToGenerateGreensFunctions := false;
            useLookupTable := false |}
         [0] [1]
       = (out, Fail f)).
Proof.
  intros (out & f & H).
  rewrite calculateSP_LDOS_without_spin_returns_null_plain in H
    by reflexivity.
  discriminate H.
Qed.

Lemma calculateLDOS_sum_axis_overruns_buffer_witness :
  calculateLDOS (-1) unit (fun _ _ _ _ => (0, 1)%R)
    {| cSolver := tt; numCoefficients := 10; energyResolution := 2;
       useGPUToCalculateCoefficients := true;
       useGPUToGenerateGreensFunctions := false;
       useLookupTable := false |}
    [-1] [2]
  = Fail OutOfBounds.
Proof.
  apply calculateLDOS_sum_axis_overruns_buffer.
  - reflexivity.
  - lia.
  - simpl. lia.
  - lia.
Defined.

Lemma calculate_spreads_a_resolved_axis_witness :
  calculate (-1) (list Z) (fun memory _ offset => Ok (memory ++ [offset])) 1
    [] [2; -2] [1; 3] 0 5
  = Ok [0; 5; 10].
Proof.
  etransitivity.
  - apply (calculate_spreads_a_resolved_axis (-1) (list Z)
             (fun memory _ offset => Ok (memory ++ [offset])) 0 []
             [2; -2] [1; 3] 1 (-2) 3 0 5).
    + reflexivity.
    + lia.
    + lia.
    + intros [|[|j]] q Hj Hq; simpl in Hq; try discriminate; try congruence.
      injection Hq as <-. lia.
    + reflexivity.
    + unfold INT_MAX. lia.
  - reflexivity.
Defined.

Lemma calculateLDOS_on_the_cpu_exits_witness :
  calculateLDOS (-1) unit (fun _ _ _ _ => C0)
    {| cSolver := tt; numCoefficients := 10; energyResolution := 1;
       useGPUToCalculateCoefficients := false;
       useGPUToGenerateGreensFunctions := false;
       useLookupTable := false |}
    [0; -2] [1; 3]
  = Fail (Exit1 coefficientsError).
Proof.
  apply (calculateLDOS_on_the_cpu_exits (-1) unit (fun _ _ _ _ => C0) _
           [0; -2] [1; 3] [1; 3] [0; 0; 0]%R).
  - reflexivity.
  - simpl. lia.
  - reflexivity.
  - intros [|[|k]] p Hp Hneg; simpl in Hp; try discriminate;
      injection Hp as <-; [lia|].
    exists 3. split; [reflexivity | lia].
Defined.

Lemma calculateLDOS_with_longer_ranges_throws_witness :
  calculateLDOS_prepare (-1) [0] [1; 2] = Fail OutOfRange
  /\ calculateLDOS (-1) unit (fun _ _ _ _ => C0)
       {| cSolver := tt; numCoefficients := 10; energyResolution := 1;
          useGPUToCalculateCoefficients := true;
          useGPUToGenerateGreensFunctions := false;
          useLookupTable := false |}
       [0] [1; 2]
     = Fail OutOfRange.
Proof.
  apply calculateLDOS_with_longer_ranges_throws. simpl. lia.
Defined.

Lemma calculateLDOS_sums_over_a_sum_axis_witness :
  calculateLDOS (-1) unit (fun _ _ _ _ => (0, PI)%R)
    {| cSolver := tt; numCoefficients := 10; energyResolution := 1;
       useGPUToCalculateCoefficients := true;
       useGPUToGenerateGreensFunctions := false;
       useLookupTable := false |}
    [-1; 0] [2; 1]
  = Ok [(0 - (PI / PI + (PI / PI + 0)))%R].
Proof.
  apply (calculateLDOS_sums_over_a_sum_axis (-1) unit
           (fun _ _ _ _ => (0, PI)%R) _ [-1; 0] [2; 1] 0 2).
  - reflexivity.
  - reflexivity.
  - lia.
  - reflexivity.
  - reflexivity.
  - intros [|[|j]] q Hj Hq; simpl in Hq; try discriminate; try congruence.
    injection Hq as <-. lia.
  - reflexivity.
Defined.

Lemma calculateLDOSCallback_updates_its_slots_only_witness :
  exists ldos',
    calculateLDOSCallback unit (fun _ _ _ _ => (0, PI)%R)
      {| cSolver := tt; numCoefficients := 10; energyResolution := 1;
         useGPUToCalculateCoefficients := true;
         useGPUToGenerateGreensFunctions := false;
         useLookupTable := false |}
      [3; 4]%R [0] 1 = Ok ldos'
    /\ length ldos' = 2%nat
    /\ ldos' !! 0%nat = Some 3%R.
Proof.
  destruct (calculateLDOSCallback_updates_its_slots_only unit
              (fun _ _ _ _ => (0, PI)%R)
              {| cSolver := tt; numCoefficients := 10; energyResolution := 1;
                 useGPUToCalculateCoefficients := true;
                 useGPUToGenerateGreensFunctions := false;
                 useLookupTable := false |}
              [3; 4]%R [0] 1)
    as (ldos' & Hrun & Hlength & _ & Hframe).
  - reflexivity.
  - simpl. lia.
  - lia.
  - unfold INT_MAX. simpl. lia.
  - simpl. lia.
  - exists ldos'. split; [exact Hrun|]. split; [exact Hlength|].
    apply (Hframe 0%nat). simpl. lia.
Defined.

(** A solver that logs what was done to its lookup table. *)
Lemma destructor_destroys_what_the_constructor_loaded_witness :
  destructor (list nat) (fun log => log ++ [3%nat])
    {| cSolver := [1%nat; 2%nat]; numCoefficients := 10;
       energyResolution := 1; useGPUToCalculateCoefficients := true;
       useGPUToGenerateGreensFunctions := true; useLookupTable := true |}
  = [1%nat; 2%nat; 3%nat].
Proof.
  destruct (destructor_destroys_what_the_constructor_loaded (list nat)
              (fun _ _ log => log ++ [1%nat]) (fun log => log ++ [2%nat])
              (fun log => log ++ [3%nat]) [] 10 1 true true true
              {| cSolver := [1%nat; 2%nat]; numCoefficients := 10;
                 energyResolution := 1; useGPUToCalculateCoefficients := true;
                 useGPUToGenerateGreensFunctions := true;
                 useLookupTable := true |} eq_refl) as [Hgpu _].
  destruct (Hgpu eq_refl) as (_ & _ & ->). reflexivity.
Defined.

(** A solver whose Green's function shows the spins it was asked for. *)
Lemma calculateSP_LDOS_returns_the_spin_matrix_witness :
  calculateSP_LDOS (-1) (-6) unit
    (fun _ to from _ => (IZR (hd 0 to), IZR (hd 0 from)))
    {| cSolver := tt; numCoefficients := 10; energyResolution := 1;
       useGPUToCalculateCoefficients := true;
       useGPUToGenerateGreensFunctions := false;
       useLookupTable := false |}
    [-6; 3] [2; 5]
  = ([], Ok (Some [(0, 0); (0, 1); (1, 0); (1, 1)]%R)).
Proof.
  apply (calculateSP_LDOS_returns_the_spin_matrix (-1) (-6) unit
           (fun _ to from _ => (IZR (hd 0 to), IZR (hd 0 from))) _
           [-6; 3] [2; 5] 0).
  - reflexivity.
  - reflexivity.
  - lia.
  - lia.
  - reflexivity.
  - reflexivity.
  - intros [|[|j]] q Hj Hq; simpl in Hq; try discriminate; try congruence.
    injection Hq as <-. lia.
Defined.

Lemma calculateSP_LDOS_overruns_its_array_witness :
  calculateSP_LDOS (-1) (-6) unit (fun _ _ _ _ => C0)
    {| cSolver := tt; numCoefficients := 10; energyResolution := 2;
       useGPUToCalculateCoefficients := true;
       useGPUToGenerateGreensFunctions := false;
       useLookupTable := false |}
    [-6; 3] [2; 5]
  = ([], Fail OutOfBounds).
Proof.
  apply (calculateSP_LDOS_overruns_its_array (-1) (-6) unit
           (fun _ _ _ _ => C0) _ [-6; 3] [2; 5] 0).
  - reflexivity.
  - simpl. lia.
  - lia.
  - lia.
  - reflexivity.
  - reflexivity.
  - intros [|[|j]] q Hj Hq; simpl in Hq; try discriminate; try congruence.
    injection Hq as <-. lia.
Defined.

End Chebyshev.

(** ** SusceptibilityCalculator *)

Module Susceptibility.

(** [IndexedDataTree<SerializeableVector<std::complex<double>>>]: a finite
    map from composite indices to vectors of complex values. The class
    itself is not among the sources at hand; its [clear()] is taken to
    leave the tree without entries. *)
Abbreviation IndexedDataTree := (gmap (list Z) (list C)).

Inductive Mode : Type := Lindhard | Matsubara.

Inductive EnergyType : Type := Real | Imaginary | Complex.

Section Calculator.

(** [InteractionAmplitude] is declared elsewhere. *)
Variable InteractionAmplitude : Type.

(** The data members of the class, in the order of their declaration; the
    two lookup tables are owned arrays that may be absent. *)
Record SusceptibilityCalculator : Type := {
  susceptibilityTree : IndexedDataTree;
  rpaSusceptibilityTree : IndexedDataTree;
  rpaChargeSusceptibilityTree : IndexedDataTree;
  rpaSpinSusceptibilityTree : IndexedDataTree;
  susceptibilityMode : Mode;
  energyType : EnergyType;
  susceptibilityEnergies : list C;
  susceptibilityEnergiesAreInversionSymmetric : bool;
  susceptibilityIsSafeFromPoles : bool;
  interactionAmplitudes : list InteractionAmplitude;
  interactionAmplitudesCharge : list InteractionAmplitude;
  interactionAmplitudesSpin : list InteractionAmplitude;
  interactionAmplitudesAreGenerated : bool;
  kPlusQLookupTable : option (list Z);
  fermiDiracLookupTable : option (list R);
  isInitialized : bool;
  isMaster : bool;
  U : C;
  Up : C;
  J : C;
  Jp : C
}.

(** Assignments to single members. *)
Definition set_susceptibilityTree (v : IndexedDataTree)
    (this : SusceptibilityCalculator) : SusceptibilityCalculator :=
  let 'Build_SusceptibilityCalculator _ t1 t2 t3 m e es inv safe ia iac ias
        gen kq fd init master u up j jp := this in
  Build_SusceptibilityCalculator v t1 t2 t3 m e es inv safe ia iac ias
    gen kq fd init master u up j jp.

Definition set_rpaSusceptibilityTree (v : IndexedDataTree)
    (this : SusceptibilityCalculator) : SusceptibilityCalculator :=
  let 'Build_SusceptibilityCalculator t0 _ t2 t3 m e es inv safe ia iac ias
        gen kq fd init master u up j jp := this in
  Build_SusceptibilityCalculator t0 v t2 t3 m e es inv safe ia iac ias
    gen kq fd init master u up j jp.

Definition set_rpaChargeSusceptibilityTree (v : IndexedDataTree)
    (this : SusceptibilityCalculator) : SusceptibilityCalculator :=
  let 'Build_SusceptibilityCalculator t0 t1 _ t3 m e es inv safe ia iac ias
        gen kq fd init master u up j jp := this in
  Build_SusceptibilityCalculator t0 t1 v t3 m e es inv safe ia iac ias
    gen kq fd init master u up j jp.

Definition set_rpaSpinSusceptibilityTree (v : IndexedDataTree)
    (this : SusceptibilityCalculator) : SusceptibilityCalculator :=
  let 'Build_SusceptibilityCalculator t0 t1 t2 _ m e es inv safe ia iac ias
        gen kq fd init master u up j jp := this in
  Build_SusceptibilityCalculator t0 t1 t2 v m e es inv safe ia iac ias
    gen kq fd init master u up j jp.

Definition set_susceptibilityEnergies (v : list C)
    (this : SusceptibilityCalculator) : SusceptibilityCalculator :=
  let 'Build_SusceptibilityCalculator t0 t1 t2 t3 m e _ inv safe ia iac ias
        gen kq fd init master u up j jp := this in
  Build_SusceptibilityCalculator t0 t1 t2 t3 m e v inv safe ia iac ias
    gen kq fd init master u up j jp.

Definition set_interactionAmplitudes (v : list InteractionAmplitude)
    (this : SusceptibilityCalculator) : SusceptibilityCalculator :=
  let 'Build_SusceptibilityCalculator t0 t1 t2 t3 m e es inv safe _ iac ias
        gen kq fd init master u up j jp := this in
  Build_SusceptibilityCalculator t0 t1 t2 t3 m e es inv safe v iac ias
    gen kq fd init master u up j jp.

Definition set_interactionAmplitudesAreGenerated (v : bool)
    (this : SusceptibilityCalculator) : SusceptibilityCalculator :=
  let 'Build_SusceptibilityCalculator t0 t1 t2 t3 m e es inv safe ia iac ias
        _ kq fd init master u up j jp := this in
  Build_SusceptibilityCalculator t0 t1 t2 t3 m e es inv safe ia iac ias
    v kq fd init master u up j jp.

Definition set_isInitialized (v : bool)
    (this : SusceptibilityCalculator) : SusceptibilityCalculator :=
  let 'Build_SusceptibilityCalculator t0 t1 t2 t3 m e es inv safe ia iac ias
        gen kq fd _ master u up j jp := this in
  Build_SusceptibilityCalculator t0 t1 t2 t3 m e es inv safe ia iac ias
    gen kq fd v master u up j jp.

Definition set_U (v : C)
    (this : SusceptibilityCalculator) : SusceptibilityCalculator :=
  let 'Build_SusceptibilityCalculator t0 t1 t2 t3 m e es inv safe ia iac ias
        gen kq fd init master _ up j jp := this in
  Build_SusceptibilityCalculator t0 t1 t2 t3 m e es inv safe ia iac ias
    gen kq fd init master v up j jp.

Definition set_Up (v : C)
    (this : SusceptibilityCalculator) : SusceptibilityCalculator :=
  let 'Build_SusceptibilityCalculator t0 t1 t2 t3 m e es inv safe ia iac ias
        gen kq fd init master u _ j jp := this in
  Build_SusceptibilityCalculator t0 t1 t2 t3 m e es inv safe ia iac ias
    gen kq fd init master u v j jp.

Definition set_J (v : C)
    (this : SusceptibilityCalculator) : SusceptibilityCalculator :=
  let 'Build_SusceptibilityCalculator t0 t1 t2 t3 m e es inv safe ia iac ias
        gen kq fd init master u up _ jp := this in
  Build_SusceptibilityCalculator t0 t1 t2 t3 m e es inv safe ia iac ias
    gen kq fd init master u up v jp.

Definition set_Jp (v : C)
    (this : SusceptibilityCalculator) : SusceptibilityCalculator :=
  let 'Build_SusceptibilityCalculator t0 t1 t2 t3 m e es inv safe ia iac ias
        gen kq fd init master u up j _ := this in
  Build_SusceptibilityCalculator t0 t1 t2 t3 m e es inv safe ia iac ias
    gen kq fd init master u up j v.

(** [tree.clear()]. *)
Definition clear (tree : IndexedDataTree) : IndexedDataTree := ∅.

(** The three statements shared by [setU], [setUp], [setJ] and [setJp]
    after the parameter has been stored, and the flag they reset. *)
Definition clearRPATrees (this : SusceptibilityCalculator)
    : SusceptibilityCalculator :=
  let this1 :=
    set_rpaSusceptibilityTree (clear (rpaSusceptibilityTree this)) this in
  let this2 :=
    set_rpaChargeSusceptibilityTree
      (clear (rpaChargeSusceptibilityTree this1)) this1 in
  set_rpaSpinSusceptibilityTree (clear (rpaSpinSusceptibilityTree this2)) this2.

Definition setInteractionAmplitudes (amplitudes : list InteractionAmplitude)
    (this : SusceptibilityCalculator) : SusceptibilityCalculator :=
  set_isInitialized false (set_interactionAmplitudes amplitudes this).

Definition setSusceptibilityEnergies (energies : list C)
    (this : SusceptibilityCalculator) : SusceptibilityCalculator :=
  let this1 := set_susceptibilityEnergies energies this in
  let this2 := set_susceptibilityTree (clear (susceptibilityTree this1)) this1 in
  clearRPATrees this2.

Definition setU (v : C) (this : SusceptibilityCalculator)
    : SusceptibilityCalculator :=
  set_interactionAmplitudesAreGenerated false (clearRPATrees (set_U v this)).

Definition setUp (v : C) (this : SusceptibilityCalculator)
    : SusceptibilityCalculator :=
  set_interactionAmplitudesAreGenerated false (clearRPATrees (set_Up v this)).

Definition setJ (v : C) (this : SusceptibilityCalculator)
    : SusceptibilityCalculator :=
  set_interactionAmplitudesAreGenerated false (clearRPATrees (set_J v this)).

Definition setJp (v : C) (this : SusceptibilityCalculator)
    : SusceptibilityCalculator :=
  set_interactionAmplitudesAreGenerated false (clearRPATrees (set_Jp v this)).

(** Assignments to the remaining members that have setters. *)
Definition set_susceptibilityMode (v : Mode)
    (this : SusceptibilityCalculator) : SusceptibilityCalculator :=
  let 'Build_SusceptibilityCalculator t0 t1 t2 t3 _ e es inv safe ia iac ias
        gen kq fd init master u up j jp := this in
  Build_SusceptibilityCalculator t0 t1 t2 t3 v e es inv safe ia iac ias
    gen kq fd init master u up j jp.

Definition set_energyType (v : EnergyType)
    (this : SusceptibilityCalculator) : SusceptibilityCalculator :=
  let 'Build_SusceptibilityCalculator t0 t1 t2 t3 m _ es inv safe ia iac ias
        gen kq fd init master u up j jp := this in
  Build_SusceptibilityCalculator t0 t1 t2 t3 m v es inv safe ia iac ias
    gen kq fd init master u up j jp.

Definition set_susceptibilityEnergiesAreInversionSymmetric (v : bool)
    (this : SusceptibilityCalculator) : SusceptibilityCalculator :=
  let 'Build_SusceptibilityCalculator t0 t1 t2 t3 m e es _ safe ia iac ias
        gen kq fd init master u up j jp := this in
  Build_SusceptibilityCalculator t0 t1 t2 t3 m e es v safe ia iac ias
    gen kq fd init master u up j jp.

Definition set_susceptibilityIsSafeFromPoles (v : bool)
    (this : SusceptibilityCalculator) : SusceptibilityCalculator :=
  let 'Build_SusceptibilityCalculator t0 t1 t2 t3 m e es inv _ ia iac ias
        gen kq fd init master u up j jp := this in
  Build_SusceptibilityCalculator t0 t1 t2 t3 m e es inv v ia iac ias
    gen kq fd init master u up j jp.

(** The setters and getters that consist of one assignment or one
    [return]. *)
Definition setSusceptibilityMode (mode : Mode)
    (this : SusceptibilityCalculator) : SusceptibilityCalculator :=
  set_susceptibilityMode mode this.

Definition getSusceptibilityMode (this : SusceptibilityCalculator) : Mode :=
  susceptibilityMode this.

Definition setEnergyType (type : EnergyType)
    (this : SusceptibilityCalculator) : SusceptibilityCalculator :=
  set_energyType type this.

Definition getEnergyType (this : SusceptibilityCalculator) : EnergyType :=
  energyType this.

Definition setSusceptibilityEnergiesAreInversionSymmetric (v : bool)
    (this : SusceptibilityCalculator) : SusceptibilityCalculator :=
  set_susceptibilityEnergiesAreInversionSymmetric v this.

Definition getSusceptibilityEnergiesAreInversionSymmetric
    (this : SusceptibilityCalculator) : bool :=
  susceptibilityEnergiesAreInversionSymmetric this.

Definition setSusceptibilityIsSafeFromPoles (v : bool)
    (this : SusceptibilityCalculator) : SusceptibilityCalculator :=
  set_susceptibilityIsSafeFromPoles v this.

Definition getSusceptibilityIsSafeFromPoles
    (this : SusceptibilityCalculator) : bool :=
  susceptibilityIsSafeFromPoles this.

(** [loadSusceptibilities]: the bare susceptibility tree becomes the tree
    that the resource read from the file deserializes to. *)
Definition loadSusceptibilities (loaded : IndexedDataTree)
    (this : SusceptibilityCalculator) : SusceptibilityCalculator :=
  set_susceptibilityTree loaded this.

(** The four caches of a calculator. *)
Definition caches (this : SusceptibilityCalculator)
    : IndexedDataTree * IndexedDataTree * IndexedDataTree * IndexedDataTree :=
  (susceptibilityTree this, rpaSusceptibilityTree this,
   rpaChargeSusceptibilityTree this, rpaSpinSusceptibilityTree this).

(** *** Cache invalidation *)

(** What a change of an interaction parameter does to the caches. *)
Definition invalidatesRPA (before after : SusceptibilityCalculator) : Prop :=
  rpaSusceptibilityTree after = ∅
  /\ rpaChargeSusceptibilityTree after = ∅
  /\ rpaSpinSusceptibilityTree after = ∅
  /\ interactionAmplitudesAreGenerated after = false
  /\ susceptibilityTree after = susceptibilityTree before.

Lemma setU_invalidatesRPA (v : C) (this : SusceptibilityCalculator) :
  invalidatesRPA this (setU v this) /\ U (setU v this) = v.
Proof. destruct this. unfold invalidatesRPA. simpl. auto 10. Qed.

Lemma setUp_invalidatesRPA (v : C) (this : SusceptibilityCalculator) :
  invalidatesRPA this (setUp v this) /\ Up (setUp v this) = v.
Proof. destruct this. unfold invalidatesRPA. simpl. auto 10. Qed.

Lemma setJ_invalidatesRPA (v : C) (this : SusceptibilityCalculator) :
  invalidatesRPA this (setJ v this) /\ J (setJ v this) = v.
Proof. destruct this. unfold invalidatesRPA. simpl. auto 10. Qed.

Lemma setJp_invalidatesRPA (v : C) (this : SusceptibilityCalculator) :
  invalidatesRPA this (setJp v this) /\ Jp (setJp v this) = v.
Proof. destruct this. unfold invalidatesRPA. simpl. auto 10. Qed.

Lemma setSusceptibilityEnergies_clears_all (energies : list C)
    (this : SusceptibilityCalculator) :
  let after := setSusceptibilityEnergies energies this in
  susceptibilityTree after = ∅
  /\ rpaSusceptibilityTree after = ∅
  /\ rpaChargeSusceptibilityTree after = ∅
  /\ rpaSpinSusceptibilityTree after = ∅
  /\ susceptibilityEnergies after = energies.
Proof. destruct this. simpl. auto 10. Qed.

(** C7. Each of [setU], [setUp], [setJ] and [setJp] empties the RPA, the
    RPA-charge and the RPA-spin susceptibility trees and resets
    [interactionAmplitudesAreGenerated], so that the charge and spin
    amplitudes are due for regeneration, and leaves the bare susceptibility
    tree as it was; [setSusceptibilityEnergies] empties the bare
    susceptibility tree as well as the three RPA trees. *)
Theorem setters_invalidate_caches :
  forall (this : SusceptibilityCalculator) (v : C) (energies : list C),
    invalidatesRPA this (setU v this)
    /\ invalidatesRPA this (setUp v this)
    /\ invalidatesRPA this (setJ v this)
    /\ invalidatesRPA this (setJp v this)
    /\ susceptibilityTree (setSusceptibilityEnergies energies this) = ∅
    /\ rpaSusceptibilityTree (setSusceptibilityEnergies energies this) = ∅
    /\ rpaChargeSusceptibilityTree (setSusceptibilityEnergies energies this) = ∅
    /\ rpaSpinSusceptibilityTree (setSusceptibilityEnergies energies this) = ∅.
Proof.
  intros this v energies.
  pose proof (setSusceptibilityEnergies_clears_all energies this)
    as (H0 & H1 & H2 & H3 & _).
  repeat split;
    first [ apply setU_invalidatesRPA | apply setUp_invalidatesRPA
          | apply setJ_invalidatesRPA | apply setJp_invalidatesRPA
          | assumption ].
Qed.

(** *** The setters that leave the caches alone *)

(** X7. Changing the susceptibility mode, the energy type, the
    inversion-symmetry flag or the safe-from-poles flag stores the value,
    which the getter then returns, and clears none of the four caches,
    although the cached susceptibilities were computed under the old
    setting; [setInteractionAmplitudes] resets [isInitialized], leaves the
    caches and does not mark the charge and spin amplitudes for
    regeneration; [loadSusceptibilities] replaces the bare susceptibility
    tree and keeps the three RPA trees. *)
Theorem plain_setters_keep_the_caches :
  forall (this : SusceptibilityCalculator) (mode : Mode) (type : EnergyType)
         (flag : bool) (amplitudes : list InteractionAmplitude)
         (loaded : IndexedDataTree),
    (caches (setSusceptibilityMode mode this) = caches this
     /\ getSusceptibilityMode (setSusceptibilityMode mode this) = mode)
    /\ (caches (setEnergyType type this) = caches this
        /\ getEnergyType (setEnergyType type this) = type)
    /\ (caches (setSusceptibilityEnergiesAreInversionSymmetric flag this)
        = caches this
        /\ getSusceptibilityEnergiesAreInversionSymmetric
             (setSusceptibilityEnergiesAreInversionSymmetric flag this) = flag)
    /\ (caches (setSusceptibilityIsSafeFromPoles flag this) = caches this
        /\ getSusceptibilityIsSafeFromPoles
             (setSusceptibilityIsSafeFromPoles flag this) = flag)
    /\ (caches (setInteractionAmplitudes amplitudes this) = caches this
        /\ isInitialized (setInteractionAmplitudes amplitudes this) = false
        /\ interactionAmplitudes (setInteractionAmplitudes amplitudes this)
           = amplitudes
        /\ interactionAmplitudesAreGenerated
             (setInteractionAmplitudes amplitudes this)
           = interactionAmplitudesAreGenerated this)
    /\ caches (loadSusceptibilities loaded this)
       = (loaded, rpaSusceptibilityTree this, rpaChargeSusceptibilityTree this,
          rpaSpinSusceptibilityTree this).
Proof.
  intros this mode type flag amplitudes loaded.
  destruct this. unfold caches. simpl.
  repeat split; reflexivity.
Qed.

(** X8. The four interaction parameters are independent: each of
    [setU], [setUp], [setJ] and [setJp] leaves the other three parameters,
    the energies and the bare susceptibility tree as they were; two
    different setters give the same calculator in either order; and each
    of the four, called twice, gives what the second call alone gives. *)
Theorem interaction_setters_commute :
  forall (this : SusceptibilityCalculator) (u up j jp v : C),
    (Up (setU u this) = Up this /\ J (setU u this) = J this
     /\ Jp (setU u this) = Jp this
     /\ susceptibilityEnergies (setU u this) = susceptibilityEnergies this
     /\ susceptibilityTree (setU u this) = susceptibilityTree this)
    /\ (U (setUp up this) = U this /\ J (setUp up this) = J this
        /\ Jp (setUp up this) = Jp this
        /\ susceptibilityEnergies (setUp up this)
           = susceptibilityEnergies this
        /\ susceptibilityTree (setUp up this) = susceptibilityTree this)
    /\ (U (setJ j this) = U this /\ Up (setJ j this) = Up this
        /\ Jp (setJ j this) = Jp this
        /\ susceptibilityEnergies (setJ j this) = susceptibilityEnergies this
        /\ susceptibilityTree (setJ j this) = susceptibilityTree this)
    /\ (U (setJp jp this) = U this /\ Up (setJp jp this) = Up this
        /\ J (setJp jp this) = J this
        /\ susceptibilityEnergies (setJp jp this)
           = susceptibilityEnergies this
        /\ susceptibilityTree (setJp jp this) = susceptibilityTree this)
    /\ setU u (setUp up this) = setUp up (setU u this)
    /\ setU u (setJ j this) = setJ j (setU u this)
    /\ setU u (setJp jp this) = setJp jp (setU u this)
    /\ setUp up (setJ j this) = setJ j (setUp up this)
    /\ setUp up (setJp jp this) = setJp jp (setUp up this)
    /\ setJ j (setJp jp this) = setJp jp (setJ j this)
    /\ setU u (setU v this) = setU u this
    /\ setUp up (setUp v this) = setUp up this
    /\ setJ j (setJ v this) = setJ j this
    /\ setJp jp (setJp v this) = setJp jp this.
Proof.
  intros this u up j jp v. destruct this. simpl.
  repeat split; reflexivity.
Qed.

End Calculator.

End Susceptibility.

(** ** Solver::FLEX *)

Module FLEX.

Local Open Scope R_scope.

Inductive State : Type :=
| NotYetStarted
| GreensFunctionCalculated
| BareSusceptibilityCalculated
| RPASusceptibilitiesCalculated
| InteractionVertexCalculated
| SelfEnergyCalculated.

(** The norms; [Unlisted] stands for a value of the enumeration that the
    [switch] of [calculateConvergenceParameter] does not list. *)
Inductive Norm : Type := Max | L2 | Unlisted.

(** The data members. A property ([GreensFunction], [Susceptibility],
    [InteractionVertex], [SelfEnergy]) is represented by its data vector;
    [callback] records whether the function pointer is set. *)
Record FLEX : Type := {
  lowerFermionicMatsubaraEnergyIndex : Z;
  upperFermionicMatsubaraEnergyIndex : Z;
  lowerBosonicMatsubaraEnergyIndex : Z;
  upperBosonicMatsubaraEnergyIndex : Z;
  U : R;
  J : R;
  state : State;
  maxIterations : nat;
  callback : bool;
  norm : Norm;
  tolerance : R;
  convergenceParameter : R;
  greensFunction0 : list C;
  greensFunction : list C;
  oldGreensFunction : list C;
  bareSusceptibility : list C;
  rpaChargeSusceptibility : list C;
  rpaSpinSusceptibility : list C;
  interactionVertex : list C;
  selfEnergy : list C
}.

(** Assignments to single members. *)
Definition set_state (v : State) (this : FLEX) : FLEX :=
  let 'Build_FLEX lf uf lb ub u j _ mi cb nm tol cp g0 g og bs rc rs iv se :=
    this in
  Build_FLEX lf uf lb ub u j v mi cb nm tol cp g0 g og bs rc rs iv se.

Definition set_convergenceParameter (v : R) (this : FLEX) : FLEX :=
  let 'Build_FLEX lf uf lb ub u j st mi cb nm tol _ g0 g og bs rc rs iv se :=
    this in
  Build_FLEX lf uf lb ub u j st mi cb nm tol v g0 g og bs rc rs iv se.

Definition set_greensFunction0 (v : list C) (this : FLEX) : FLEX :=
  let 'Build_FLEX lf uf lb ub u j st mi cb nm tol cp _ g og bs rc rs iv se :=
    this in
  Build_FLEX lf uf lb ub u j st mi cb nm tol cp v g og bs rc rs iv se.

Definition set_greensFunction (v : list C) (this : FLEX) : FLEX :=
  let 'Build_FLEX lf uf lb ub u j st mi cb nm tol cp g0 _ og bs rc rs iv se :=
    this in
  Build_FLEX lf uf lb ub u j st mi cb nm tol cp g0 v og bs rc rs iv se.

Definition set_oldGreensFunction (v : list C) (this : FLEX) : FLEX :=
  let 'Build_FLEX lf uf lb ub u j st mi cb nm tol cp g0 g _ bs rc rs iv se :=
    this in
  Build_FLEX lf uf lb ub u j st mi cb nm tol cp g0 g v bs rc rs iv se.

Definition set_bareSusceptibility (v : list C) (this : FLEX) : FLEX :=
  let 'Build_FLEX lf uf lb ub u j st mi cb nm tol cp g0 g og _ rc rs iv se :=
    this in
  Build_FLEX lf uf lb ub u j st mi cb nm tol cp g0 g og v rc rs iv se.

Definition set_rpaChargeSusceptibility (v : list C) (this : FLEX) : FLEX :=
  let 'Build_FLEX lf uf lb ub u j st mi cb nm tol cp g0 g og bs _ rs iv se :=
    this in
  Build_FLEX lf uf lb ub u j st mi cb nm tol cp g0 g og bs v rs iv se.

Definition set_rpaSpinSusceptibility (v : list C) (this : FLEX) : FLEX :=
  let 'Build_FLEX lf uf lb ub u j st mi cb nm tol cp g0 g og bs rc _ iv se :=
    this in
  Build_FLEX lf uf lb ub u j st mi cb nm tol cp g0 g og bs rc v iv se.

Definition set_interactionVertex (v : list C) (this : FLEX) : FLEX :=
  let 'Build_FLEX lf uf lb ub u j st mi cb nm tol cp g0 g og bs rc rs _ se :=
    this in
  Build_FLEX lf uf lb ub u j st mi cb nm tol cp g0 g og bs rc rs v se.

Definition set_selfEnergy (v : list C) (this : FLEX) : FLEX :=
  let 'Build_FLEX lf uf lb ub u j st mi cb nm tol cp g0 g og bs rc rs iv _ :=
    this in
  Build_FLEX lf uf lb ub u j st mi cb nm tol cp g0 g og bs rc rs iv v.

(** The constructor. It gives no value to [tolerance]; the value the member
    happens to hold is an argument here. *)
Definition construct (indeterminateTolerance : R) : FLEX :=
  {| lowerFermionicMatsubaraEnergyIndex := -1;
     upperFermionicMatsubaraEnergyIndex := 1;
     lowerBosonicMatsubaraEnergyIndex := 0;
     upperBosonicMatsubaraEnergyIndex := 0;
     U := 0;
     J := 0;
     state := NotYetStarted;
     maxIterations := 1;
     callback := false;
     norm := Max;
     tolerance := indeterminateTolerance;
     convergenceParameter := 0;
     greensFunction0 := [];
     greensFunction := [];
     oldGreensFunction := [];
     bareSusceptibility := [];
     rpaChargeSusceptibility := [];
     rpaSpinSusceptibility := [];
     interactionVertex := [];
     selfEnergy := [] |}.

Definition setMaxIterations (v : nat) (this : FLEX) : FLEX :=
  let 'Build_FLEX lf uf lb ub u j st _ cb nm tol cp g0 g og bs rc rs iv se :=
    this in
  Build_FLEX lf uf lb ub u j st v cb nm tol cp g0 g og bs rc rs iv se.

Definition setCallback (v : bool) (this : FLEX) : FLEX :=
  let 'Build_FLEX lf uf lb ub u j st mi _ nm tol cp g0 g og bs rc rs iv se :=
    this in
  Build_FLEX lf uf lb ub u j st mi v nm tol cp g0 g og bs rc rs iv se.

Section Solver.

(** The collaborating solvers and property extractors are external; each
    is a function from the inputs the code hands over to the data of the
    property it returns. [numMeshPoints] is what the momentum space context
    reports; [unblockSelfEnergy] is the re-indexing loop of
    [convertSelfEnergyIndexStructure], whose property classes are not among
    the sources at hand. *)
Variable numMeshPoints : list nat.
Variable blockDiagonalizerGreensFunction : Z -> Z -> Z -> Z -> list C.
Variable matsubaraSusceptibility : Z -> Z -> Z -> Z -> list C -> list C.
Variable rpaChargeSusceptibilityOf : R -> R -> R -> R -> list C -> list C.
Variable rpaSpinSusceptibilityOf : R -> R -> R -> R -> list C -> list C.
Variable electronFluctuationVertex :
  R -> R -> R -> R -> list C -> list C -> list C.
Variable selfEnergy2 : Z -> Z -> Z -> Z -> list C -> list C -> list C.
Variable unblockSelfEnergy : list C -> list C.
Variable interactingGreensFunction : list C -> list C -> list C.

Definition blockStructureMessage : string :=
  "Only two-dimensional block indices supported yet.".

Definition calculateBareGreensFunction (this : FLEX) : Result FLEX :=
  if decide (length numMeshPoints = 2%nat) then
    Ok (set_greensFunction0
          (blockDiagonalizerGreensFunction
             (lowerFermionicMatsubaraEnergyIndex this)
             (upperFermionicMatsubaraEnergyIndex this)
             (lowerBosonicMatsubaraEnergyIndex this)
             (upperBosonicMatsubaraEnergyIndex this))
          this)
  else Fail (TBTKAssertFailed "Solver::FLEX::run()" blockStructureMessage).

Definition calculateBareSusceptibility (this : FLEX) : FLEX :=
  set_bareSusceptibility
    (matsubaraSusceptibility
       (lowerFermionicMatsubaraEnergyIndex this)
       (upperFermionicMatsubaraEnergyIndex this)
       (lowerBosonicMatsubaraEnergyIndex this)
       (upperBosonicMatsubaraEnergyIndex this)
       (greensFunction this))
    this.

Definition calculateRPASusceptibilities (this : FLEX) : FLEX :=
  let this1 :=
    set_rpaChargeSusceptibility
      (rpaChargeSusceptibilityOf (U this) (J this) (U this - 2 * J this)
         (J this) (bareSusceptibility this))
      this in
  set_rpaSpinSusceptibility
    (rpaSpinSusceptibilityOf (U this1) (J this1) (U this1 - 2 * J this1)
       (J this1) (bareSusceptibility this1))
    this1.

Definition calculateInteractionVertex (this : FLEX) : FLEX :=
  set_interactionVertex
    (electronFluctuationVertex (U this) (J this) (U this - 2 * J this)
       (J this) (rpaChargeSusceptibility this) (rpaSpinSusceptibility this))
    this.

Definition convertSelfEnergyIndexStructure (this : FLEX) : Result FLEX :=
  if decide (length numMeshPoints = 2%nat) then
    Ok (set_selfEnergy (unblockSelfEnergy (selfEnergy this)) this)
  else Fail (TBTKAssertFailed
               "Solver::FLEX::convertSelfEnergyBlockStructure()"
               blockStructureMessage).

Definition calculateSelfEnergy (this : FLEX) : Result FLEX :=
  convertSelfEnergyIndexStructure
    (set_selfEnergy
       (selfEnergy2
          (lowerFermionicMatsubaraEnergyIndex this)
          (upperFermionicMatsubaraEnergyIndex this)
          (lowerBosonicMatsubaraEnergyIndex this)
          (upperBosonicMatsubaraEnergyIndex this)
          (interactionVertex this) (greensFunction this))
       this).

Definition calculateGreensFunction (this : FLEX) : FLEX :=
  set_greensFunction
    (interactingGreensFunction (greensFunction0 this) (selfEnergy this))
    this.

(** The two accumulators of the [Norm::Max] loop and of the [Norm::L2]
    loop, over the paired entries of the old and the new data. *)
Definition maxStep (acc : R * R) (entry : C * C) : R * R :=
  let '(oldMax, differenceMax) := acc in
  let '(old, new) := entry in
  let oldMax' := if Rgt_dec (Cabs old) oldMax then Cabs old else oldMax in
  let differenceMax' :=
    if Rgt_dec (Cabs (Cminus old new)) differenceMax
    then Cabs (Cminus old new) else differenceMax in
  (oldMax', differenceMax').

Definition l2Step (acc : R * R) (entry : C * C) : R * R :=
  let '(oldL2, differenceL2) := acc in
  let '(old, new) := entry in
  (oldL2 + Cabs old ^ 2, differenceL2 + Cabs (Cminus old new) ^ 2).

(** [calculateConvergenceParameter]. The loops index both vectors up to
    the size of the old data, which the assertion has made the size of the
    new data too. *)
Definition calculateConvergenceParameter (this : FLEX) : Result FLEX :=
  let oldData := oldGreensFunction this in
  let newData := greensFunction this in
  if decide (length oldData = length newData) then
    match norm this with
    | Max =>
        let '(oldMax, differenceMax) :=
          fold_left maxStep (zip oldData newData) (0, 0) in
        Ok (set_convergenceParameter (differenceMax / oldMax) this)
    | L2 =>
        let '(oldL2, differenceL2) :=
          fold_left l2Step (zip oldData newData) (0, 0) in
        Ok (set_convergenceParameter (differenceL2 / oldL2) this)
    | Unlisted =>
        Fail (TBTKExit "Solver::FLEX::calculateConvergenceParameter()"
                "Unknown norm.")
    end
  else Fail (TBTKAssertFailed "Solver::FLEX::calculateConvergenceParameter()"
               "Incompatible Green's function data sizes.").

(** [state = v; if(callback != nullptr) callback( *this)]: the solver,
    paired with the snapshots its observer has been shown so far. *)
Definition enter (v : State) (run : FLEX * list FLEX) : FLEX * list FLEX :=
  let this := set_state v (fst run) in
  (this, if callback this then snd run ++ [this] else snd run).

(** One pass through the body of the main loop, up to the test of the
    convergence parameter. *)
Definition iteration (run : FLEX * list FLEX) : Result (FLEX * list FLEX) :=
  let run1 :=
    enter BareSusceptibilityCalculated
      (calculateBareSusceptibility (fst run), snd run) in
  let run2 :=
    enter RPASusceptibilitiesCalculated
      (calculateRPASusceptibilities (fst run1), snd run1) in
  let run3 :=
    enter InteractionVertexCalculated
      (calculateInteractionVertex (fst run2), snd run2) in
  do this4 <- calculateSelfEnergy (fst run3);
  let run4 := enter SelfEnergyCalculated (this4, snd run3) in
  let this5 := set_oldGreensFunction (greensFunction (fst run4)) (fst run4) in
  let this6 := calculateGreensFunction this5 in
  Ok (enter GreensFunctionCalculated (this6, snd run4)).

(** [while(iteration++ < maxIterations)], with [remaining] passes left. *)
Fixpoint mainLoop (remaining : nat) (run : FLEX * list FLEX)
    : Result (FLEX * list FLEX) :=
  match remaining with
  | O => Ok run
  | S remaining' =>
      do run' <- iteration run;
      if Rlt_dec (convergenceParameter (fst run')) (tolerance (fst run'))
      then Ok run'
      else mainLoop remaining' run'
  end.

(** [run()]. *)
Definition run (this : FLEX) : Result (FLEX * list FLEX) :=
  do this1 <- calculateBareGreensFunction this;
  let this2 := set_greensFunction (greensFunction0 this1) this1 in
  let run0 := enter GreensFunctionCalculated (this2, []) in
  mainLoop (maxIterations (fst run0)) run0.

(** The stages the observer is shown during one pass of the loop. *)
Definition stages : list State :=
  [BareSusceptibilityCalculated; RPASusceptibilitiesCalculated;
   InteractionVertexCalculated; SelfEnergyCalculated;
   GreensFunctionCalculated].

(** The number of passes [run] makes, as the test against the tolerance
    decides it from the values the members hold when [run] is called. *)
Definition passes (this : FLEX) : nat :=
  match maxIterations this with
  | O => O
  | S _ =>
      if Rlt_dec (convergenceParameter this) (tolerance this) then 1%nat
      else maxIterations this
  end.

(** Every quantity of the solver is what one pass of the pipeline makes
    of the previous Green's function. *)
Definition consistent (this : FLEX) : Prop :=
  bareSusceptibility this
  = matsubaraSusceptibility
      (lowerFermionicMatsubaraEnergyIndex this)
      (upperFermionicMatsubaraEnergyIndex this)
      (lowerBosonicMatsubaraEnergyIndex this)
      (upperBosonicMatsubaraEnergyIndex this)
      (oldGreensFunction this)
  /\ rpaChargeSusceptibility this
     = rpaChargeSusceptibilityOf (U this) (J this) (U this - 2 * J this)
         (J this) (bareSusceptibility this)
  /\ rpaSpinSusceptibility this
     = rpaSpinSusceptibilityOf (U this) (J this) (U this - 2 * J this)
         (J this) (bareSusceptibility this)
  /\ interactionVertex this
     = electronFluctuationVertex (U this) (J this) (U this - 2 * J this)
         (J this) (rpaChargeSusceptibility this) (rpaSpinSusceptibility this)
  /\ selfEnergy this
     = unblockSelfEnergy
         (selfEnergy2
            (lowerFermionicMatsubaraEnergyIndex this)
            (upperFermionicMatsubaraEnergyIndex this)
            (lowerBosonicMatsubaraEnergyIndex this)
            (upperBosonicMatsubaraEnergyIndex this)
            (interactionVertex this) (oldGreensFunction this))
  /\ greensFunction this
     = interactingGreensFunction (greensFunction0 this) (selfEnergy this).

(** The members [run] does not assign to. *)
Definition sameSettings (before after : FLEX) : Prop :=
  lowerFermionicMatsubaraEnergyIndex after
  = lowerFermionicMatsubaraEnergyIndex before
  /\ upperFermionicMatsubaraEnergyIndex after
     = upperFermionicMatsubaraEnergyIndex before
  /\ lowerBosonicMatsubaraEnergyIndex after
     = lowerBosonicMatsubaraEnergyIndex before
  /\ upperBosonicMatsubaraEnergyIndex after
     = upperBosonicMatsubaraEnergyIndex before
  /\ U after = U before
  /\ J after = J before
  /\ maxIterations after = maxIterations before
  /\ callback after = callback before
  /\ norm after = norm before
  /\ tolerance after = tolerance before
  /\ convergenceParameter after = convergenceParameter before.

(** The solver after one pass over a bare Green's function [(1)] that the
    pass has turned into [(2)]. *)
Definition afterOnePass : FLEX :=
  {| lowerFermionicMatsubaraEnergyIndex := -1;
     upperFermionicMatsubaraEnergyIndex := 1;
     lowerBosonicMatsubaraEnergyIndex := 0;
     upperBosonicMatsubaraEnergyIndex := 0;
     U := 0;
     J := 0;
     state := GreensFunctionCalculated;
     maxIterations := 1;
     callback := false;
     norm := Max;
     tolerance := 1 / 2;
     convergenceParameter := 0;
     greensFunction0 := [(1, 0)];
     greensFunction := [(2, 0)];
     oldGreensFunction := [(1, 0)];
     bareSusceptibility := [];
     rpaChargeSusceptibility := [];
     rpaSpinSusceptibility := [];
     interactionVertex := [];
     selfEnergy := [] |}.

(** *** The convergence parameter during [run] *)

Lemma enter_convergenceParameter (v : State) (r : FLEX * list FLEX) :
  convergenceParameter (fst (enter v r)) = convergenceParameter (fst r)
  /\ tolerance (fst (enter v r)) = tolerance (fst r).
Proof. destruct r as [[] log]. split; reflexivity. Qed.

Lemma iteration_convergenceParameter (r r' : FLEX * list FLEX) :
  iteration r = Ok r' ->
  convergenceParameter (fst r') = convergenceParameter (fst r)
  /\ tolerance (fst r') = tolerance (fst r).
Proof.
  destruct r as [[] log]. unfold iteration, calculateSelfEnergy,
    convertSelfEnergyIndexStructure. simpl.
  destruct (decide (length numMeshPoints = 2%nat)); simpl; [|discriminate].
  intros [= <-]. split; reflexivity.
Qed.

Lemma mainLoop_convergenceParameter :
  forall (remaining : nat) (r r' : FLEX * list FLEX),
    mainLoop remaining r = Ok r' ->
    convergenceParameter (fst r') = convergenceParameter (fst r)
    /\ tolerance (fst r') = tolerance (fst r).
Proof.
  induction remaining as [|remaining IH]; intros r r'; simpl.
  - intros [= <-]. split; reflexivity.
  - destruct (iteration r) as [r1|f] eqn:Hit; simpl; [|discriminate].
    destruct (iteration_convergenceParameter _ _ Hit) as [Hc Ht].
    destruct (Rlt_dec _ _).
    + intros [= <-]. split; assumption.
    + intros Hloop. destruct (IH _ _ Hloop) as [Hc' Ht'].
      split; congruence.
Qed.

(** [run] never computes the convergence parameter: whatever the Green's
    functions are, the member holds at the end what it held at the
    start. *)
Lemma run_keeps_convergenceParameter (this : FLEX) (r : FLEX * list FLEX) :
  run this = Ok r ->
  convergenceParameter (fst r) = convergenceParameter this.
Proof.
  unfold run, calculateBareGreensFunction.
  destruct (decide (length numMeshPoints = 2%nat)); simpl; [|discriminate].
  intros Hloop. apply mainLoop_convergenceParameter in Hloop as [Hc _].
  rewrite Hc. destruct this. reflexivity.
Qed.

(** The test that ends the loop early therefore compares the initial
    value with the tolerance: if it is below, one pass is all that runs. *)
Lemma mainLoop_one_pass (remaining : nat) (r : FLEX * list FLEX) :
  convergenceParameter (fst r) < tolerance (fst r) ->
  mainLoop (S remaining) r = iteration r.
Proof.
  intros Hlt. simpl.
  destruct (iteration r) as [r1|f] eqn:Hit; simpl; [|reflexivity].
  destruct (iteration_convergenceParameter _ _ Hit) as [Hc Ht].
  destruct (Rlt_dec _ _) as [_|Hn]; [reflexivity|].
  exfalso. apply Hn. rewrite Hc, Ht. exact Hlt.
Qed.

(** *** What a run does *)

Lemma iteration_Ok (r : FLEX * list FLEX) :
  length numMeshPoints = 2%nat ->
  exists r',
    iteration r = Ok r'
    /\ state (fst r') = GreensFunctionCalculated
    /\ sameSettings (fst r) (fst r')
    /\ greensFunction0 (fst r') = greensFunction0 (fst r)
    /\ oldGreensFunction (fst r') = greensFunction (fst r)
    /\ consistent (fst r')
    /\ map state (snd r')
       = map state (snd r) ++ (if callback (fst r) then stages else []).
Proof.
  intros Hmesh. destruct r as [[] log].
  unfold iteration, calculateSelfEnergy, convertSelfEnergyIndexStructure.
  destruct (decide (length numMeshPoints = 2%nat)) as [_|Hn];
    [|contradiction].
  eexists. split; [reflexivity|]. simpl.
  split; [reflexivity|]. split; [unfold sameSettings; simpl; auto 15|].
  split; [reflexivity|]. split; [reflexivity|].
  split; [unfold consistent; simpl; auto 10|].
  destruct callback0; simpl; [|now rewrite app_nil_r].
  rewrite !map_app. simpl. rewrite <- !app_assoc. reflexivity.
Qed.

Lemma sameSettings_refl (this : FLEX) : sameSettings this this.
Proof. unfold sameSettings. auto 15. Qed.

Lemma sameSettings_trans (a b c : FLEX) :
  sameSettings a b -> sameSettings b c -> sameSettings a c.
Proof.
  unfold sameSettings. intros Hab Hbc.
  destruct Hab as (? & ? & ? & ? & ? & ? & ? & ? & ? & ? & ?).
  destruct Hbc as (? & ? & ? & ? & ? & ? & ? & ? & ? & ? & ?).
  repeat split; congruence.
Qed.

Lemma mainLoop_Ok :
  length numMeshPoints = 2%nat ->
  forall (remaining : nat) (r : FLEX * list FLEX),
    state (fst r) = GreensFunctionCalculated ->
    exists r',
      mainLoop remaining r = Ok r'
      /\ state (fst r') = GreensFunctionCalculated
      /\ sameSettings (fst r) (fst r')
      /\ greensFunction0 (fst r') = greensFunction0 (fst r)
      /\ ((0 < remaining)%nat -> consistent (fst r'))
      /\ map state (snd r')
         = map state (snd r)
           ++ (if callback (fst r)
               then concat
                      (replicate
                         (match remaining with
                          | O => O
                          | S _ =>
                              if Rlt_dec (convergenceParameter (fst r))
                                         (tolerance (fst r))
                              then 1%nat else remaining
                          end) stages)
               else []).
Proof.
  intros Hmesh.
  induction remaining as [|remaining IH]; intros r Hstate.
  - exists r. simpl. split; [reflexivity|]. split; [assumption|].
    split; [apply sameSettings_refl|]. split; [reflexivity|].
    split; [lia|]. destruct (callback (fst r)); now rewrite app_nil_r.
  - destruct (iteration_Ok r Hmesh)
      as (r1 & Hit & Hst1 & Hsame1 & Hg01 & _ & Hcons1 & Hlog1).
    cbn [mainLoop]. rewrite Hit, bind_Ok.
    assert (Hcp : convergenceParameter (fst r1) = convergenceParameter (fst r)
                  /\ tolerance (fst r1) = tolerance (fst r)
                  /\ callback (fst r1) = callback (fst r)).
    { unfold sameSettings in Hsame1. tauto. }
    destruct Hcp as (Hcp & Htol & Hcb). rewrite Hcp, Htol.
    destruct (Rlt_dec _ _) as [Hlt|Hge].
    + exists r1. split; [reflexivity|]. split; [assumption|].
      split; [assumption|]. split; [assumption|]. split; [auto|].
      rewrite Hlog1. destruct (callback (fst r)); simpl;
        now rewrite ?app_nil_r.
    + destruct (IH r1 Hst1)
        as (r' & Hrun & Hst' & Hsame' & Hg0' & Hcons' & Hlog').
      exists r'. split; [assumption|]. split; [assumption|].
      split; [eapply sameSettings_trans; eassumption|].
      split; [congruence|]. split.
      * intros _. destruct remaining as [|remaining'].
        -- simpl in Hrun. injection Hrun as <-. assumption.
        -- apply Hcons'. lia.
      * rewrite Hlog', Hlog1, Hcb, Hcp, Htol.
        destruct (callback (fst r)); [|now rewrite !app_nil_r].
        rewrite <- app_assoc. f_equal.
        destruct remaining as [|remaining'].
        -- simpl. reflexivity.
        -- destruct (Rlt_dec (convergenceParameter (fst r)) (tolerance (fst r)))
             as [Hlt|_]; [exfalso; exact (Hge Hlt)|].
           reflexivity.
Qed.

(** X9. [run] fails exactly when the mesh of the momentum space
    is not two-dimensional, and it then fails with the assertion of
    [calculateBareGreensFunction], before any stage is reached; on a
    two-dimensional mesh it returns, whatever the collaborating solvers
    deliver. *)
Theorem run_returns_iff_mesh_is_two_dimensional :
  forall (this : FLEX),
    match run this with
    | Ok _ => length numMeshPoints = 2%nat
    | Fail f =>
        length numMeshPoints <> 2%nat
        /\ f = TBTKAssertFailed "Solver::FLEX::run()" blockStructureMessage
    end.
Proof.
  intros this. unfold run, calculateBareGreensFunction.
  destruct (decide (length numMeshPoints = 2%nat)) as [Hmesh|Hmesh];
    [|now split].
  rewrite bind_Ok. cbv zeta.
  match goal with
  | |- match mainLoop ?n ?r with _ => _ end =>
      destruct (mainLoop_Ok Hmesh n r) as (r' & -> & _)
  end.
  - destruct this, callback0; reflexivity.
  - assumption.
Qed.

(** X10. A run ends in the state [GreensFunctionCalculated] and
    changes none of the settings, the convergence parameter included. Its
    observer is notified once after the bootstrap and then once per stage
    of every pass; the number of passes is 0 if [maxIterations] is 0, else
    1 if the convergence parameter held at the call is below the
    tolerance, and [maxIterations] otherwise. *)
Theorem run_notifies_observer_once_per_stage :
  forall (this this' : FLEX) (log : list FLEX),
    run this = Ok (this', log) ->
    state this' = GreensFunctionCalculated
    /\ sameSettings this this'
    /\ map state log
       = if callback this
         then GreensFunctionCalculated
              :: concat (replicate (passes this) stages)
         else [].
Proof.
  intros this this' log. unfold run, calculateBareGreensFunction.
  destruct (decide (length numMeshPoints = 2%nat)) as [Hmesh|Hmesh];
    [|discriminate].
  rewrite bind_Ok. cbv zeta.
  match goal with
  | |- mainLoop ?n ?r = _ -> _ =>
      destruct (mainLoop_Ok Hmesh n r)
        as (r' & -> & Hst & Hsame & _ & _ & Hlog)
  end.
  - destruct this, callback0; reflexivity.
  - intros [= ->]. simpl in Hst, Hsame, Hlog.
    split; [assumption|]. split.
    + destruct this. exact Hsame.
    + rewrite Hlog. destruct this, callback0; reflexivity.
Qed.

(** X11. After a run of at least one pass the members form one
    consistent pass of the pipeline: the bare susceptibility, the RPA
    susceptibilities, the interaction vertex, the self-energy and the
    Green's function are what the collaborating solvers make, in this
    order, of the previous Green's function, and the bare Green's function
    is the one of the bootstrap. *)
Theorem run_leaves_one_consistent_pass :
  forall (this this' : FLEX) (log : list FLEX),
    (0 < maxIterations this)%nat ->
    run this = Ok (this', log) ->
    consistent this'
    /\ greensFunction0 this'
       = blockDiagonalizerGreensFunction
           (lowerFermionicMatsubaraEnergyIndex this)
           (upperFermionicMatsubaraEnergyIndex this)
           (lowerBosonicMatsubaraEnergyIndex this)
           (upperBosonicMatsubaraEnergyIndex this).
Proof.
  intros this this' log Hpos. unfold run, calculateBareGreensFunction.
  destruct (decide (length numMeshPoints = 2%nat)) as [Hmesh|Hmesh];
    [|discriminate].
  rewrite bind_Ok. cbv zeta.
  match goal with
  | |- mainLoop ?n ?r = _ -> _ =>
      destruct (mainLoop_Ok Hmesh n r)
        as (r' & -> & _ & _ & Hg0 & Hcons & _)
  end.
  - destruct this, callback0; reflexivity.
  - intros [= ->]. simpl in Hg0, Hcons. split.
    + apply Hcons. destruct this, callback0; exact Hpos.
    + rewrite Hg0. destruct this, callback0; reflexivity.
Qed.

End Solver.

(** *** A run in which the Green's function changes *)

Lemma Cabs_real (x : R) : Cabs (x, 0) = Rabs x.
Proof.
  unfold Cabs, real, imag. simpl.
  replace (x * x + 0 * 0) with (Rsqr x) by (unfold Rsqr; lra).
  apply sqrt_Rsqr_abs.
Qed.

(** C1, on a run whose collaborators deliver the bare Green's function
    [(1)] and the interacting Green's function [(2)], with
    [maxIterations = 3], a tolerance of 1/2, [Norm::Max] and an observer
    set. [run] ends after one pass of the loop (the observer has seen the
    bootstrap and the five stages of one pass); the previous and the
    current Green's function are then [(1)] and [(2)], and the convergence
    parameter is still the constructor's 0, which is what the test against
    the tolerance saw, while [calculateConvergenceParameter], had it been
    called, would have made it 1, which is not below the tolerance. *)
Theorem run_does_not_compute_convergenceParameter :
  exists (this' : FLEX) (log : list FLEX),
    run [1%nat; 1%nat]
      (fun _ _ _ _ => [(1, 0)])
      (fun _ _ _ _ _ => [])
      (fun _ _ _ _ _ => [])
      (fun _ _ _ _ _ => [])
      (fun _ _ _ _ _ _ => [])
      (fun _ _ _ _ _ _ => [])
      (fun selfEnergy => selfEnergy)
      (fun _ _ => [(2, 0)])
      (setCallback true (setMaxIterations 3 (construct (1 / 2))))
    = Ok (this', log)
    /\ length log = 6%nat
    /\ oldGreensFunction this' = [(1, 0)]
    /\ greensFunction this' = [(2, 0)]
    /\ convergenceParameter this' = 0
    /\ exists this'' : FLEX,
         calculateConvergenceParameter this' = Ok this''
         /\ convergenceParameter this'' = 1
         /\ ~ convergenceParameter this'' < tolerance this''.
Proof.
  eexists. eexists. split.
  { unfold run, calculateBareGreensFunction.
    destruct (decide _) as [_|Hn]; [|contradiction].
    rewrite bind_Ok. cbv zeta.
    match goal with
    | |- mainLoop _ _ _ _ _ _ _ _ ?n _ = _ => change n with 3%nat
    end.
    rewrite mainLoop_one_pass; [reflexivity|].
    simpl. lra. }
  split; [reflexivity|].
  split; [reflexivity|]. split; [reflexivity|]. split; [reflexivity|].
  eexists. split.
  { unfold calculateConvergenceParameter. simpl.
    unfold Cminus, real, imag. simpl.
    replace (1 - 2) with (Ropp 1) by lra. replace (0 - 0) with 0 by lra.
    rewrite !Cabs_real, Rabs_R1, Rabs_Ropp, Rabs_R1.
    destruct (Rgt_dec 1 0) as [_|Hn]; [|exfalso; lra].
    reflexivity. }
  simpl. split; lra.
Qed.

(** *** The convergence parameter *)

Lemma Cabs_nonneg (z : C) : 0 <= Cabs z.
Proof. apply sqrt_pos. Qed.

Lemma Cabs_zero (z : C) : Cabs z = 0 <-> z = C0.
Proof.
  destruct z as [x y]. unfold Cabs, C0, real, imag. simpl. split.
  - intros H. apply sqrt_eq_0 in H; [|nra].
    assert (x = 0) by nra. assert (y = 0) by nra. congruence.
  - intros [= -> ->]. replace (0 * 0 + 0 * 0) with 0 by lra. apply sqrt_0.
Qed.

Lemma Cminus_zero (a b : C) : Cminus a b = C0 <-> a = b.
Proof.
  destruct a as [x y], b as [u v]. unfold Cminus, C0, real, imag. simpl.
  split; intros [= H1 H2]; f_equal; lra.
Qed.

Lemma maxStep_fold (entries : list (C * C)) :
  forall (oldMax differenceMax : R),
    let result := fold_left maxStep entries (oldMax, differenceMax) in
    oldMax <= fst result
    /\ differenceMax <= snd result
    /\ Forall (fun entry =>
                 Cabs (fst entry) <= fst result
                 /\ Cabs (Cminus (fst entry) (snd entry)) <= snd result)
              entries
    /\ (snd result = differenceMax
        \/ Exists (fun entry =>
                     snd result = Cabs (Cminus (fst entry) (snd entry)))
                  entries).
Proof.
  induction entries as [|[old new] rest IH]; intros oldMax differenceMax;
    cbn zeta.
  - simpl. split; [lra|]. split; [lra|]. split; [constructor | now left].
  - cbn [fold_left maxStep].
    destruct (IH (if Rgt_dec (Cabs old) oldMax then Cabs old else oldMax)
                (if Rgt_dec (Cabs (Cminus old new)) differenceMax
                 then Cabs (Cminus old new) else differenceMax))
      as (H1 & H2 & H3 & H4).
    cbn zeta in H1, H2, H3, H4.
    split; [destruct (Rgt_dec (Cabs old) oldMax); lra|].
    split; [destruct (Rgt_dec (Cabs (Cminus old new)) differenceMax); lra|].
    split.
    + constructor; [|exact H3]. simpl.
      destruct (Rgt_dec (Cabs old) oldMax),
        (Rgt_dec (Cabs (Cminus old new)) differenceMax); lra.
    + destruct H4 as [H4|H4]; [|right; now constructor 2].
      destruct (Rgt_dec (Cabs (Cminus old new)) differenceMax);
        [right; now constructor 1 | now left].
Qed.

(** X12. With [Norm::Max], equal sizes and a previous Green's
    function that is not zero throughout, [calculateConvergenceParameter]
    stores a value that is not negative, changes no other member, and the
    value is 0 exactly when the Green's function has not changed. *)
Theorem max_norm_vanishes_iff_unchanged :
  forall (this : FLEX),
    norm this = Max ->
    length (oldGreensFunction this) = length (greensFunction this) ->
    (exists z, In z (oldGreensFunction this) /\ z <> C0) ->
    exists value,
      calculateConvergenceParameter this
      = Ok (set_convergenceParameter value this)
      /\ 0 <= value
      /\ (value = 0 <-> oldGreensFunction this = greensFunction this).
Proof.
  intros this Hnorm Hlen (z & Hz & Hnz).
  unfold calculateConvergenceParameter.
  destruct (decide _) as [_|Hn]; [|contradiction]. rewrite Hnorm.
  pose proof (maxStep_fold
                (zip (oldGreensFunction this) (greensFunction this)) 0 0)
    as (Hold & Hdiff & Hall & Hatt).
  cbn zeta in Hold, Hdiff, Hall, Hatt.
  destruct (fold_left maxStep _ (0, 0)) as [oldMax differenceMax].
  simpl in Hold, Hdiff, Hall, Hatt.
  assert (Hpos : 0 < oldMax).
  { apply list_elem_of_In, list_elem_of_lookup in Hz as [i Hi].
    destruct (lookup_lt_is_Some_2 (greensFunction this) i) as [w Hw].
    { rewrite <- Hlen. eapply lookup_lt_Some; eassumption. }
    rewrite Forall_lookup in Hall.
    destruct (Hall i (z, w)) as [Hle _].
    { rewrite lookup_zip_with, Hi. simpl. now rewrite Hw. }
    simpl in Hle. pose proof (Cabs_nonneg z) as H0.
    destruct (Req_dec (Cabs z) 0) as [Hzero|Hne]; [|lra].
    apply Cabs_zero in Hzero. contradiction. }
  exists (differenceMax / oldMax). split; [reflexivity|].
  split; [apply Rmult_le_pos; [lra | left; now apply Rinv_0_lt_compat]|].
  assert (Hvalue : differenceMax / oldMax = 0 <-> differenceMax = 0).
  { split; [|intros ->; unfold Rdiv; lra].
    intros Hq. unfold Rdiv in Hq.
    apply Rmult_integral in Hq as [Hq|Hq]; [assumption|].
    pose proof (Rinv_0_lt_compat _ Hpos). lra. }
  rewrite Hvalue. split.
  - intros ->. apply list_eq_same_length with (length (greensFunction this));
      [reflexivity | assumption|].
    intros i x y _ Hx Hy. rewrite Forall_lookup in Hall.
    destruct (Hall i (x, y)) as [_ Hle].
    { rewrite lookup_zip_with, Hx. simpl. now rewrite Hy. }
    simpl in Hle. pose proof (Cabs_nonneg (Cminus x y)).
    apply Cminus_zero, Cabs_zero. lra.
  - intros Heq. destruct Hatt as [Hatt|Hatt]; [assumption|].
    apply Exists_exists in Hatt as ([x y] & Hin & ->). simpl.
    apply list_elem_of_lookup in Hin as [i Hi].
    rewrite lookup_zip_with in Hi.
    destruct (oldGreensFunction this !! i) as [x'|] eqn:Hx; [|discriminate].
    simpl in Hi.
    destruct (greensFunction this !! i) as [y'|] eqn:Hy; [|discriminate].
    injection Hi as <- <-. rewrite Heq in Hx.
    assert (x' = y') as -> by congruence.
    apply Cabs_zero, Cminus_zero. reflexivity.
Qed.

(** *** Concrete instances *)

Lemma run_of_one_pass :
  run [1%nat; 1%nat]
    (fun _ _ _ _ => [(1, 0)])
    (fun _ _ _ _ _ => [])
    (fun _ _ _ _ _ => [])
    (fun _ _ _ _ _ => [])
    (fun _ _ _ _ _ _ => [])
    (fun _ _ _ _ _ _ => [])
    (fun selfEnergy => selfEnergy)
    (fun _ _ => [(2, 0)])
    (construct (1 / 2))
  = Ok (afterOnePass, []).
Proof.
  unfold run, calculateBareGreensFunction.
  destruct (decide _) as [_|Hn]; [|contradiction].
  rewrite bind_Ok. cbv zeta.
  match goal with
  | |- mainLoop _ _ _ _ _ _ _ _ ?n _ = _ => change n with 1%nat
  end.
  rewrite mainLoop_one_pass; [reflexivity|].
  simpl. lra.
Qed.

Lemma run_notifies_observer_once_per_stage_witness :
  state afterOnePass = GreensFunctionCalculated
  /\ sameSettings (construct (1 / 2)) afterOnePass
  /\ map state []
     = if callback (construct (1 / 2))
       then GreensFunctionCalculated
            :: concat (replicate (passes (construct (1 / 2))) stages)
       else [].
Proof.
  apply (run_notifies_observer_once_per_stage
           [1%nat; 1%nat]
           (fun _ _ _ _ => [(1, 0)])
           (fun _ _ _ _ _ => [])
           (fun _ _ _ _ _ => [])
           (fun _ _ _ _ _ => [])
           (fun _ _ _ _ _ _ => [])
           (fun _ _ _ _ _ _ => [])
           (fun selfEnergy => selfEnergy)
           (fun _ _ => [(2, 0)])
           (construct (1 / 2)) afterOnePass []).
  exact run_of_one_pass.
Defined.

Lemma run_leaves_one_consistent_pass_witness :
  consistent
    (fun _ _ _ _ _ => [])
    (fun _ _ _ _ _ => [])
    (fun _ _ _ _ _ => [])
    (fun _ _ _ _ _ _ => [])
    (fun _ _ _ _ _ _ => [])
    (fun selfEnergy => selfEnergy)
    (fun _ _ => [(2, 0)])
    afterOnePass
  /\ greensFunction0 afterOnePass
     = (fun _ _ _ _ => [(1, 0)])
         (lowerFermionicMatsubaraEnergyIndex (construct (1 / 2)))
         (upperFermionicMatsubaraEnergyIndex (construct (1 / 2)))
         (lowerBosonicMatsubaraEnergyIndex (construct (1 / 2)))
         (upperBosonicMatsubaraEnergyIndex (construct (1 / 2))).
Proof.
  apply (run_leaves_one_consistent_pass
           [1%nat; 1%nat]
           (fun _ _ _ _ => [(1, 0)])
           (fun _ _ _ _ _ => [])
           (fun _ _ _ _ _ => [])
           (fun _ _ _ _ _ => [])
           (fun _ _ _ _ _ _ => [])
           (fun _ _ _ _ _ _ => [])
           (fun selfEnergy => selfEnergy)
           (fun _ _ => [(2, 0)])
           (construct (1 / 2)) afterOnePass []).
  - simpl. lia.
  - exact run_of_one_pass.
Defined.

Lemma max_norm_vanishes_iff_unchanged_witness :
  exists value,
    calculateConvergenceParameter afterOnePass
    = Ok (set_convergenceParameter value afterOnePass)
    /\ 0 <= value
    /\ (value = 0
        <-> oldGreensFunction afterOnePass = greensFunction afterOnePass).
Proof.
  apply (max_norm_vanishes_iff_unchanged afterOnePass).
  - reflexivity.
  - reflexivity.
  - exists (1, 0). split; [now left|]. intros [= H]. lra.
Defined.

End FLEX.

(** ** StateTreeNode *)

Module StateTree.

Local Open Scope R_scope.

(** The extent of a state: a [double] that is either a real number or
    [+infinity]. *)
Inductive Extent : Type :=
| Finite (r : R)
| Infinite.

(** Modelled from the spec: AbstractState is declared in a header that is
    not among the sources at hand. A state has coordinates in a coordinate
    space and an extent; it is local when the extent is finite and extended
    (non-local) otherwise, which is what [hasFiniteExtent] tells. The tree
    stores pointers to states: [address] is the identity of the object. *)
Record AbstractState : Type := {
  address : nat;
  coordinates : list R;
  extent : Extent
}.

Definition hasFiniteExtent (state : AbstractState) : bool :=
  match extent state with
  | Finite _ => true
  | Infinite => false
  end.

#[local] Unset Elimination Schemes.

(** The data members of a node. *)
Inductive StateTreeNode : Type :=
| Node (center : list R) (halfSize : R) (maxDepth : Z)
       (numSpacePartitions : Z) (stateTreeNodes : list StateTreeNode)
       (states : list AbstractState).

#[local] Set Elimination Schemes.

Definition center (node : StateTreeNode) : list R :=
  let 'Node c _ _ _ _ _ := node in c.
Definition halfSize (node : StateTreeNode) : R :=
  let 'Node _ h _ _ _ _ := node in h.
Definition maxDepth (node : StateTreeNode) : Z :=
  let 'Node _ _ d _ _ _ := node in d.
Definition numSpacePartitions (node : StateTreeNode) : Z :=
  let 'Node _ _ _ n _ _ := node in n.
Definition stateTreeNodes (node : StateTreeNode) : list StateTreeNode :=
  let 'Node _ _ _ _ ch _ := node in ch.
Definition states (node : StateTreeNode) : list AbstractState :=
  let 'Node _ _ _ _ _ st := node in st.

(** The induction principle: a property holds of a node when it holds of
    its children. *)
Fixpoint StateTreeNode_ind (P : StateTreeNode -> Prop)
    (step : forall center halfSize maxDepth partitions children held,
        Forall P children ->
        P (Node center halfSize maxDepth partitions children held))
    (node : StateTreeNode) {struct node} : P node :=
  match node with
  | Node center halfSize maxDepth partitions children held =>
      step center halfSize maxDepth partitions children held
        ((fix all (l : list StateTreeNode) : Forall P l :=
            match l with
            | [] => List.Forall_nil P
            | child :: rest =>
                @List.Forall_cons _ P child rest
                  (StateTreeNode_ind P step child) (all rest)
            end) children)
  end.

(** The constructors from a center, given as initializer list or as
    vector: [numSpacePartitions(pow(2, center.size()))] reads the
    parameter [center]. *)
Definition StateTreeNode_new (center : list R) (halfSize : R) (maxDepth : Z)
    : StateTreeNode :=
  Node center halfSize maxDepth (2 ^ Z.of_nat (length center)) [] [].

(** The coordinates of the state relative to the center of the node. *)
Definition relativeCoordinates (stateCoordinates center : list R)
    : Result (list R) :=
  forRange 0 (length center)
    (fun n relative =>
       do x <- vec_at stateCoordinates n;
       do c <- vec_at center n;
       Ok (relative ++ [x - c]))
    [].

Definition largestRelativeCoordinate (relative : list R) : R :=
  fold_left
    (fun largest r => if Rlt_dec largest (Rabs r) then Rabs r else largest)
    relative 0.

(** The center of child [n]:
    [center.at(c) + ((n/(1 << c))%2 - 1/2.)*halfSize] for every [c]. *)
Definition subCenter (center : list R) (halfSize : R) (n : Z) : list R :=
  imap (fun c x => x + (IZR ((n / 2 ^ Z.of_nat c) mod 2) - 1 / 2) * halfSize)
       center.

(** The loop [for(int n = 0; n < numSpacePartitions; n++)] that creates
    the child nodes. *)
Definition createChildren (node : StateTreeNode) : list StateTreeNode :=
  map (fun n =>
         StateTreeNode_new (subCenter (center node) (halfSize node) (Z.of_nat n))
           (halfSize node / 2) (maxDepth node - 1))
      (seq 0 (Z.to_nat (numSpacePartitions node))).

(** The loop that offers the state to the children in turn and stops at
    the first that takes it. *)
Fixpoint tryChildren (try : StateTreeNode -> Result (StateTreeNode * bool))
    (children : list StateTreeNode) : Result (list StateTreeNode * bool) :=
  match children with
  | [] => Ok ([], false)
  | child :: rest =>
      do '(child', added) <- try child;
      if added : bool then Ok (child' :: rest, true)
      else
        do '(rest', added') <- tryChildren try rest;
        Ok (child' :: rest', added')
  end.

(** [addRecursive]: the node after the call, and the returned flag. The
    recursion descends one generation per level; [fuel] bounds the number
    of levels. *)
Fixpoint addRecursive (fuel : nat) (state : AbstractState)
    (node : StateTreeNode) {struct fuel} : Result (StateTreeNode * bool) :=
  match fuel with
  | O => Fail FuelExhausted
  | S fuel' =>
      let 'Node center halfSize maxDepth partitions children states := node in
      match extent state with
      | Infinite =>
          Ok (Node center halfSize maxDepth partitions children
                (states ++ [state]), true)
      | Finite stateExtent =>
          do relative <- relativeCoordinates (coordinates state) center;
          if Rgt_dec (largestRelativeCoordinate relative + stateExtent) halfSize
          then Ok (node, false)
          else if (maxDepth =? 0)%Z then
            Ok (Node center halfSize maxDepth partitions children
                  (states ++ [state]), true)
          else
            let children1 :=
              match children with
              | [] => createChildren node
              | _ :: _ => children
              end in
            do '(children2, added) <-
              tryChildren (addRecursive fuel' state) children1;
            if added : bool then
              Ok (Node center halfSize maxDepth partitions children2 states,
                  true)
            else
              Ok (Node center halfSize maxDepth partitions children2
                    (states ++ [state]), true)
      end
  end.

Definition incompatibleDimensions : string := "Incompatible dimenstions.".
Definition unableToAdd : string := "Unable to add state to state tree.".

(** [add]. The messages are kept without the values streamed into
    them. *)
Definition add (fuel : nat) (state : AbstractState) (node : StateTreeNode)
    : Result StateTreeNode :=
  if decide (length (coordinates state) = length (center node)) then
    do '(node', added) <- addRecursive fuel state node;
    if added : bool then Ok node'
    else Fail (TBTKExit "StateTreeNode::add()" unableToAdd)
  else Fail (TBTKAssertFailed "StateTreeNode::add()" incompatibleDimensions).

(** [for(n = 0; n < states.size(); n++) add(states.at(n))]. *)
Fixpoint addAll (fuel : nat) (states : list AbstractState)
    (node : StateTreeNode) : Result StateTreeNode :=
  match states with
  | [] => Ok node
  | state :: rest =>
      do node' <- add fuel state node;
      addAll fuel rest node'
  end.

(** The first state with finite extent, from position [n] on: its
    position and its extent. *)
Fixpoint firstFinite (states : list AbstractState) (n : nat)
    : option (nat * AbstractState * R) :=
  match states with
  | [] => None
  | state :: rest =>
      match extent state with
      | Finite e => Some (n, state, e)
      | Infinite => firstFinite rest (S n)
      end
  end.

Definition differentDimensions : string :=
  "Unable to handle StateSets containing states with different dimensions.".

(** The loop around the assertion of the StateSet constructor. The
    asserted expression is the assignment
    [numCoordinates = states.at(n)->getCoordinates().size()], whose value
    is the assigned size: it fails when that size is zero. *)
Definition dimensionCheck (states : list AbstractState) (numCoordinates : nat)
    : Result nat :=
  forRange 1 (length states - 1)
    (fun n numCoordinates =>
       do state <- vec_at states n;
       let numCoordinates' := length (coordinates state) in
       if decide (numCoordinates' = 0%nat) then
         Fail (TBTKAssertFailed "StateTreeNode::StateTreeNode()"
                 differentDimensions)
       else Ok numCoordinates')
    numCoordinates.

(** The bounding box: the vectors [min] and [max]. The differences
    [x - e] and sums [x + e] are those of the reals; the code rounds each
    of them to a [double]. *)
Definition initialBox (states : list AbstractState) (numCoordinates : nat)
    : Result (nat * (list R * list R)) :=
  match firstFinite states 0 with
  | Some (n, state, e) =>
      do box <- forRange 0 numCoordinates
                  (fun c box =>
                     do x <- vec_at (coordinates state) c;
                     Ok (fst box ++ [x - e], snd box ++ [x + e]))
                  ([], []);
      Ok (n, box)
  | None =>
      do first <- vec_at states 0;
      Ok (length states,
          (replicate (length (coordinates first)) 0,
           replicate (length (coordinates first)) 0))
  end.

Definition growBox (states : list AbstractState) (numCoordinates : nat)
    (n : nat) (box : list R * list R) : Result (list R * list R) :=
  forRange n (length states - n)
    (fun n box =>
       do state <- vec_at states n;
       match extent state with
       | Infinite => Ok box
       | Finite e =>
           forRange 0 numCoordinates
             (fun c box =>
                do lower <- vec_at (fst box) c;
                do x <- vec_at (coordinates state) c;
                do min' <- (if Rgt_dec lower (x - e)
                            then vec_set (fst box) c (x - e)
                            else Ok (fst box));
                do upper <- vec_at (snd box) c;
                do max' <- (if Rlt_dec upper (x + e)
                            then vec_set (snd box) c (x + e)
                            else Ok (snd box));
                Ok (min', max'))
             box
       end)
    box.

(** The center and the half size of the box. The sums, differences and
    halves are those of the reals; the code rounds each of them to a
    [double], so that the box it arrives at can miss, by a rounding step,
    a state the box was computed from. Whether a state fits the box is
    decided by [add]. *)
Definition centerAndHalfSize (numCoordinates : nat) (box : list R * list R)
    : Result (list R * R) :=
  forRange 0 numCoordinates
    (fun n acc =>
       do lower <- vec_at (fst box) n;
       do upper <- vec_at (snd box) n;
       Ok (fst acc ++ [(lower + upper) / 2],
           if Rlt_dec (snd acc) ((upper - lower) / 2)
           then (upper - lower) / 2 else snd acc))
    ([], 0).

(** The root the StateSet constructor has set up when it starts to add the
    states. Its initializer [numSpacePartitions(pow(2, center.size()))]
    reads the member [center], which at that point is the empty vector it
    was default-constructed as (the members are taken to be declared with
    [center] before [numSpacePartitions]: the header is not among the
    sources at hand). *)
Definition StateSetRoot (states : list AbstractState) (maxDepth : Z)
    : Result StateTreeNode :=
  let partitions := (2 ^ Z.of_nat (length (@nil R)))%Z in
  do first <- vec_at states 0;
  do numCoordinates <- dimensionCheck states (length (coordinates first));
  do '(n, box0) <- initialBox states numCoordinates;
  do box <- growBox states numCoordinates n box0;
  do '(center, halfSize) <- centerAndHalfSize numCoordinates box;
  Ok (Node center halfSize maxDepth partitions [] []).

(** The constructor from a StateSet. *)
Definition StateTreeNode_fromStateSet (fuel : nat)
    (states : list AbstractState) (maxDepth : Z) : Result StateTreeNode :=
  do root <- StateSetRoot states maxDepth;
  addAll fuel states root.

(** [sqrt] of the sum of [pow(a.at(n) - b.at(n), 2)] over [n < count]. *)
Definition distance (a b : list R) (count : nat) : Result R :=
  do sum <- forRange 0 count
              (fun n sum =>
                 do x <- vec_at a n;
                 do y <- vec_at b n;
                 Ok (sum + (x - y) ^ 2))
              0;
  Ok (sqrt sum).

(** [distance < extent + state->getExtent()], where the extent of a
    non-local state is [+infinity]. *)
Definition overlaps (d queryExtent : R) (state : AbstractState) : bool :=
  match extent state with
  | Finite e => if Rlt_dec d (queryExtent + e) then true else false
  | Infinite => true
  end.

(** The loop over the states held by a node. *)
Fixpoint collectOverlapping (held : list AbstractState)
    (overlappingStates : list AbstractState) (coordinates0 : list R)
    (queryExtent : R) : Result (list AbstractState) :=
  match held with
  | [] => Ok overlappingStates
  | state :: rest =>
      do d <- distance coordinates0 (coordinates state) (length coordinates0);
      collectOverlapping rest
        (if overlaps d queryExtent state then overlappingStates ++ [state]
         else overlappingStates)
        coordinates0 queryExtent
  end.

(** The loop over the child nodes; [query] is the recursive call. *)
Definition descend
    (query : StateTreeNode -> list AbstractState -> Result (list AbstractState))
    : list StateTreeNode -> list AbstractState -> Result (list AbstractState) :=
  fix loop (children : list StateTreeNode)
      (overlappingStates : list AbstractState) :=
    match children with
    | [] => Ok overlappingStates
    | child :: rest =>
        do found <- query child overlappingStates;
        loop rest found
    end.

(** [getOverlappingStatesRecursive]. *)
Fixpoint getOverlappingStatesRecursive (node : StateTreeNode)
    (overlappingStates : list AbstractState) (coordinates0 : list R)
    (queryExtent : R) {struct node} : Result (list AbstractState) :=
  let 'Node center halfSize _ _ children held := node in
  do d <- distance coordinates0 center (length center);
  if Rgt_dec d (sqrt (INR (length center) * halfSize ^ 2) + queryExtent)
  then Ok overlappingStates
  else
    do found <- collectOverlapping held overlappingStates coordinates0
                  queryExtent;
    descend
      (fun child overlappingStates =>
         getOverlappingStatesRecursive child overlappingStates coordinates0
           queryExtent)
      children found.

(** [getOverlappingStates]. *)
Definition getOverlappingStates (node : StateTreeNode)
    (coordinates0 : list R) (queryExtent : R) : Result (list AbstractState) :=
  if decide (length coordinates0 = length (center node)) then
    getOverlappingStatesRecursive node [] coordinates0 queryExtent
  else Fail (TBTKAssertFailed "StateTreeNode::getOverlappingStates"
               incompatibleDimensions).

(** *** Notions used in the statements *)

(** The sum of the squared coordinate differences of two points. *)
Definition sumSquares (a b : list R) : R :=
  fold_right Rplus 0 (zip_with (fun x y => (x - y) ^ 2) a b).

(** Every coordinate of the point is within [h] of the center [c]. *)
Definition withinBox (coords c : list R) (h : R) : Prop :=
  forall i x y, coords !! i = Some x -> c !! i = Some y -> Rabs (x - y) <= h.

#[local] Unset Elimination Schemes.

(** All centers and all stored states have dimension [D]. *)
Inductive Shaped (D : nat) : StateTreeNode -> Prop :=
| Shaped_node c h md nsp children held :
    length c = D ->
    Forall (fun s => length (coordinates s) = D) held ->
    Forall (Shaped D) children ->
    Shaped D (Node c h md nsp children held).

(** The depth budget is not negative and goes down by one per
    generation. *)
Inductive Depths : StateTreeNode -> Prop :=
| Depths_node c h md nsp children held :
    (0 <= md)%Z ->
    Forall (fun child => maxDepth child = (md - 1)%Z) children ->
    Forall Depths children ->
    Depths (Node c h md nsp children held).

#[local] Set Elimination Schemes.

(** The state is held by a node of the tree, and lies within the box of
    that node and of all its ancestors. *)
Inductive Stored (s : AbstractState) : StateTreeNode -> Prop :=
| Stored_here c h md nsp children held :
    In s held ->
    withinBox (coordinates s) c h ->
    Stored s (Node c h md nsp children held)
| Stored_below c h md nsp children held child :
    In child children ->
    withinBox (coordinates s) c h ->
    Stored s child ->
    Stored s (Node c h md nsp children held).

(** In every coordinate, the interval the extent covers around the state
    lies within the interval the box covers around the center. *)
Definition contained (coords : list R) (e : R) (node : StateTreeNode) : Prop :=
  forall i x c,
    coords !! i = Some x -> center node !! i = Some c ->
    c - halfSize node <= x - e /\ x + e <= c + halfSize node.

(** The extent sphere of the state, all points within distance [e] of
    its coordinates, lies in the bounding hypercube of the node. *)
Definition sphereContained (coords : list R) (e : R) (node : StateTreeNode)
    : Prop :=
  forall y,
    length y = length coords ->
    sqrt (sumSquares y coords) <= e ->
    withinBox y (center node) (halfSize node).

(** A node either has no children or as many as [numSpacePartitions]
    says. *)
Definition childrenCounted (node : StateTreeNode) : Prop :=
  stateTreeNodes node = []
  \/ length (stateTreeNodes node) = Z.to_nat (numSpacePartitions node).

(** The outcome is one the program can have: the recursion budget of the
    model was not what stopped it. *)
Definition Ended {A : Type} (r : Result A) : Prop := r <> Fail FuelExhausted.

(** A point state at the origin, and a state of extent 1 there. *)
Definition pointState : AbstractState :=
  {| address := 0; coordinates := [0]; extent := Finite 0 |}.

Definition unitState : AbstractState :=
  {| address := 1; coordinates := [0]; extent := Finite 1 |}.

(** A state of extent 2 does not fit the box of half size 1. *)
Definition largeState : AbstractState :=
  {| address := 2; coordinates := [0]; extent := Finite 2 |}.

(** A second state, in the plane. *)
Definition planeState : AbstractState :=
  {| address := 3; coordinates := [0; 0]; extent := Finite 1 |}.

(** A non-local state at the origin of the line. *)
Definition waveState : AbstractState :=
  {| address := 4; coordinates := [0]; extent := Infinite |}.

(** A non-local state at the origin of the plane. *)
Definition planeWaveState : AbstractState :=
  {| address := 5; coordinates := [0; 0]; extent := Infinite |}.

(** The states a tree holds: those of the node, then those of its
    children, in the order in which a query visits them. *)
Fixpoint allStates (node : StateTreeNode) : list AbstractState :=
  let 'Node _ _ _ _ children held := node in
  held ++ concat (map allStates children).

(** The number of generations below a node. *)
Fixpoint height (node : StateTreeNode) : nat :=
  let 'Node _ _ _ _ children _ := node in
  fold_right (fun child deepest => Nat.max (S (height child)) deepest) 0%nat
    children.

(** The test [distance < extent + state->getExtent()] of a query at
    [coords] with extent [queryExtent], for states of the dimension of the
    query. *)
Definition overlapping (coords : list R) (queryExtent : R)
    (s : AbstractState) : bool :=
  overlaps (sqrt (sumSquares coords (coordinates s))) queryExtent s.

(** A local state of extent at least 0 whose extent interval lies, in
    every coordinate, within the box of the node. *)
Definition fits (s : AbstractState) (node : StateTreeNode) : Prop :=
  exists e, extent s = Finite e /\ 0 <= e /\ contained (coordinates s) e node.

#[local] Unset Elimination Schemes.

(** Every state held at or below a node fits the box of the node, and
    the same holds of every node below. *)
Inductive Boxed : StateTreeNode -> Prop :=
| Boxed_node c h md nsp children held :
    Forall (fun s => fits s (Node c h md nsp children held))
           (allStates (Node c h md nsp children held)) ->
    Forall Boxed children ->
    Boxed (Node c h md nsp children held).

#[local] Set Elimination Schemes.

(** The same for a root, which may in addition hold non-local states. *)
Definition BoxedRoot (node : StateTreeNode) : Prop :=
  Forall (fun s => extent s = Infinite \/ fits s node) (allStates node)
  /\ Forall Boxed (stateTreeNodes node).

(** The sum of the products [(a_n - b_n)(b_n - c_n)]. *)
Definition crossSum (a b c : list R) : R :=
  fold_right Rplus 0
    (zip_with (fun p z => (fst p - snd p) * (snd p - z)) (zip a b) c).

(** The query for an extent that is [+infinity], as the extent of a
    non-local state is: no node is passed by, since no distance exceeds a
    sum with [+infinity], and every state is taken, since every distance is
    below one; the distances are computed all the same. *)
Fixpoint collectEvery (held : list AbstractState)
    (overlappingStates : list AbstractState) (coordinates0 : list R)
    : Result (list AbstractState) :=
  match held with
  | [] => Ok overlappingStates
  | state :: rest =>
      do d <- distance coordinates0 (coordinates state) (length coordinates0);
      collectEvery rest (overlappingStates ++ [state]) coordinates0
  end.

Fixpoint getEveryStateRecursive (node : StateTreeNode)
    (overlappingStates : list AbstractState) (coordinates0 : list R)
    {struct node} : Result (list AbstractState) :=
  let 'Node center _ _ _ children held := node in
  do d <- distance coordinates0 center (length center);
  do found <- collectEvery held overlappingStates coordinates0;
  descend
    (fun child overlappingStates =>
       getEveryStateRecursive child overlappingStates coordinates0)
    children found.

(** [getOverlappingStates] for an extent that may be [+infinity]. *)
Definition getOverlappingStatesOf (node : StateTreeNode)
    (coordinates0 : list R) (queryExtent : Extent)
    : Result (list AbstractState) :=
  match queryExtent with
  | Finite q => getOverlappingStates node coordinates0 q
  | Infinite =>
      if decide (length coordinates0 = length (center node)) then
        getEveryStateRecursive node [] coordinates0
      else Fail (TBTKAssertFailed "StateTreeNode::getOverlappingStates"
                   incompatibleDimensions)
  end.

(** *** The loops over coordinates *)

Lemma relativeCoordinates_loop (coords c : list R) :
  forall (count n : nat) (relative : list R),
    (n + count)%nat = length c ->
    length coords = length c ->
    forRange n count
      (fun n relative =>
         do x <- vec_at coords n;
         do y <- vec_at c n;
         Ok (relative ++ [x - y]))
      relative
    = Ok (relative ++ zip_with Rminus (drop n coords) (drop n c)).
Proof.
  induction count as [|count IH]; intros n relative Hn Hlen.
  - simpl. rewrite (drop_ge coords) by lia. simpl. now rewrite app_nil_r.
  - destruct (lookup_lt_is_Some_2 coords n ltac:(lia)) as [x Hx].
    destruct (lookup_lt_is_Some_2 c n ltac:(lia)) as [y Hy].
    rewrite forRange_S, (vec_at_Some _ _ _ Hx), bind_Ok,
      (vec_at_Some _ _ _ Hy), !bind_Ok.
    rewrite IH by lia.
    rewrite (drop_S _ _ _ Hx), (drop_S _ _ _ Hy). simpl.
    now rewrite <- app_assoc.
Qed.

Lemma relativeCoordinates_Ok (coords c : list R) :
  length coords = length c ->
  relativeCoordinates coords c = Ok (zip_with Rminus coords c).
Proof.
  intros Hlen. unfold relativeCoordinates.
  rewrite relativeCoordinates_loop by lia. now rewrite !drop_0.
Qed.

Lemma largest_fold_ge (relative : list R) :
  forall (start : R),
    start <= fold_left
               (fun largest r =>
                  if Rlt_dec largest (Rabs r) then Rabs r else largest)
               relative start
    /\ Forall (fun r =>
                 Rabs r <= fold_left
                             (fun largest r =>
                                if Rlt_dec largest (Rabs r) then Rabs r
                                else largest)
                             relative start) relative.
Proof.
  induction relative as [|r rest IH]; intros start; simpl.
  - split; [lra | constructor].
  - destruct (Rlt_dec start (Rabs r)) as [Hlt|Hge].
    + destruct (IH (Rabs r)) as [H1 H2].
      split; [lra|]. constructor; assumption.
    + destruct (IH start) as [H1 H2].
      split; [lra|]. constructor; [lra | assumption].
Qed.

Lemma largest_fold_attained (relative : list R) :
  forall (start : R),
    fold_left
      (fun largest r => if Rlt_dec largest (Rabs r) then Rabs r else largest)
      relative start = start
    \/ Exists (fun r =>
                 fold_left
                   (fun largest r =>
                      if Rlt_dec largest (Rabs r) then Rabs r else largest)
                   relative start = Rabs r) relative.
Proof.
  induction relative as [|r rest IH]; intros start; simpl; [now left|].
  destruct (Rlt_dec start (Rabs r)) as [Hlt|Hge].
  - destruct (IH (Rabs r)) as [H|H].
    + right. now constructor 1.
    + right. now constructor 2.
  - destruct (IH start) as [H|H]; [now left | right; now constructor 2].
Qed.

Lemma largest_ge (relative : list R) (r : R) :
  In r relative -> Rabs r <= largestRelativeCoordinate relative.
Proof.
  intros Hin. destruct (largest_fold_ge relative 0) as [_ Hall].
  rewrite Forall_forall in Hall. apply Hall.
  now apply list_elem_of_In.
Qed.

Lemma largest_nonneg (relative : list R) :
  0 <= largestRelativeCoordinate relative.
Proof. apply (largest_fold_ge relative 0). Qed.

(** Unless there are no coordinates at all, the largest relative
    coordinate is the absolute value of one of them. *)
Lemma largest_attained (relative : list R) :
  relative <> [] ->
  exists r, In r relative /\ largestRelativeCoordinate relative = Rabs r.
Proof.
  intros Hne. destruct (largest_fold_attained relative 0) as [H0|Hex].
  - destruct relative as [|r rest]; [contradiction|].
    exists r. split; [now left|].
    pose proof (largest_ge (r :: rest) r ltac:(now left)) as Hge.
    unfold largestRelativeCoordinate in *.
    pose proof (Rabs_pos r). lra.
  - apply Exists_exists in Hex as (r & Hin & Hr).
    exists r. split; [now apply list_elem_of_In | exact Hr].
Qed.

Lemma distance_loop (a b : list R) :
  forall (count n : nat) (sum : R),
    (n + count)%nat = length a ->
    length a = length b ->
    forRange n count
      (fun n sum =>
         do x <- vec_at a n;
         do y <- vec_at b n;
         Ok (sum + (x - y) ^ 2))
      sum
    = Ok (sum + sumSquares (drop n a) (drop n b)).
Proof.
  induction count as [|count IH]; intros n sum Hn Hlen.
  - simpl. rewrite (drop_ge a) by lia. unfold sumSquares. simpl.
    f_equal. lra.
  - destruct (lookup_lt_is_Some_2 a n ltac:(lia)) as [x Hx].
    destruct (lookup_lt_is_Some_2 b n ltac:(lia)) as [y Hy].
    rewrite forRange_S, (vec_at_Some _ _ _ Hx), bind_Ok,
      (vec_at_Some _ _ _ Hy), !bind_Ok.
    rewrite IH by lia.
    rewrite (drop_S _ _ _ Hx), (drop_S _ _ _ Hy).
    unfold sumSquares. simpl. f_equal. lra.
Qed.

Lemma distance_Ok (a b : list R) :
  length a = length b ->
  distance a b (length a) = Ok (sqrt (sumSquares a b)).
Proof.
  intros Hlen. unfold distance.
  rewrite distance_loop by lia. rewrite bind_Ok, !drop_0.
  do 2 f_equal. lra.
Qed.

Lemma distance_Ok_r (a b : list R) :
  length a = length b ->
  distance a b (length b) = Ok (sqrt (sumSquares a b)).
Proof. intros Hlen. rewrite <- Hlen. now apply distance_Ok. Qed.

Lemma sumSquares_self (a : list R) : sumSquares a a = 0.
Proof.
  induction a as [|x a IH]; [reflexivity|].
  change (sumSquares (x :: a) (x :: a)) with ((x - x) ^ 2 + sumSquares a a).
  rewrite IH. lra.
Qed.

Lemma sumSquares_nonneg (a b : list R) : 0 <= sumSquares a b.
Proof.
  revert b.
  induction a as [|x a IH]; intros [|y b]; try (unfold sumSquares; simpl; lra).
  change (sumSquares (x :: a) (y :: b)) with ((x - y) ^ 2 + sumSquares a b).
  specialize (IH b). pose proof (pow2_ge_0 (x - y)). lra.
Qed.

(** Inside the box, the distance to the center is at most the half
    diagonal. *)
Lemma sumSquares_in_box (a b : list R) (h : R) :
  length a = length b ->
  (forall i x y, a !! i = Some x -> b !! i = Some y -> Rabs (x - y) <= h) ->
  sumSquares a b <= INR (length a) * h ^ 2.
Proof.
  revert b.
  induction a as [|x a IH]; intros [|y b] Hlen Hbox; simpl in Hlen;
    try discriminate.
  - unfold sumSquares. simpl. lra.
  - change (length (x :: a)) with (S (length a)). rewrite S_INR.
    change (sumSquares (x :: a) (y :: b)) with ((x - y) ^ 2 + sumSquares a b).
    assert (Hx : Rabs (x - y) <= h) by (apply (Hbox 0%nat); reflexivity).
    assert (Hrest : sumSquares a b <= INR (length a) * h ^ 2).
    { apply IH; [lia|]. intros i x' y' Hx' Hy'.
      apply (Hbox (S i)); assumption. }
    assert (Hsq : (x - y) ^ 2 <= h ^ 2).
    { rewrite <- (pow2_abs (x - y)).
      pose proof (Rabs_pos (x - y)).
      apply pow_incr. lra. }
    lra.
Qed.

(** *** [addRecursive] *)

Lemma tryChildren_inv (try : StateTreeNode -> Result (StateTreeNode * bool)) :
  forall (children children' : list StateTreeNode) (added : bool),
    tryChildren try children = Ok (children', added) ->
    Forall2 (fun c c' => exists b, try c = Ok (c', b) \/ c' = c)
            children children'
    /\ (added = true ->
        exists c c', In c children /\ In c' children'
                     /\ try c = Ok (c', true)).
Proof.
  induction children as [|child rest IH]; intros children' added; simpl.
  - intros [= <- <-]. split; [constructor | discriminate].
  - destruct (try child) as [[child' b]|f] eqn:Htry; simpl; [|discriminate].
    destruct b.
    + intros [= <- <-]. split.
      * constructor; [exists true; now left|].
        apply Forall2_same_length_lookup_2; [reflexivity|].
        intros i x y Hx Hy. exists false. right. congruence.
      * intros _. exists child, child'. repeat split; try now left.
        exact Htry.
    + destruct (tryChildren try rest) as [[rest' added']|f] eqn:Hrest;
        simpl; [|discriminate].
      intros [= <- <-]. destruct (IH _ _ eq_refl) as [Hall Hadd]. split.
      * constructor; [exists false; now left | exact Hall].
      * intros Hadded. destruct (Hadd Hadded) as (c & c' & Hc & Hc' & Hok).
        exists c, c'. repeat split; try now right. exact Hok.
Qed.

Lemma tryChildren_total (try : StateTreeNode -> Result (StateTreeNode * bool)) :
  forall (children : list StateTreeNode),
    Forall (fun c => exists c' b, try c = Ok (c', b)) children ->
    exists children' added, tryChildren try children = Ok (children', added).
Proof.
  induction 1 as [|child rest (child' & b & Htry) _ IH]; simpl.
  - eauto.
  - rewrite Htry. simpl. destruct b; [eauto|].
    destruct IH as (rest' & added & ->). simpl. eauto.
Qed.

(** A refusal leaves the node as it was. *)
Lemma addRecursive_false (fuel : nat) (s : AbstractState)
    (node node' : StateTreeNode) :
  addRecursive fuel s node = Ok (node', false) -> node' = node.
Proof.
  destruct fuel as [|fuel]; simpl; [discriminate|].
  destruct node as [c h md nsp children held].
  destruct (extent s) as [e|]; [|discriminate].
  destruct (relativeCoordinates (coordinates s) c) as [rel|f]; simpl;
    [|discriminate].
  destruct (Rgt_dec _ _); [now intros [= <-]|].
  destruct (md =? 0)%Z; [discriminate|].
  destruct (tryChildren _ _) as [[children2 added]|f]; simpl; [|discriminate].
  destruct added; discriminate.
Qed.

(** [addRecursive] changes neither the box nor the budget of a node. *)
Lemma addRecursive_frame (fuel : nat) (s : AbstractState)
    (node node' : StateTreeNode) (b : bool) :
  addRecursive fuel s node = Ok (node', b) ->
  center node' = center node
  /\ halfSize node' = halfSize node
  /\ maxDepth node' = maxDepth node
  /\ numSpacePartitions node' = numSpacePartitions node.
Proof.
  destruct fuel as [|fuel]; simpl; [discriminate|].
  destruct node as [c h md nsp children held].
  destruct (extent s) as [e|]; [|intros [= <- <-]; auto].
  destruct (relativeCoordinates (coordinates s) c) as [rel|f]; simpl;
    [|discriminate].
  destruct (Rgt_dec _ _); [intros [= <- <-]; auto|].
  destruct (md =? 0)%Z; [intros [= <- <-]; auto|].
  destruct (tryChildren _ _) as [[children2 added]|f]; simpl; [|discriminate].
  destruct added; intros [= <- <-]; auto.
Qed.

Lemma length_subCenter (c : list R) (h : R) (n : Z) :
  length (subCenter c h n) = length c.
Proof. unfold subCenter. apply length_imap. Qed.

Lemma createChildren_Shaped (D : nat) (node : StateTreeNode) :
  length (center node) = D -> Forall (Shaped D) (createChildren node).
Proof.
  intros Hlen. unfold createChildren. apply Forall_map, Forall_forall.
  intros n _. simpl. unfold StateTreeNode_new.
  constructor; [now rewrite length_subCenter | constructor | constructor].
Qed.

Lemma createChildren_Depths (node : StateTreeNode) :
  (0 < maxDepth node)%Z ->
  Forall Depths (createChildren node)
  /\ Forall (fun child => maxDepth child = (maxDepth node - 1)%Z)
            (createChildren node).
Proof.
  intros Hpos. unfold createChildren. split.
  - apply Forall_map, Forall_forall. intros n _. simpl.
    constructor; [lia | constructor | constructor].
  - apply Forall_map, Forall_forall. intros n _. reflexivity.
Qed.

(** When a node creates its children, it creates [numSpacePartitions] of
    them. *)
Lemma length_createChildren (node : StateTreeNode) :
  length (createChildren node) = Z.to_nat (numSpacePartitions node).
Proof. unfold createChildren. now rewrite length_map, length_seq. Qed.

Lemma addRecursive_Shaped (D : nat) (s : AbstractState) :
  length (coordinates s) = D ->
  forall (fuel : nat) (node node' : StateTreeNode) (b : bool),
    Shaped D node ->
    addRecursive fuel s node = Ok (node', b) ->
    Shaped D node'.
Proof.
  intros Hs. induction fuel as [|fuel IH]; intros node node' b Hshaped;
    simpl; [discriminate|].
  destruct Hshaped as [c h md nsp children held Hc Hheld Hchildren].
  assert (Hheld' : Forall (fun s => length (coordinates s) = D) (held ++ [s])).
  { apply Forall_app. split; [assumption | now constructor]. }
  destruct (extent s) as [e|];
    [|intros [= <- <-]; now constructor].
  destruct (relativeCoordinates (coordinates s) c) as [rel|f]; simpl;
    [|discriminate].
  destruct (Rgt_dec _ _); [intros [= <- <-]; now constructor|].
  destruct (md =? 0)%Z; [intros [= <- <-]; now constructor|].
  set (children1 := match children with
                    | [] => createChildren (Node c h md nsp children held)
                    | _ :: _ => children
                    end).
  assert (Hchildren1 : Forall (Shaped D) children1).
  { subst children1. destruct children; [|assumption].
    now apply createChildren_Shaped. }
  destruct (tryChildren _ children1) as [[children2 added]|f] eqn:Htry;
    simpl; [|discriminate].
  apply tryChildren_inv in Htry as [Hall _].
  assert (Hchildren2 : Forall (Shaped D) children2).
  { apply Forall_lookup. intros i c' Hc'.
    destruct (Forall2_lookup_r _ _ _ _ _ Hall Hc') as (c0 & Hc0 & b0 & Hrel).
    rewrite Forall_lookup in Hchildren1. specialize (Hchildren1 i c0 Hc0).
    destruct Hrel as [Hrel| ->]; [|assumption].
    eapply IH; eassumption. }
  destruct added; intros [= <- <-]; now constructor.
Qed.

(** Whatever a tree stores stays stored when a state is added. *)
Lemma addRecursive_keeps_Stored (s t : AbstractState) :
  forall (fuel : nat) (node node' : StateTreeNode) (b : bool),
    addRecursive fuel s node = Ok (node', b) ->
    Stored t node -> Stored t node'.
Proof.
  induction fuel as [|fuel IH]; intros node node' b; simpl; [discriminate|].
  destruct node as [c h md nsp children held].
  assert (Happended : Stored t (Node c h md nsp children held) ->
                      Stored t (Node c h md nsp children (held ++ [s]))).
  { intros Hst. inversion Hst; subst.
    - apply Stored_here; [apply in_or_app; now left | assumption].
    - eapply Stored_below; eassumption. }
  destruct (extent s) as [e|]; [|intros [= <- <-]; exact Happended].
  destruct (relativeCoordinates (coordinates s) c) as [rel|f]; simpl;
    [|discriminate].
  destruct (Rgt_dec _ _); [now intros [= <- <-]|].
  destruct (md =? 0)%Z; [intros [= <- <-]; exact Happended|].
  destruct (tryChildren _ _) as [[children2 added]|f] eqn:Htry;
    simpl; [|discriminate].
  apply tryChildren_inv in Htry as [Hall _].
  intros Hnode Hst.
  assert (Hmoved : forall held',
             (forall x, In x held -> In x held') ->
             Stored t (Node c h md nsp children2 held')).
  { intros held' Hsub. inversion Hst; subst.
    - apply Stored_here; [now apply Hsub | assumption].
    - destruct children as [|c0 rest]; [contradiction|].
      match goal with H : In child _ |- _ =>
        apply list_elem_of_In, list_elem_of_lookup in H as [i Hi] end.
      destruct (Forall2_lookup_l _ _ _ _ _ Hall Hi) as (c' & Hc' & b0 & Hrel).
      apply Stored_below with (child := c').
      + apply list_elem_of_In, list_elem_of_lookup. eauto.
      + assumption.
      + destruct Hrel as [Hrel| ->]; [|assumption].
        eapply IH; eassumption. }
  destruct added; injection Hnode as <- <-.
  - apply Hmoved. auto.
  - apply Hmoved. intros x Hx. apply in_or_app. now left.
Qed.

Lemma withinBox_of_check (coords c : list R) (h e : R) :
  length coords = length c ->
  0 <= e ->
  ~ largestRelativeCoordinate (zip_with Rminus coords c) + e > h ->
  withinBox coords c h.
Proof.
  intros Hlen He Hcheck i x y Hx Hy.
  assert (Hin : In (x - y) (zip_with Rminus coords c)).
  { apply list_elem_of_In, list_elem_of_lookup. exists i.
    rewrite lookup_zip_with, Hx. simpl. now rewrite Hy. }
  pose proof (largest_ge _ _ Hin). lra.
Qed.

(** A finite state that [addRecursive] has taken is stored. *)
Lemma addRecursive_stores (D : nat) (s : AbstractState) (e : R) :
  length (coordinates s) = D ->
  extent s = Finite e ->
  0 <= e ->
  forall (fuel : nat) (node node' : StateTreeNode),
    Shaped D node ->
    addRecursive fuel s node = Ok (node', true) ->
    Stored s node'.
Proof.
  intros Hs He Hpos.
  induction fuel as [|fuel IH]; intros node node' Hshaped; simpl;
    [discriminate|].
  destruct Hshaped as [c h md nsp children held Hc Hheld Hchildren].
  rewrite He. rewrite relativeCoordinates_Ok by congruence. rewrite bind_Ok.
  destruct (Rgt_dec _ _) as [|Hfits]; [discriminate|].
  assert (Hbox : withinBox (coordinates s) c h).
  { apply (withinBox_of_check _ _ _ e); [congruence | assumption | assumption]. }
  assert (Hhere : forall children',
             Stored s (Node c h md nsp children' (held ++ [s]))).
  { intros children'. apply Stored_here; [|assumption].
    apply in_or_app. right. now left. }
  destruct (md =? 0)%Z; [intros [= <-]; apply Hhere|].
  set (children1 := match children with
                    | [] => createChildren (Node c h md nsp children held)
                    | _ :: _ => children
                    end).
  assert (Hchildren1 : Forall (Shaped D) children1).
  { subst children1. destruct children; [|assumption].
    now apply createChildren_Shaped. }
  destruct (tryChildren _ children1) as [[children2 added]|f] eqn:Htry;
    simpl; [|discriminate].
  apply tryChildren_inv in Htry as [_ Hadded].
  destruct added; intros [= <-]; [|apply Hhere].
  destruct (Hadded eq_refl) as (c0 & c' & Hc0 & Hc' & Hok).
  apply Stored_below with (child := c'); [assumption | assumption |].
  apply (IH c0); [|assumption].
  rewrite Forall_forall in Hchildren1. apply Hchildren1.
  now apply list_elem_of_In.
Qed.

(** With a budget that is not negative, [addRecursive] returns once
    [fuel] exceeds the budget. *)
Lemma addRecursive_total (D : nat) (s : AbstractState) :
  length (coordinates s) = D ->
  forall (fuel : nat) (node : StateTreeNode),
    Shaped D node ->
    Depths node ->
    (Z.to_nat (maxDepth node) < fuel)%nat ->
    exists node' b,
      addRecursive fuel s node = Ok (node', b) /\ Depths node'.
Proof.
  intros Hs. induction fuel as [|fuel IH]; intros node Hshaped Hdepths Hfuel;
    [lia|].
  destruct Hshaped as [c h md nsp children held Hc Hheld Hchildren].
  inversion Hdepths as [c' h' md' nsp' ch' held' Hmd Hsteps Hdeep].
  subst c' h' md' nsp' ch' held'.
  simpl in Hfuel. simpl.
  destruct (extent s) as [e|];
    [|eexists; eexists; split; [reflexivity | now constructor]].
  rewrite relativeCoordinates_Ok by congruence. rewrite bind_Ok.
  destruct (Rgt_dec _ _);
    [eexists; eexists; split; [reflexivity | assumption]|].
  destruct (Z.eqb_spec md 0);
    [eexists; eexists; split; [reflexivity | now constructor]|].
  set (children1 := match children with
                    | [] => createChildren (Node c h md nsp children held)
                    | _ :: _ => children
                    end).
  assert (Hchildren1 : Forall (Shaped D) children1
                       /\ Forall Depths children1
                       /\ Forall (fun child => maxDepth child = (md - 1)%Z)
                                 children1).
  { subst children1. destruct children as [|c0 rest]; [|auto].
    split; [now apply createChildren_Shaped|].
    apply (createChildren_Depths (Node c h md nsp [] held)). simpl. lia. }
  destruct Hchildren1 as (Hshaped1 & Hdepths1 & Hsteps1).
  assert (Htotal : Forall (fun c0 => exists c' b,
                             addRecursive fuel s c0 = Ok (c', b)) children1).
  { apply Forall_lookup. intros i c0 Hc0.
    rewrite Forall_lookup in Hshaped1, Hdepths1, Hsteps1.
    destruct (IH c0 (Hshaped1 i c0 Hc0) (Hdepths1 i c0 Hc0))
      as (c' & b & Hok & _).
    - rewrite (Hsteps1 i c0 Hc0). lia.
    - eauto. }
  destruct (tryChildren_total _ _ Htotal) as (children2 & added & Htry).
  rewrite Htry. simpl.
  assert (Hchildren2 : Forall Depths children2
                       /\ Forall (fun child => maxDepth child = (md - 1)%Z)
                                 children2).
  { apply tryChildren_inv in Htry as [Hall _].
    rewrite Forall_lookup in Hshaped1, Hdepths1, Hsteps1.
    split; apply Forall_lookup; intros i c' Hc';
      destruct (Forall2_lookup_r _ _ _ _ _ Hall Hc') as (c0 & Hc0 & b0 & Hrel);
      (destruct Hrel as [Hrel| ->]; [|eauto]).
    - destruct (IH c0 (Hshaped1 i c0 Hc0) (Hdepths1 i c0 Hc0))
        as (c'' & b' & Hok & Hd).
      + rewrite (Hsteps1 i c0 Hc0). lia.
      + congruence.
    - apply addRecursive_frame in Hrel as (_ & _ & Hmd' & _).
      rewrite Hmd'. eauto. }
  destruct Hchildren2 as [Hdepths2 Hsteps2].
  destruct added; eexists; eexists; (split; [reflexivity | now constructor]).
Qed.

(** What the root decides: a non-local state is taken as it is; a finite
    state is refused exactly when the largest relative coordinate plus
    the extent exceeds the half size. *)
Lemma addRecursive_Infinite (fuel : nat) (s : AbstractState)
    (node : StateTreeNode) :
  extent s = Infinite ->
  addRecursive (S fuel) s node
  = Ok (Node (center node) (halfSize node) (maxDepth node)
          (numSpacePartitions node) (stateTreeNodes node)
          (states node ++ [s]), true).
Proof. intros He. destruct node. simpl. now rewrite He. Qed.

Lemma addRecursive_refuses (fuel : nat) (s : AbstractState) (e : R)
    (node : StateTreeNode) :
  extent s = Finite e ->
  length (coordinates s) = length (center node) ->
  largestRelativeCoordinate (zip_with Rminus (coordinates s) (center node)) + e
    > halfSize node ->
  addRecursive (S fuel) s node = Ok (node, false).
Proof.
  intros He Hlen Hout. destruct node as [c h md nsp children held].
  simpl in *. rewrite He, relativeCoordinates_Ok, bind_Ok by assumption.
  destruct (Rgt_dec _ _); [reflexivity | contradiction].
Qed.

Lemma addRecursive_accepts (fuel : nat) (s : AbstractState) (e : R)
    (node node' : StateTreeNode) (b : bool) :
  extent s = Finite e ->
  length (coordinates s) = length (center node) ->
  ~ largestRelativeCoordinate (zip_with Rminus (coordinates s) (center node))
      + e > halfSize node ->
  addRecursive fuel s node = Ok (node', b) ->
  b = true.
Proof.
  intros He Hlen Hin. destruct fuel as [|fuel]; [discriminate|].
  destruct node as [c h md nsp children held].
  simpl in *. rewrite He, relativeCoordinates_Ok, bind_Ok by assumption.
  destruct (Rgt_dec _ _); [contradiction|].
  destruct (md =? 0)%Z; [now intros [= _ <-]|].
  destruct (tryChildren _ _) as [[children2 added]|f]; simpl; [|discriminate].
  destruct added; now intros [= _ <-].
Qed.

(** *** [getOverlappingStatesRecursive] *)

Lemma collectOverlapping_spec (D : nat) (coords : list R) (q : R) :
  length coords = D ->
  forall (held acc : list AbstractState),
    Forall (fun s => length (coordinates s) = D) held ->
    exists found,
      collectOverlapping held acc coords q = Ok found
      /\ (forall x, In x acc -> In x found)
      /\ (forall s, In s held ->
            overlaps (sqrt (sumSquares coords (coordinates s))) q s = true ->
            In s found)
      /\ (forall x, In x found ->
            In x acc
            \/ (In x held
                /\ overlaps (sqrt (sumSquares coords (coordinates x))) q x
                   = true)).
Proof.
  intros Hlen. induction held as [|s rest IH]; intros acc Hheld; simpl.
  - exists acc. split; [reflexivity|]. split; [auto|].
    split; [contradiction | auto].
  - inversion Hheld as [|s' rest' Hs Hrest]; subst.
    rewrite distance_Ok by congruence. rewrite bind_Ok.
    destruct (IH (if overlaps (sqrt (sumSquares coords (coordinates s))) q s
                  then acc ++ [s] else acc) Hrest)
      as (found & Hrun & Hacc & Hfound & Honly).
    exists found. split; [exact Hrun|]. split; [|split].
    + intros x Hx. apply Hacc.
      destruct (overlaps _ q s); [apply in_or_app; now left | assumption].
    + intros s0 [<-|Hin] Hover.
      * apply Hacc. rewrite Hover. apply in_or_app. right. now left.
      * now apply Hfound.
    + intros x Hx. destruct (Honly x Hx) as [Hx'|[Hx' Hover]].
      * destruct (overlaps (sqrt (sumSquares coords (coordinates s))) q s)
          eqn:Hover; [|now left].
        apply in_app_or in Hx' as [Hx'|[<-|[]]]; [now left|].
        right. split; [now left | assumption].
      * right. split; [now right | assumption].
Qed.

Lemma descend_spec
    (query : StateTreeNode -> list AbstractState -> Result (list AbstractState)) :
  forall (children : list StateTreeNode),
    Forall (fun child => forall acc, exists found,
                query child acc = Ok found
                /\ (forall x, In x acc -> In x found)) children ->
    forall (acc : list AbstractState),
      exists found,
        descend query children acc = Ok found
        /\ (forall x, In x acc -> In x found)
        /\ (forall child s, In child children ->
              (forall acc', exists found',
                  query child acc' = Ok found' /\ In s found') ->
              In s found).
Proof.
  induction 1 as [|child rest Hchild _ IH]; intros acc; simpl.
  - exists acc. split; [reflexivity|]. split; [auto | contradiction].
  - destruct (Hchild acc) as (found1 & Hrun1 & Hacc1).
    rewrite Hrun1, bind_Ok.
    destruct (IH found1) as (found & Hrun & Hacc & Hfind).
    exists found. split; [exact Hrun|]. split; [auto|].
    intros child0 s [<-|Hin] Hs.
    + destruct (Hs acc) as (found' & Hrun' & Hin').
      rewrite Hrun1 in Hrun'. injection Hrun' as <-. auto.
    + eapply Hfind; eassumption.
Qed.

(** On a tree of dimension [D], a query with a point of dimension [D]
    returns, and what was found before stays in the list. *)
Lemma getOverlappingStatesRecursive_total (D : nat) (coords : list R) (q : R) :
  length coords = D ->
  forall (node : StateTreeNode),
    Shaped D node ->
    forall (acc : list AbstractState),
      exists found,
        getOverlappingStatesRecursive node acc coords q = Ok found
        /\ (forall x, In x acc -> In x found).
Proof.
  intros Hlen node.
  induction node as [c h md nsp children held IH] using StateTreeNode_ind.
  intros Hshaped acc.
  inversion Hshaped as [c' h' md' nsp' ch' held' Hc Hheld Hchildren].
  subst c' h' md' nsp' ch' held'.
  simpl. rewrite distance_Ok_r by congruence.
  rewrite bind_Ok.
  destruct (Rgt_dec _ _); [exists acc; auto|].
  destruct (collectOverlapping_spec D coords q Hlen held acc Hheld)
    as (found0 & Hrun0 & Hacc0 & _).
  rewrite Hrun0, bind_Ok.
  destruct (descend_spec
              (fun child acc =>
                 getOverlappingStatesRecursive child acc coords q)
              children) with (acc := found0) as (found & Hrun & Hacc & _).
  { apply Forall_lookup. intros i child Hchild.
    rewrite Forall_lookup in IH, Hchildren.
    exact (IH i child Hchild (Hchildren i child Hchild)). }
  exists found. split; [exact Hrun | auto].
Qed.

Lemma not_pruned (coords c : list R) (h : R) :
  length coords = length c ->
  withinBox coords c h ->
  ~ sqrt (sumSquares coords c) > sqrt (INR (length c) * h ^ 2) + 0.
Proof.
  intros Hlen Hbox Hgt.
  pose proof (sumSquares_in_box coords c h Hlen Hbox) as Hsum.
  rewrite Hlen in Hsum.
  apply sqrt_le_1_alt in Hsum. lra.
Qed.

(** A stored state of positive finite extent is found by the query at its
    own coordinates with extent 0. *)
Lemma getOverlappingStatesRecursive_finds (D : nat) (s : AbstractState)
    (e : R) :
  length (coordinates s) = D ->
  extent s = Finite e ->
  0 < e ->
  forall (node : StateTreeNode),
    Stored s node ->
    Shaped D node ->
    forall (acc : list AbstractState),
      exists found,
        getOverlappingStatesRecursive node acc (coordinates s) 0 = Ok found
        /\ In s found.
Proof.
  intros Hs He Hpos node Hstored.
  induction Hstored as [c h md nsp children held Hin Hbox
                       |c h md nsp children held child Hin Hbox Hstored IH];
    intros Hshaped acc;
    inversion Hshaped as [c' h' md' nsp' ch' held' Hc Hheld Hchildren];
    subst c' h' md' nsp' ch' held';
    simpl; rewrite distance_Ok_r by congruence; rewrite bind_Ok;
    (destruct (Rgt_dec _ _) as [Hpruned|_];
     [exfalso; revert Hpruned; apply not_pruned; [congruence | assumption]|]);
    destruct (collectOverlapping_spec D (coordinates s) 0 Hs held acc Hheld)
      as (found0 & Hrun0 & Hacc0 & Hfound0 & _);
    rewrite Hrun0, bind_Ok;
    destruct (descend_spec
                (fun child acc =>
                   getOverlappingStatesRecursive child acc (coordinates s) 0)
                children) with (acc := found0)
      as (found & Hrun & Hacc & Hfind);
    try (apply Forall_lookup; intros i child0 Hchild0;
         rewrite Forall_lookup in Hchildren;
         apply (getOverlappingStatesRecursive_total D); [assumption|];
         exact (Hchildren i child0 Hchild0));
    exists found; (split; [exact Hrun|]).
  - apply Hacc, Hfound0; [assumption|].
    rewrite sumSquares_self, sqrt_0. unfold overlaps. rewrite He.
    destruct (Rlt_dec 0 (0 + e)); [reflexivity | lra].
  - apply (Hfind child s Hin). intros acc'. apply IH.
    rewrite Forall_forall in Hchildren. apply Hchildren.
    now apply list_elem_of_In.
Qed.

(** *** [add] *)

Lemma Shaped_center (D : nat) (node : StateTreeNode) :
  Shaped D node -> length (center node) = D.
Proof. now destruct 1. Qed.

Lemma add_Ok_inv (fuel : nat) (s : AbstractState)
    (node node' : StateTreeNode) :
  add fuel s node = Ok node' ->
  length (coordinates s) = length (center node)
  /\ addRecursive fuel s node = Ok (node', true).
Proof.
  unfold add. destruct (decide _) as [Hlen|]; [|discriminate].
  destruct (addRecursive fuel s node) as [[node1 added]|f]; simpl;
    [|discriminate].
  destruct added; [|discriminate]. intros [= <-]. auto.
Qed.

Lemma addAll_spec (D : nat) (fuel : nat) :
  forall (inserted : list AbstractState) (node tree : StateTreeNode),
    Shaped D node ->
    addAll fuel inserted node = Ok tree ->
    Shaped D tree
    /\ center tree = center node
    /\ numSpacePartitions tree = numSpacePartitions node
    /\ Forall (fun s => length (coordinates s) = D) inserted
    /\ (forall t, Stored t node -> Stored t tree)
    /\ (forall s e, In s inserted -> extent s = Finite e -> 0 <= e ->
                    Stored s tree).
Proof.
  induction inserted as [|s rest IH]; intros node tree Hshaped; simpl.
  - intros [= <-]. repeat split; auto. contradiction.
  - destruct (add fuel s node) as [node1|f] eqn:Hadd; simpl; [|discriminate].
    apply add_Ok_inv in Hadd as [Hlen Hadd].
    rewrite (Shaped_center D node Hshaped) in Hlen.
    pose proof (addRecursive_Shaped D s Hlen _ _ _ _ Hshaped Hadd) as Hshaped1.
    pose proof (addRecursive_frame _ _ _ _ _ Hadd) as (Hc1 & _ & _ & Hn1).
    intros Hrest.
    destruct (IH node1 tree Hshaped1 Hrest)
      as (Hshaped' & Hc & Hn & Hdims & Hkeep & Hnew).
    split; [assumption|]. split; [congruence|]. split; [congruence|].
    split; [now constructor|]. split.
    + intros t Ht. apply Hkeep.
      eapply addRecursive_keeps_Stored; eassumption.
    + intros s0 e [<-|Hin] He Hpos.
      * apply Hkeep.
        exact (addRecursive_stores D s e Hlen He Hpos fuel node node1
                 Hshaped Hadd).
      * eapply Hnew; eassumption.
Qed.

(** The trees the center constructors set up satisfy the invariants, and
    [add] maintains them. *)
Lemma StateTreeNode_new_invariants (c : list R) (h : R) (md : Z) :
  (0 <= md)%Z ->
  Shaped (length c) (StateTreeNode_new c h md)
  /\ Depths (StateTreeNode_new c h md).
Proof.
  intros Hmd. split; constructor; try constructor; auto.
Qed.

Lemma add_invariants (D fuel : nat) (s : AbstractState)
    (node node' : StateTreeNode) :
  Shaped D node ->
  Depths node ->
  (Z.to_nat (maxDepth node) < fuel)%nat ->
  add fuel s node = Ok node' ->
  Shaped D node' /\ Depths node' /\ maxDepth node' = maxDepth node.
Proof.
  intros Hshaped Hdepths Hfuel Hadd.
  apply add_Ok_inv in Hadd as [Hlen Hadd].
  rewrite (Shaped_center D node Hshaped) in Hlen.
  destruct (addRecursive_total D s Hlen fuel node Hshaped Hdepths Hfuel)
    as (node1 & b & Hrun & Hdepths').
  rewrite Hadd in Hrun. injection Hrun as <- <-.
  split; [eapply addRecursive_Shaped; eassumption|].
  split; [assumption|].
  now apply addRecursive_frame in Hadd as (_ & _ & Hmd & _).
Qed.

(** C3, as the code has it. In a tree that was set up by either
    constructor and into which states have been inserted with success, a
    query at the coordinates of an inserted state of finite and strictly
    positive extent, with query extent 0, returns a list that contains that
    state. *)
Theorem inserted_state_with_positive_extent_is_found :
  forall (fuel : nat) (c : list R) (h : R) (md : Z)
         (inserted : list AbstractState) (tree : StateTreeNode)
         (s : AbstractState) (e : R),
    (addAll fuel inserted (StateTreeNode_new c h md) = Ok tree
     \/ StateTreeNode_fromStateSet fuel inserted md = Ok tree) ->
    In s inserted ->
    extent s = Finite e ->
    0 < e ->
    exists found,
      getOverlappingStates tree (coordinates s) 0 = Ok found /\ In s found.
Proof.
  intros fuel c h md inserted tree s e Hbuilt Hin He Hpos.
  assert (Hroot : exists root,
             addAll fuel inserted root = Ok tree
             /\ Shaped (length (center root)) root).
  { destruct Hbuilt as [Hnew|Hset].
    - exists (StateTreeNode_new c h md). split; [exact Hnew|].
      constructor; [reflexivity | constructor | constructor].
    - unfold StateTreeNode_fromStateSet in Hset.
      destruct (StateSetRoot inserted md) as [root|f] eqn:Hroot; simpl in Hset;
        [|discriminate].
      exists root. split; [exact Hset|].
      unfold StateSetRoot in Hroot.
      destruct (vec_at inserted 0) as [first|]; simpl in Hroot;
        [|discriminate].
      destruct (dimensionCheck _ _) as [numCoordinates|]; simpl in Hroot;
        [|discriminate].
      destruct (initialBox _ _) as [[n box0]|]; simpl in Hroot;
        [|discriminate].
      destruct (growBox _ _ _ _) as [box|]; simpl in Hroot; [|discriminate].
      destruct (centerAndHalfSize _ _) as [[c0 h0]|]; simpl in Hroot;
        [|discriminate].
      injection Hroot as <-.
      constructor; [reflexivity | constructor | constructor]. }
  destruct Hroot as (root & Hadd & Hshaped).
  destruct (addAll_spec _ fuel inserted root tree Hshaped Hadd)
    as (Hshaped' & Hcenter & _ & Hdims & _ & Hstored).
  assert (Hs : length (coordinates s) = length (center root)).
  { rewrite Forall_forall in Hdims. apply Hdims. now apply list_elem_of_In. }
  unfold getOverlappingStates.
  destruct (decide _) as [_|Hne]; [|exfalso; apply Hne; congruence].
  apply (getOverlappingStatesRecursive_finds (length (center root)) s e);
    try assumption.
  apply (Hstored s e); [assumption | assumption | lra].
Qed.

(** *** Containment in the box of a node *)

Lemma contained_iff_check (coords : list R) (e : R) (node : StateTreeNode) :
  length coords = length (center node) ->
  (1 <= length (center node))%nat ->
  contained coords e node
  <-> ~ largestRelativeCoordinate (zip_with Rminus coords (center node)) + e
        > halfSize node.
Proof.
  intros Hlen Hdim. split.
  - intros Hcont Hgt.
    destruct (largest_attained (zip_with Rminus coords (center node)))
      as (r & Hin & Hr).
    { intros Hnil. apply (f_equal length) in Hnil.
      rewrite length_zip_with in Hnil. simpl in Hnil. lia. }
    apply list_elem_of_In, list_elem_of_lookup in Hin as [i Hi].
    apply lookup_zip_with_Some in Hi as (x & c & -> & Hx & Hc).
    destruct (Hcont i x c Hx Hc) as [Hlow Hhigh].
    rewrite Hr in Hgt. unfold Rabs in Hgt.
    destruct (Rcase_abs (x - c)); lra.
  - intros Hcheck i x c Hx Hc.
    assert (Hin : In (x - c) (zip_with Rminus coords (center node))).
    { apply list_elem_of_In, list_elem_of_lookup. exists i.
      rewrite lookup_zip_with, Hx. simpl. now rewrite Hc. }
    pose proof (largest_ge _ _ Hin) as Hle.
    unfold Rabs in Hle. destruct (Rcase_abs (x - c)); lra.
Qed.

Lemma square_le_sumSquares (y x : list R) :
  forall i a b,
    y !! i = Some a -> x !! i = Some b -> (a - b) ^ 2 <= sumSquares y x.
Proof.
  revert x. induction y as [|a0 y IH]; intros [|b0 x] i a b Ha Hb;
    try discriminate.
  change (sumSquares (a0 :: y) (b0 :: x))
    with ((a0 - b0) ^ 2 + sumSquares y x).
  destruct i as [|i]; simpl in Ha, Hb.
  - injection Ha as ->. injection Hb as ->.
    pose proof (sumSquares_nonneg y x). lra.
  - specialize (IH x i a b Ha Hb). pose proof (pow2_ge_0 (a0 - b0)). lra.
Qed.

Lemma coordinate_le_distance (y x : list R) (i : nat) (a b : R) :
  y !! i = Some a -> x !! i = Some b ->
  Rabs (a - b) <= sqrt (sumSquares y x).
Proof.
  intros Ha Hb. rewrite <- sqrt_Rsqr_abs, Rsqr_pow2.
  apply sqrt_le_1_alt. eapply square_le_sumSquares; eassumption.
Qed.

Lemma sumSquares_insert (x : list R) :
  forall i b d,
    x !! i = Some b -> sumSquares (<[i := b + d]> x) x = d ^ 2.
Proof.
  induction x as [|b0 x IH]; intros i b d Hb; [discriminate|].
  destruct i as [|i]; simpl in Hb.
  - injection Hb as ->.
    change (sumSquares (<[0%nat := b + d]> (b :: x)) (b :: x))
      with ((b + d - b) ^ 2 + sumSquares x x).
    rewrite sumSquares_self. lra.
  - change (sumSquares (<[S i := b + d]> (b0 :: x)) (b0 :: x))
      with ((b0 - b0) ^ 2 + sumSquares (<[i := b + d]> x) x).
    rewrite (IH i b d Hb). lra.
Qed.

(** For an extent that is not negative, the sphere lies in the hypercube
    exactly when the intervals do. *)
Lemma contained_iff_sphere (coords : list R) (e : R) (node : StateTreeNode) :
  0 <= e ->
  length coords = length (center node) ->
  contained coords e node <-> sphereContained coords e node.
Proof.
  intros He Hlen. split.
  - intros Hcont y Hy Hdist i a c Ha Hc.
    destruct (lookup_lt_is_Some_2 coords i) as [b Hb].
    { apply lookup_lt_Some in Ha. lia. }
    pose proof (coordinate_le_distance y coords i a b Ha Hb) as Hab.
    destruct (Hcont i b c Hb Hc) as [Hlow Hhigh].
    revert Hab. unfold Rabs.
    destruct (Rcase_abs (a - b)), (Rcase_abs (a - c)); lra.
  - intros Hsphere i b c Hb Hc.
    assert (Hmove : forall d, Rabs d = e -> Rabs (b + d - c) <= halfSize node).
    { intros d Hd. apply (Hsphere (<[i := b + d]> coords)) with (i := i).
      - apply length_insert.
      - rewrite (sumSquares_insert coords i b d Hb).
        rewrite <- Rsqr_pow2, sqrt_Rsqr_abs. lra.
      - apply list_lookup_insert_eq. now apply lookup_lt_Some in Hb.
      - exact Hc. }
    pose proof (Hmove e ltac:(apply Rabs_right; lra)) as Hup.
    pose proof (Hmove (- e) ltac:(rewrite Rabs_Ropp; apply Rabs_right; lra))
      as Hdown.
    revert Hup Hdown. unfold Rabs.
    destruct (Rcase_abs (b + e - c)), (Rcase_abs (b + - e - c)); lra.
Qed.

(** The outcome of [add] for a state of the dimension of the tree (at
    least one), in terms of the intervals. *)
Lemma add_outcome :
  forall (D fuel : nat) (s : AbstractState) (node : StateTreeNode),
    Shaped D node ->
    Depths node ->
    length (coordinates s) = D ->
    (1 <= D)%nat ->
    (Z.to_nat (maxDepth node) < fuel)%nat ->
    (add fuel s node = Fail (TBTKExit "StateTreeNode::add()" unableToAdd)
     <-> exists e, extent s = Finite e /\ ~ contained (coordinates s) e node)
    /\ (forall f, add fuel s node = Fail f ->
                  f = TBTKExit "StateTreeNode::add()" unableToAdd)
    /\ (extent s = Infinite ->
        add fuel s node
        = Ok (Node (center node) (halfSize node) (maxDepth node)
                (numSpacePartitions node) (stateTreeNodes node)
                (states node ++ [s])))
    /\ (forall e, extent s = Finite e -> ~ contained (coordinates s) e node ->
                  addRecursive fuel s node = Ok (node, false)).
Proof.
  intros D fuel s node Hshaped Hdepths Hs Hdim Hfuel.
  pose proof (Shaped_center D node Hshaped) as Hc.
  destruct (addRecursive_total D s Hs fuel node Hshaped Hdepths Hfuel)
    as (node' & b & Hrun & _).
  assert (Hadd : add fuel s node
                 = if b then Ok node'
                   else Fail (TBTKExit "StateTreeNode::add()" unableToAdd)).
  { unfold add. destruct (decide _) as [_|Hne]; [|exfalso; apply Hne; congruence].
    now rewrite Hrun. }
  destruct fuel as [|fuel]; [lia|].
  assert (Hcheck : forall e, extent s = Finite e ->
             (contained (coordinates s) e node <-> b = true)).
  { intros e He.
    rewrite (contained_iff_check (coordinates s) e node) by (rewrite Hc; lia).
    split.
    - intros Hin. eapply addRecursive_accepts; try eassumption. congruence.
    - intros -> Hout.
      rewrite (addRecursive_refuses fuel s e node He) in Hrun
        by (assumption || congruence).
      discriminate. }
  split; [|split; [|split]].
  - rewrite Hadd. split.
    + destruct b; [discriminate|]. intros _.
      destruct (extent s) as [e|] eqn:He.
      * exists e. split; [reflexivity|]. rewrite (Hcheck e eq_refl). discriminate.
      * rewrite (addRecursive_Infinite fuel s node He) in Hrun. discriminate.
    + intros (e & He & Hout). destruct b; [|reflexivity].
      exfalso. apply Hout. now apply (Hcheck e He).
  - rewrite Hadd. destruct b; [discriminate|]. now intros f [= <-].
  - intros He. rewrite Hadd.
    rewrite (addRecursive_Infinite fuel s node He) in Hrun.
    now injection Hrun as <- <-.
  - intros e He Hout. destruct b.
    + exfalso. apply Hout. now apply (Hcheck e He).
    + apply addRecursive_false in Hrun as Heq. now rewrite Heq in Hrun.
Qed.

(** C8, as the code has it. [add] on a tree of dimension [D] (at least
    one), for a state whose extent, when finite, is not negative, fails in
    exactly two ways. It fails its dimension assertion if and only if the
    state does not have [D] coordinates, whatever its extent. It ends in
    the fatal "Unable to add state" error if and only if the state has [D]
    coordinates and a finite extent whose sphere is not contained in the
    bounding hypercube of the root. A non-local state of [D] coordinates is
    accepted and kept by the root; a state that is too large is refused
    with the tree left as it was. *)
Theorem add_fails_iff_wrong_dimension_or_not_contained :
  forall (D fuel : nat) (s : AbstractState) (node : StateTreeNode),
    Shaped D node ->
    Depths node ->
    (1 <= D)%nat ->
    (Z.to_nat (maxDepth node) < fuel)%nat ->
    (forall e, extent s = Finite e -> 0 <= e) ->
    ((exists f, add fuel s node = Fail f)
     <-> length (coordinates s) <> D
         \/ exists e, extent s = Finite e
                      /\ ~ sphereContained (coordinates s) e node)
    /\ (add fuel s node
        = Fail (TBTKAssertFailed "StateTreeNode::add()" incompatibleDimensions)
        <-> length (coordinates s) <> D)
    /\ (add fuel s node = Fail (TBTKExit "StateTreeNode::add()" unableToAdd)
        <-> length (coordinates s) = D
            /\ exists e, extent s = Finite e
                         /\ ~ sphereContained (coordinates s) e node)
    /\ (extent s = Infinite -> length (coordinates s) = D ->
        add fuel s node
        = Ok (Node (center node) (halfSize node) (maxDepth node)
                (numSpacePartitions node) (stateTreeNodes node)
                (states node ++ [s])))
    /\ (forall e, extent s = Finite e -> length (coordinates s) = D ->
                  ~ sphereContained (coordinates s) e node ->
                  addRecursive fuel s node = Ok (node, false)).
Proof.
  intros D fuel s node Hshaped Hdepths Hdim Hfuel Hextent.
  pose proof (Shaped_center D node Hshaped) as Hc.
  destruct (decide (length (coordinates s) = D)) as [Hs|Hs].
  - destruct (add_outcome D fuel s node Hshaped Hdepths Hs Hdim Hfuel)
      as (Hiff & Honly & Hinf & Hkeep).
    assert (Hsphere : forall e, extent s = Finite e ->
               (contained (coordinates s) e node
                <-> sphereContained (coordinates s) e node)).
    { intros e He. apply contained_iff_sphere; [now apply Hextent|].
      rewrite Hc. exact Hs. }
    assert (Hexit : add fuel s node
                    = Fail (TBTKExit "StateTreeNode::add()" unableToAdd)
                    <-> exists e, extent s = Finite e
                                  /\ ~ sphereContained (coordinates s) e node).
    { rewrite Hiff. split; intros (e & He & Hout); exists e;
        (split; [exact He|]); rewrite (Hsphere e He) in *; exact Hout. }
    split; [|split; [|split; [|split]]].
    + split.
      * intros (f & Hf). right. apply Hexit.
        now rewrite Hf, (Honly f Hf).
      * intros [Hne|Hout]; [contradiction|].
        eexists. now apply Hexit.
    + split; [|contradiction].
      intros Hf. pose proof (Honly _ Hf). discriminate.
    + rewrite Hexit. tauto.
    + intros He _. now apply Hinf.
    + intros e He _ Hout. apply (Hkeep e He). now rewrite (Hsphere e He).
  - assert (Hassert : add fuel s node
                      = Fail (TBTKAssertFailed "StateTreeNode::add()"
                                incompatibleDimensions)).
    { unfold add. destruct (decide _) as [Heq|_]; [|reflexivity].
      exfalso. apply Hs. congruence. }
    split; [|split; [|split; [|split]]].
    + split; [now left | intros _; eexists; exact Hassert].
    + now split.
    + rewrite Hassert. split; [discriminate | intros [Heq _]; contradiction].
    + intros _ Heq. contradiction.
    + intros e _ Heq. contradiction.
Qed.

(** *** Concrete trees *)

Ltac decide_reals :=
  repeat match goal with
         | |- context [Rlt_dec ?a ?b] =>
             destruct (Rlt_dec a b);
             [try (exfalso; lra) | try (exfalso; lra)]
         | |- context [Rgt_dec ?a ?b] =>
             destruct (Rgt_dec a b);
             [try (exfalso; lra) | try (exfalso; lra)]
         end.

Lemma largest_singleton (r : R) : largestRelativeCoordinate [r] = Rabs r.
Proof.
  unfold largestRelativeCoordinate. simpl.
  pose proof (Rabs_pos r). destruct (Rlt_dec 0 (Rabs r)); lra.
Qed.

(** A node without children: the query is the pruning test followed by
    the loop over the held states. *)
Lemma getOverlappingStatesRecursive_leaf (c : list R) (h : R) (md nsp : Z)
    (held acc : list AbstractState) (coords : list R) (q : R) :
  length coords = length c ->
  getOverlappingStatesRecursive (Node c h md nsp [] held) acc coords q
  = if Rgt_dec (sqrt (sumSquares coords c)) (sqrt (INR (length c) * h ^ 2) + q)
    then Ok acc
    else collectOverlapping held acc coords q.
Proof.
  intros Hlen. simpl. rewrite distance_Ok_r, bind_Ok by assumption.
  destruct (Rgt_dec _ _); [reflexivity|].
  destruct (collectOverlapping held acc coords q); reflexivity.
Qed.

Lemma collectOverlapping_cons (s : AbstractState) (rest acc : list AbstractState)
    (coords : list R) (q : R) :
  length coords = length (coordinates s) ->
  collectOverlapping (s :: rest) acc coords q
  = collectOverlapping rest
      (if overlaps (sqrt (sumSquares coords (coordinates s))) q s
       then acc ++ [s] else acc)
      coords q.
Proof.
  intros Hlen. simpl. now rewrite distance_Ok, bind_Ok by assumption.
Qed.

Lemma addRecursive_push_down (fuel : nat) (s : AbstractState) (e : R)
    (c : list R) (h : R) (md nsp : Z) (children : list StateTreeNode)
    (held : list AbstractState) :
  extent s = Finite e ->
  length (coordinates s) = length c ->
  ~ largestRelativeCoordinate (zip_with Rminus (coordinates s) c) + e > h ->
  md <> 0%Z ->
  addRecursive (S fuel) s (Node c h md nsp children held)
  = do '(children2, added) <-
      tryChildren (addRecursive fuel s)
        (match children with
         | [] => createChildren (Node c h md nsp children held)
         | _ :: _ => children
         end);
    if added : bool
    then Ok (Node c h md nsp children2 held, true)
    else Ok (Node c h md nsp children2 (held ++ [s]), true).
Proof.
  intros He Hlen Hin Hmd. simpl.
  rewrite He, relativeCoordinates_Ok, bind_Ok by assumption.
  destruct (Rgt_dec _ _); [contradiction|].
  destruct (Z.eqb_spec md 0); [contradiction | reflexivity].
Qed.

Lemma add_to_leaf (fuel : nat) (s : AbstractState) (e : R) (c : list R)
    (h : R) (nsp : Z) (held : list AbstractState) :
  extent s = Finite e ->
  length (coordinates s) = length c ->
  ~ largestRelativeCoordinate (zip_with Rminus (coordinates s) c) + e > h ->
  add (S fuel) s (Node c h 0 nsp [] held)
  = Ok (Node c h 0 nsp [] (held ++ [s])).
Proof.
  intros He Hlen Hin. unfold add. simpl center.
  destruct (decide _) as [_|Hne]; [|contradiction].
  simpl. rewrite He, relativeCoordinates_Ok, bind_Ok by assumption.
  destruct (Rgt_dec _ _); [contradiction | reflexivity].
Qed.

(** C3, as stated, fails for a state of extent 0: inserted with success
    into a tree around the origin, it is not in the list the query at its
    own coordinates with extent 0 returns, because the test
    [distance < extent + state->getExtent()] is strict. *)
Lemma point_state_is_not_found :
  add 1 pointState (StateTreeNode_new [0] 1 0)
  = Ok (Node [0] 1 0 2 [] [pointState])
  /\ In pointState [pointState]
  /\ getOverlappingStates (Node [0] 1 0 2 [] [pointState])
       (coordinates pointState) 0
     = Ok [].
Proof.
  split; [|split; [now left|]].
  - apply (add_to_leaf 0 pointState 0 [0] 1 2 []); [reflexivity..|].
    simpl zip_with. rewrite largest_singleton.
    rewrite Rabs_right by lra. lra.
  - unfold getOverlappingStates. simpl center. simpl coordinates.
    destruct (decide _) as [_|Hne]; [|contradiction].
    rewrite getOverlappingStatesRecursive_leaf by reflexivity.
    rewrite sumSquares_self, sqrt_0.
    pose proof (sqrt_pos (INR (length [0]) * 1 ^ 2)).
    destruct (Rgt_dec _ _); [lra|].
    rewrite collectOverlapping_cons by reflexivity.
    simpl coordinates. rewrite sumSquares_self, sqrt_0.
    unfold overlaps. simpl extent. cbv iota beta.
    decide_reals. reflexivity.
Qed.

Lemma inserted_state_with_positive_extent_is_found_witness :
  exists found,
    getOverlappingStates (Node [0] 1 0 2 [] [unitState])
      (coordinates unitState) 0 = Ok found
    /\ In unitState found.
Proof.
  apply (inserted_state_with_positive_extent_is_found 1 [0] 1 0 [unitState]
           (Node [0] 1 0 2 [] [unitState]) unitState 1).
  - left. unfold addAll.
    change (StateTreeNode_new [0] 1 0) with (Node [0] 1 0 2 [] []).
    rewrite (add_to_leaf 0 unitState 1 [0] 1 2 []); [reflexivity..|].
    simpl zip_with. rewrite largest_singleton.
    rewrite Rabs_right by lra. lra.
  - now left.
  - reflexivity.
  - lra.
Defined.

(** C8, as stated, fails: a non-local state is not always accepted. The
    non-local state in the plane is refused by a tree on the line, through
    the dimension assertion with which [add] begins. *)
Lemma nonlocal_state_of_other_dimension_is_refused :
  extent planeWaveState = Infinite
  /\ add 1 planeWaveState (StateTreeNode_new [0] 1 0)
     = Fail (TBTKAssertFailed "StateTreeNode::add()" incompatibleDimensions).
Proof.
  split; [reflexivity|]. unfold add. simpl center. simpl coordinates.
  destruct (decide _) as [Heq|_]; [discriminate | reflexivity].
Qed.

Lemma add_fails_iff_wrong_dimension_or_not_contained_witness :
  add 1 largeState (StateTreeNode_new [0] 1 0)
  = Fail (TBTKExit "StateTreeNode::add()" unableToAdd).
Proof.
  apply (add_fails_iff_wrong_dimension_or_not_contained 1 1 largeState
           (StateTreeNode_new [0] 1 0)).
  - constructor; [reflexivity | constructor | constructor].
  - constructor; [lia | constructor | constructor].
  - lia.
  - simpl. lia.
  - intros e [= <-]. lra.
  - split; [reflexivity|].
    exists 2. split; [reflexivity|].
    intros Hsphere.
    pose proof (Hsphere [2] eq_refl) as Hbox.
    assert (Hdist : sqrt (sumSquares [2] (coordinates largeState)) <= 2).
    { change (sumSquares [2] (coordinates largeState))
        with ((2 - 0) ^ 2 + 0).
      replace ((2 - 0) ^ 2 + 0) with (Rsqr 2) by (unfold Rsqr; lra).
      rewrite sqrt_Rsqr; lra. }
    specialize (Hbox Hdist 0%nat 2 0 eq_refl eq_refl).
    simpl in Hbox. rewrite Rabs_right in Hbox; lra.
Defined.

(** *** The number of children *)

Lemma tryChildren_length (try : StateTreeNode -> Result (StateTreeNode * bool))
    (children children' : list StateTreeNode) (added : bool) :
  tryChildren try children = Ok (children', added) ->
  length children' = length children.
Proof.
  intros H. apply tryChildren_inv in H as [Hall _].
  symmetry. eapply Forall2_length. exact Hall.
Qed.

Lemma addRecursive_children_count (fuel : nat) (s : AbstractState)
    (node node' : StateTreeNode) (b : bool) :
  addRecursive fuel s node = Ok (node', b) ->
  childrenCounted node -> childrenCounted node'.
Proof.
  destruct fuel as [|fuel]; simpl; [discriminate|].
  destruct node as [c h md nsp children held]. unfold childrenCounted.
  destruct (extent s) as [e|]; [|now intros [= <- <-]].
  destruct (relativeCoordinates (coordinates s) c) as [rel|f]; simpl;
    [|discriminate].
  destruct (Rgt_dec _ _); [now intros [= <- <-]|].
  destruct (md =? 0)%Z; [now intros [= <- <-]|].
  destruct (tryChildren _ _) as [[children2 added]|f] eqn:Htry;
    simpl; [|discriminate].
  apply tryChildren_length in Htry.
  intros Hnode Hcount. right.
  assert (Hlen : length children2 = Z.to_nat nsp).
  { rewrite Htry. destruct children as [|c0 rest].
    - apply length_createChildren.
    - destruct Hcount as [Hnil|Hlen]; [discriminate | exact Hlen]. }
  destruct added; injection Hnode as <- <-; exact Hlen.
Qed.

(** A node set up from a center creates [2^D] children. *)
Lemma new_node_creates_all_children (c : list R) (h : R) (md : Z) :
  length (createChildren (StateTreeNode_new c h md)) = (2 ^ length c)%nat.
Proof.
  rewrite length_createChildren. simpl.
  change 2%Z with (Z.of_nat 2). rewrite <- Nat2Z.inj_pow. apply Nat2Z.id.
Qed.

Lemma createChildren_new (node : StateTreeNode) :
  Forall (fun child =>
            numSpacePartitions child
            = (2 ^ Z.of_nat (length (center node)))%Z
            /\ stateTreeNodes child = [])
         (createChildren node).
Proof.
  unfold createChildren. apply Forall_map, Forall_forall. intros n _.
  simpl. now rewrite length_subCenter.
Qed.

Lemma StateSetRoot_fields (inserted : list AbstractState) (md : Z)
    (root : StateTreeNode) :
  StateSetRoot inserted md = Ok root ->
  numSpacePartitions root = 1%Z
  /\ stateTreeNodes root = []
  /\ states root = []
  /\ maxDepth root = md.
Proof.
  unfold StateSetRoot.
  destruct (vec_at inserted 0) as [first|]; simpl; [|discriminate].
  destruct (dimensionCheck _ _) as [numCoordinates|]; simpl; [|discriminate].
  destruct (initialBox _ _) as [[n box0]|]; simpl; [|discriminate].
  destruct (growBox _ _ _ _) as [box|]; simpl; [|discriminate].
  destruct (centerAndHalfSize _ _) as [[c0 h0]|]; simpl; [|discriminate].
  intros [= <-]. auto.
Qed.

Lemma addAll_children_count (fuel : nat) :
  forall (inserted : list AbstractState) (node tree : StateTreeNode),
    addAll fuel inserted node = Ok tree ->
    childrenCounted node ->
    childrenCounted tree
    /\ numSpacePartitions tree = numSpacePartitions node.
Proof.
  induction inserted as [|s rest IH]; intros node tree; simpl.
  - intros [= <-]. auto.
  - destruct (add fuel s node) as [node1|f] eqn:Hadd; simpl; [|discriminate].
    apply add_Ok_inv in Hadd as [_ Hadd].
    intros Hrest Hcount.
    destruct (IH node1 tree Hrest) as [Hcount' Hnsp].
    + eapply addRecursive_children_count; eassumption.
    + apply addRecursive_frame in Hadd as (_ & _ & _ & Hn).
      split; [assumption | congruence].
Qed.

(** The root of a tree built from a StateSet never has more than one
    child, whatever the dimension of the states. *)
Lemma fromStateSet_root_children (fuel : nat) (inserted : list AbstractState)
    (md : Z) (tree : StateTreeNode) :
  StateTreeNode_fromStateSet fuel inserted md = Ok tree ->
  (length (stateTreeNodes tree) <= 1)%nat.
Proof.
  unfold StateTreeNode_fromStateSet.
  destruct (StateSetRoot inserted md) as [root|f] eqn:Hroot; simpl;
    [|discriminate].
  apply StateSetRoot_fields in Hroot as (Hnsp & Hnil & _ & _).
  intros Hadd.
  destruct (addAll_children_count fuel inserted root tree Hadd) as [Hc Hn].
  { now left. }
  destruct Hc as [->|Hlen]; [simpl; lia|].
  rewrite Hlen, Hn, Hnsp. simpl. lia.
Qed.

Lemma StateSetRoot_unitState (md : Z) :
  StateSetRoot [unitState] md = Ok (Node [0] 1 md 1 [] []).
Proof.
  unfold StateSetRoot, dimensionCheck, initialBox, growBox, centerAndHalfSize.
  repeat (progress (simpl; decide_reals)).
  repeat f_equal; lra.
Qed.

(** C2, at a StateSet with the single state of extent 1 at the origin of a
    one-dimensional space and [maxDepth = 1]: the constructor succeeds, the
    root has dimension 1 and has attempted a push-down, and it has created
    one child where [2^1 = 2] are due. *)
Theorem StateSet_root_creates_one_child :
  exists (tree child : StateTreeNode),
    StateTreeNode_fromStateSet 2 [unitState] 1 = Ok tree
    /\ length (center tree) = 1%nat
    /\ stateTreeNodes tree = [child]
    /\ states tree = [unitState]
    /\ (2 ^ length (center tree))%nat = 2%nat.
Proof.
  set (child := Node [- (1 / 2)] (1 / 2) 0 2 [] []).
  assert (Hchildren : createChildren (Node [0] 1 1 1 [] []) = [child]).
  { unfold createChildren, child, StateTreeNode_new, subCenter.
    change (Z.to_nat (numSpacePartitions (Node [0] 1 1 1 [] []))) with 1%nat.
    cbn.
    change ((Z.of_nat 0 `div` 2 ^ Z.of_nat 0) `mod` 2)%Z with 0%Z.
    change (1 - 1)%Z with 0%Z. change (2 ^ Z.of_nat 1)%Z with 2%Z.
    repeat f_equal; lra. }
  assert (Hchild : addRecursive 1 unitState child = Ok (child, false)).
  { apply (addRecursive_refuses 0 unitState 1 child); [reflexivity..|].
    simpl. rewrite largest_singleton, Rabs_right by lra. lra. }
  assert (Hroot : addRecursive 2 unitState (Node [0] 1 1 1 [] [])
                  = Ok (Node [0] 1 1 1 [child] [unitState], true)).
  { rewrite (addRecursive_push_down 1 unitState 1); [|reflexivity..| |lia].
    - rewrite Hchildren. cbn [tryChildren]. rewrite Hchild. reflexivity.
    - simpl zip_with. rewrite largest_singleton, Rabs_right by lra. lra. }
  exists (Node [0] 1 1 1 [child] [unitState]), child.
  split; [|repeat split].
  unfold StateTreeNode_fromStateSet.
  rewrite StateSetRoot_unitState, bind_Ok.
  unfold addAll, add. simpl center.
  destruct (decide _) as [_|Hne]; [|contradiction].
  rewrite Hroot. reflexivity.
Qed.

(** *** StateSets with states of different dimensions *)

Lemma Ended_Ok {A : Type} (a : A) : Ended (Ok a).
Proof. discriminate. Qed.

Lemma Ended_bind {A B : Type} (m : Result A) (k : A -> Result B) :
  Ended m -> (forall a, Ended (k a)) -> Ended (bind m k).
Proof.
  intros Hm Hk. destruct m as [a|f]; simpl; [apply Hk|].
  intros [= ->]. now apply Hm.
Qed.

Lemma Ended_vec_at {A : Type} (v : list A) (n : nat) : Ended (vec_at v n).
Proof. unfold vec_at. destruct (v !! n); discriminate. Qed.

Lemma Ended_vec_set {A : Type} (v : list A) (n : nat) (x : A) :
  Ended (vec_set v n x).
Proof. unfold vec_set. destruct (v !! n); discriminate. Qed.

Lemma Ended_forRange {S : Type} (body : nat -> S -> Result S) :
  (forall n s, Ended (body n s)) ->
  forall count start s, Ended (forRange start count body s).
Proof.
  intros Hbody. induction count as [|count IH]; intros start s; simpl.
  - apply Ended_Ok.
  - apply Ended_bind; [apply Hbody | intros s'; apply IH].
Qed.

Ltac ended :=
  repeat first
    [ apply Ended_Ok
    | apply Ended_vec_at
    | apply Ended_vec_set
    | discriminate
    | apply Ended_forRange; intros
    | apply Ended_bind; [|intros]
    | match goal with
      | |- Ended (if ?c then _ else _) => destruct c
      | |- Ended (match ?x with _ => _ end) => destruct x
      | |- Ended (let (_, _) := ?x in _) => destruct x
      end ].

Lemma StateSetRoot_Ended (inserted : list AbstractState) (md : Z) :
  Ended (StateSetRoot inserted md).
Proof.
  unfold StateSetRoot, dimensionCheck, initialBox, growBox, centerAndHalfSize.
  ended.
Qed.

Lemma StateSetRoot_Shaped (inserted : list AbstractState) (md : Z)
    (root : StateTreeNode) :
  StateSetRoot inserted md = Ok root ->
  Shaped (length (center root)) root
  /\ ((0 <= md)%Z -> Depths root).
Proof.
  intros Hroot.
  destruct (StateSetRoot_fields _ _ _ Hroot) as (_ & Hnil & Hheld & Hmd).
  destruct root as [c h md' nsp children held]. simpl in *. subst.
  split; constructor; try constructor; auto.
Qed.

Lemma addAll_Ended (D fuel : nat) :
  forall (inserted : list AbstractState) (node : StateTreeNode),
    Shaped D node ->
    Depths node ->
    (Z.to_nat (maxDepth node) < fuel)%nat ->
    Ended (addAll fuel inserted node).
Proof.
  induction inserted as [|s rest IH]; intros node Hshaped Hdepths Hfuel; simpl.
  - apply Ended_Ok.
  - unfold add.
    destruct (decide _) as [Hlen|]; [|discriminate].
    rewrite (Shaped_center D node Hshaped) in Hlen.
    destruct (addRecursive_total D s Hlen fuel node Hshaped Hdepths Hfuel)
      as (node' & b & Hrun & Hdepths').
    rewrite Hrun. simpl. destruct b; simpl; [|discriminate].
    apply IH; [|assumption|].
    + eapply addRecursive_Shaped; eassumption.
    + apply addRecursive_frame in Hrun as (_ & _ & Hmd & _). now rewrite Hmd.
Qed.

(** The assertion in the constructor's own loop cannot fail when every
    state has at least one coordinate; the loop then leaves the dimension
    of the last state in [numCoordinates]. *)
Lemma dimensionCheck_passes (inserted : list AbstractState) (first : nat) :
  Forall (fun s => (1 <= length (coordinates s))%nat) inserted ->
  dimensionCheck inserted first
  = Ok (default first
          ((fun s => length (coordinates s)) <$> last (drop 1 inserted))).
Proof.
  intros Hall. unfold dimensionCheck.
  assert (Hloop : forall (count n numCoordinates : nat),
             (n + count)%nat = length inserted ->
             forRange n count
               (fun n _ =>
                  do state <- vec_at inserted n;
                  if decide (length (coordinates state) = 0%nat)
                  then Fail (TBTKAssertFailed "StateTreeNode::StateTreeNode()"
                               differentDimensions)
                  else Ok (length (coordinates state)))
               numCoordinates
             = Ok (default numCoordinates
                     ((fun s => length (coordinates s))
                        <$> last (drop n inserted)))).
  { induction count as [|count IH]; intros n numCoordinates Hn.
    - rewrite drop_ge by lia. reflexivity.
    - destruct (lookup_lt_is_Some_2 inserted n ltac:(lia)) as [s Hs].
      rewrite forRange_S, (vec_at_Some _ _ _ Hs), bind_Ok.
      rewrite Forall_lookup in Hall. pose proof (Hall n s Hs).
      destruct (decide _); [lia|]. rewrite bind_Ok.
      rewrite IH by lia. rewrite (drop_S _ _ _ Hs), last_cons.
      destruct (last (drop (S n) inserted)); reflexivity. }
  destruct inserted as [|s0 rest]; [reflexivity|].
  apply Hloop. simpl. lia.
Qed.

(** C10, as stated, fails: for the StateSet of a state in the plane and a
    state on the line, both with at least one coordinate, the constructor
    does report an error, namely the dimension assertion of [add]. *)
Lemma mixed_StateSet_is_rejected :
  Forall (fun s => (1 <= length (coordinates s))%nat) [planeState; unitState]
  /\ length (coordinates planeState) <> length (coordinates unitState)
  /\ StateTreeNode_fromStateSet 1 [planeState; unitState] 0
     = Fail (TBTKAssertFailed "StateTreeNode::add()" incompatibleDimensions).
Proof.
  split; [repeat constructor|]. split; [discriminate|].
  assert (Hroot : StateSetRoot [planeState; unitState] 0
                  = Ok (Node [0] 1 0 1 [] [])).
  { unfold StateSetRoot, dimensionCheck, initialBox, growBox,
      centerAndHalfSize.
    repeat (progress (simpl; decide_reals)).
    repeat f_equal; lra. }
  unfold StateTreeNode_fromStateSet. rewrite Hroot, bind_Ok.
  unfold addAll, add. simpl center. simpl coordinates.
  destruct (decide _) as [Heq|_]; [discriminate | reflexivity].
Qed.

(** C10, as the code has it. A StateSet whose states do not all have the
    same number of coordinates is never accepted by the constructor: no
    tree is returned, and, with a depth budget that is not negative, the
    construction ends in an error. *)
Theorem fromStateSet_rejects_mixed_dimensions :
  forall (fuel : nat) (inserted : list AbstractState) (md : Z)
         (a b : AbstractState),
    In a inserted ->
    In b inserted ->
    length (coordinates a) <> length (coordinates b) ->
    (forall tree, StateTreeNode_fromStateSet fuel inserted md <> Ok tree)
    /\ ((0 <= md)%Z -> (Z.to_nat md < fuel)%nat ->
        exists f, StateTreeNode_fromStateSet fuel inserted md = Fail f
                  /\ f <> FuelExhausted).
Proof.
  intros fuel inserted md a b Ha Hb Hne.
  assert (Hnever : forall tree,
             StateTreeNode_fromStateSet fuel inserted md <> Ok tree).
  { intros tree Hbuilt. unfold StateTreeNode_fromStateSet in Hbuilt.
    destruct (StateSetRoot inserted md) as [root|f] eqn:Hroot;
      simpl in Hbuilt; [|discriminate].
    destruct (StateSetRoot_Shaped _ _ _ Hroot) as [Hshaped _].
    destruct (addAll_spec _ fuel inserted root tree Hshaped Hbuilt)
      as (_ & _ & _ & Hdims & _).
    rewrite Forall_forall in Hdims.
    apply Hne. rewrite (Hdims a), (Hdims b);
      [reflexivity | now apply list_elem_of_In..]. }
  split; [exact Hnever|].
  intros Hmd Hfuel.
  assert (Hended : Ended (StateTreeNode_fromStateSet fuel inserted md)).
  { unfold StateTreeNode_fromStateSet.
    pose proof (StateSetRoot_Ended inserted md) as Hroot.
    destruct (StateSetRoot inserted md) as [root|f] eqn:Hrooteq; simpl;
      [|exact Hroot].
    destruct (StateSetRoot_Shaped _ _ _ Hrooteq) as [Hshaped Hdepths].
    destruct (StateSetRoot_fields _ _ _ Hrooteq) as (_ & _ & _ & Hmdeq).
    apply (addAll_Ended (length (center root))); auto.
    now rewrite Hmdeq. }
  destruct (StateTreeNode_fromStateSet fuel inserted md) as [tree|f] eqn:Heq.
  - exfalso. exact (Hnever tree eq_refl).
  - exists f. split; [reflexivity|]. intros ->. now apply Hended.
Qed.

Lemma fromStateSet_rejects_mixed_dimensions_witness :
  (forall tree,
      StateTreeNode_fromStateSet 1 [planeState; unitState] 0 <> Ok tree)
  /\ exists f,
       StateTreeNode_fromStateSet 1 [planeState; unitState] 0 = Fail f
       /\ f <> FuelExhausted.
Proof.
  destruct (fromStateSet_rejects_mixed_dimensions 1 [planeState; unitState] 0
              planeState unitState) as [Hnever Hfails].
  - now left.
  - right. now left.
  - simpl. lia.
  - split; [exact Hnever|]. apply Hfails; simpl; lia.
Defined.

(** *** The states a tree holds *)

Lemma tryChildren_decompose
    (try : StateTreeNode -> Result (StateTreeNode * bool)) :
  forall (children children' : list StateTreeNode) (added : bool),
    tryChildren try children = Ok (children', added) ->
    if added then
      exists before before' child child' rest,
        children = before ++ child :: rest
        /\ children' = before' ++ child' :: rest
        /\ Forall2 (fun c c' => try c = Ok (c', false)) before before'
        /\ try child = Ok (child', true)
    else Forall2 (fun c c' => try c = Ok (c', false)) children children'.
Proof.
  induction children as [|child rest IH]; intros children' added; simpl.
  - intros [= <- <-]. constructor.
  - destruct (try child) as [[child' b]|f] eqn:Htry; simpl; [|discriminate].
    destruct b.
    + intros [= <- <-]. exists [], [], child, child', rest.
      repeat split; [constructor | exact Htry].
    + destruct (tryChildren try rest) as [[rest' added']|f] eqn:Hrest;
        simpl; [|discriminate].
      intros [= <- <-]. specialize (IH _ _ eq_refl). destruct added'.
      * destruct IH as (before & before' & c & c' & post & -> & -> & Hall & Hc).
        exists (child :: before), (child' :: before'), c, c', post.
        repeat split; [now constructor | exact Hc].
      * now constructor.
Qed.

Lemma allStates_createChildren (node : StateTreeNode) :
  concat (map allStates (createChildren node)) = [].
Proof.
  unfold createChildren. induction (seq 0 _) as [|n l IH]; [reflexivity|].
  simpl. exact IH.
Qed.

Lemma addRecursive_allStates (s : AbstractState) :
  forall (fuel : nat) (node node' : StateTreeNode) (b : bool),
    addRecursive fuel s node = Ok (node', b) ->
    allStates node' ≡ₚ (if b then [s] else []) ++ allStates node.
Proof.
  induction fuel as [|fuel IH]; intros node node' b; simpl; [discriminate|].
  destruct node as [c h md nsp children held].
  assert (Hhere : forall children',
             concat (map allStates children')
             ≡ₚ concat (map allStates children) ->
             allStates (Node c h md nsp children' (held ++ [s]))
             ≡ₚ [s] ++ allStates (Node c h md nsp children held)).
  { intros children' Hperm. simpl. rewrite Hperm.
    rewrite (Permutation_app_comm held [s]). reflexivity. }
  destruct (extent s) as [e|]; [|intros [= <- <-]; now apply Hhere].
  destruct (relativeCoordinates (coordinates s) c) as [rel|f]; simpl;
    [|discriminate].
  destruct (Rgt_dec _ _); [now intros [= <- <-]|].
  destruct (md =? 0)%Z; [intros [= <- <-]; now apply Hhere|].
  set (children1 := match children with
                    | [] => createChildren (Node c h md nsp children held)
                    | _ :: _ => children
                    end).
  assert (Hchildren1 : concat (map allStates children1)
                       = concat (map allStates children)).
  { subst children1. destruct children; [|reflexivity].
    apply allStates_createChildren. }
  destruct (tryChildren _ children1) as [[children2 added]|f] eqn:Htry;
    simpl; [|discriminate].
  apply tryChildren_decompose in Htry.
  assert (Hsame : forall l l',
             Forall2 (fun c0 c' => addRecursive fuel s c0 = Ok (c', false)) l l' ->
             l' = l).
  { induction 1 as [|c0 c' l l' Hc _ IHl]; [reflexivity|].
    apply addRecursive_false in Hc. congruence. }
  destruct added; intros [= <- <-].
  - destruct Htry as (before & before' & c0 & c' & rest & Heq & -> & Hall & Hc).
    apply Hsame in Hall as ->. apply IH in Hc.
    simpl. rewrite <- Hchildren1, Heq.
    rewrite !map_app, !concat_app. simpl. rewrite Hc. simpl.
    rewrite <- !Permutation_middle. reflexivity.
  - apply Hsame in Htry as ->. apply Hhere. now rewrite Hchildren1.
Qed.


Lemma sumSquares_cons (x y : R) (a b : list R) :
  sumSquares (x :: a) (y :: b) = (x - y) ^ 2 + sumSquares a b.
Proof. reflexivity. Qed.

Lemma crossSum_cons (x y z : R) (a b c : list R) :
  crossSum (x :: a) (y :: b) (z :: c) = (x - y) * (y - z) + crossSum a b c.
Proof. reflexivity. Qed.

Lemma sumSquares_expand :
  forall (a b c : list R),
    length a = length b -> length b = length c ->
    sumSquares a c = sumSquares a b + 2 * crossSum a b c + sumSquares b c
    /\ (crossSum a b c) ^ 2 <= sumSquares a b * sumSquares b c.
Proof.
  induction a as [|x a IH]; intros [|y b] [|z c] Hab Hbc;
    try discriminate.
  - unfold sumSquares, crossSum. simpl. split; lra.
  - injection Hab as Hab. injection Hbc as Hbc.
    destruct (IH b c Hab Hbc) as [Hsum Hcs].
    rewrite !sumSquares_cons, crossSum_cons, Hsum.
    pose proof (sumSquares_nonneg a b) as HA.
    pose proof (sumSquares_nonneg b c) as HB.
    split; [lra|].
    set (A := sumSquares a b) in *. set (B := sumSquares b c) in *.
    set (S := crossSum a b c) in *.
    set (u := x - y). set (v := y - z).
    assert (Hkey : 2 * (u * v) * S <= u ^ 2 * B + v ^ 2 * A).
    { destruct (Req_dec B 0) as [HB0|HB0].
      - assert (HS : S = 0) by nra. rewrite HS, HB0. nra.
      - assert (HBpos : 0 < B) by lra.
        assert (0 <= (u * B - v * S) ^ 2) by (apply pow2_ge_0).
        assert (H1 : 0 <= B * (u ^ 2 * B + v ^ 2 * A - 2 * (u * v) * S)).
        { nra. }
        nra. }
    nra.
Qed.

Lemma distance_triangle (a b c : list R) :
  length a = length b -> length b = length c ->
  sqrt (sumSquares a c) <= sqrt (sumSquares a b) + sqrt (sumSquares b c).
Proof.
  intros Hab Hbc.
  destruct (sumSquares_expand a b c Hab Hbc) as [Hsum Hcs].
  pose proof (sumSquares_nonneg a b) as HA.
  pose proof (sumSquares_nonneg b c) as HB.
  pose proof (sumSquares_nonneg a c) as HC.
  set (A := sumSquares a b) in *. set (B := sumSquares b c) in *.
  set (S := crossSum a b c) in *.
  pose proof (sqrt_pos A) as HsA. pose proof (sqrt_pos B) as HsB.
  pose proof (sqrt_sqrt A HA) as HAA. pose proof (sqrt_sqrt B HB) as HBB.
  assert (HS : S <= sqrt A * sqrt B).
  { pose proof (Rmult_le_pos _ _ HsA HsB) as Hprod.
    destruct (Rle_dec S 0) as [Hn|Hp]; [lra|].
    apply Rnot_le_lt in Hp.
    apply Rnot_lt_le. intros Hlt.
    assert (Hsq : (sqrt A * sqrt B) ^ 2 = A * B).
    { replace ((sqrt A * sqrt B) ^ 2)
        with ((sqrt A * sqrt A) * (sqrt B * sqrt B)) by ring.
      now rewrite HAA, HBB. }
    assert ((sqrt A * sqrt B) ^ 2 < S ^ 2) by nra.
    lra. }
  rewrite <- (sqrt_pow2 (sqrt A + sqrt B)) by lra.
  apply sqrt_le_1; [lra | apply pow2_ge_0 |].
  rewrite Hsum.
  replace ((sqrt A + sqrt B) ^ 2)
    with (sqrt A * sqrt A + 2 * (sqrt A * sqrt B) + sqrt B * sqrt B) by ring.
  rewrite HAA, HBB. lra.
Qed.

Lemma contained_of_check (coords : list R) (e : R) (node : StateTreeNode) :
  ~ largestRelativeCoordinate (zip_with Rminus coords (center node)) + e
      > halfSize node ->
  contained coords e node.
Proof.
  intros Hcheck i x y Hx Hy.
  assert (Hin : In (x - y) (zip_with Rminus coords (center node))).
  { apply list_elem_of_In, list_elem_of_lookup. exists i.
    rewrite lookup_zip_with, Hx. simpl. now rewrite Hy. }
  pose proof (largest_ge _ _ Hin) as Hle.
  unfold Rabs in Hle. destruct (Rcase_abs (x - y)); lra.
Qed.

Lemma fits_box (s : AbstractState) (node node' : StateTreeNode) :
  center node' = center node -> halfSize node' = halfSize node ->
  fits s node -> fits s node'.
Proof.
  intros Hc Hh (e & He & Hpos & Hin). exists e.
  split; [assumption|]. split; [assumption|].
  intros i x y Hx Hy. rewrite Hc in Hy. rewrite Hh. exact (Hin i x y Hx Hy).
Qed.

Lemma sqrt_dimension (D : nat) (h : R) :
  0 <= h -> sqrt (INR D * h ^ 2) = sqrt (INR D) * h.
Proof.
  intros Hh. rewrite sqrt_mult; [|apply pos_INR | apply pow2_ge_0].
  f_equal. replace (h ^ 2) with (Rsqr h) by (unfold Rsqr; ring).
  now apply sqrt_Rsqr.
Qed.

(** A state that fits the box of a node and overlaps the query sphere keeps
    the query from passing the node by. *)
Lemma overlap_reaches_box (coords : list R) (r : R) (s : AbstractState)
    (node : StateTreeNode) :
  length coords = length (center node) ->
  length (coordinates s) = length (center node) ->
  (1 <= length (center node))%nat ->
  fits s node ->
  overlapping coords r s = true ->
  ~ sqrt (sumSquares coords (center node))
    > sqrt (INR (length (center node)) * halfSize node ^ 2) + r.
Proof.
  intros Hq Hs HD (e & He & Hpos & Hin) Hov.
  unfold overlapping, overlaps in Hov. rewrite He in Hov.
  destruct (Rlt_dec _ _) as [Hlt|]; [clear Hov | discriminate].
  destruct (lookup_lt_is_Some_2 (center node) 0 ltac:(lia)) as [y0 Hy0].
  destruct (lookup_lt_is_Some_2 (coordinates s) 0 ltac:(lia)) as [x0 Hx0].
  assert (Hhe : 0 <= halfSize node - e).
  { destruct (Hin _ _ _ Hx0 Hy0). lra. }
  assert (Hbox : sumSquares (coordinates s) (center node)
                 <= INR (length (coordinates s)) * (halfSize node - e) ^ 2).
  { apply sumSquares_in_box; [congruence|].
    intros i x y Hx Hy. destruct (Hin _ _ _ Hx Hy).
    unfold Rabs. destruct (Rcase_abs (x - y)); lra. }
  rewrite Hs in Hbox.
  assert (Hd : sqrt (sumSquares (coordinates s) (center node))
               <= sqrt (INR (length (center node))) * (halfSize node - e)).
  { rewrite <- sqrt_dimension by assumption.
    apply sqrt_le_1; [apply sumSquares_nonneg | | assumption].
    apply Rmult_le_pos; [apply pos_INR | apply pow2_ge_0]. }
  pose proof (distance_triangle coords (coordinates s) (center node)
                ltac:(congruence) Hs) as Htri.
  rewrite sqrt_dimension by lra.
  assert (Hroot : 1 <= sqrt (INR (length (center node)))).
  { rewrite <- sqrt_1. apply sqrt_le_1; [lra | apply pos_INR |].
    change 1 with (INR 1). now apply le_INR. }
  nra.
Qed.

Lemma collectOverlapping_exact (D : nat) (coords : list R) (q : R) :
  length coords = D ->
  forall (held acc : list AbstractState),
    Forall (fun s => length (coordinates s) = D) held ->
    collectOverlapping held acc coords q
    = Ok (acc ++ List.filter (overlapping coords q) held).
Proof.
  intros Hlen. induction held as [|s rest IH]; intros acc Hheld; simpl.
  - now rewrite app_nil_r.
  - inversion Hheld as [|? ? Hs Hrest]; subst.
    rewrite distance_Ok by congruence. rewrite bind_Ok.
    rewrite IH by assumption. unfold overlapping at 2.
    destruct (overlaps _ q s); [|reflexivity].
    now rewrite <- app_assoc.
Qed.

Lemma descend_exact
    (query : StateTreeNode -> list AbstractState -> Result (list AbstractState))
    (result : StateTreeNode -> list AbstractState) :
  forall (children : list StateTreeNode),
    Forall (fun child => forall acc, query child acc = Ok (acc ++ result child))
           children ->
    forall (acc : list AbstractState),
      descend query children acc = Ok (acc ++ concat (map result children)).
Proof.
  induction 1 as [|child rest Hchild _ IH]; intros acc; simpl.
  - now rewrite app_nil_r.
  - rewrite Hchild, bind_Ok, IH. now rewrite <- app_assoc.
Qed.

Lemma filter_none {A : Type} (f : A -> bool) (l : list A) :
  (forall x, In x l -> f x = false) -> List.filter f l = [].
Proof.
  induction l as [|x l IH]; intros Hall; [reflexivity|]. simpl.
  rewrite (Hall x) by now left. apply IH. intros y Hy. apply Hall. now right.
Qed.

Lemma filter_concat {A : Type} (f : A -> bool) (l : list (list A)) :
  List.filter f (concat l) = concat (map (List.filter f) l).
Proof.
  induction l as [|x l IH]; [reflexivity|]. simpl.
  now rewrite List.filter_app, IH.
Qed.

Lemma Boxed_inv (c : list R) (h : R) (md nsp : Z)
    (children : list StateTreeNode) (held : list AbstractState) :
  Boxed (Node c h md nsp children held) ->
  Forall (fun s => fits s (Node c h md nsp children held))
         (allStates (Node c h md nsp children held))
  /\ Forall Boxed children.
Proof. inversion 1; subst. now split. Qed.

Lemma Shaped_inv (D : nat) (c : list R) (h : R) (md nsp : Z)
    (children : list StateTreeNode) (held : list AbstractState) :
  Shaped D (Node c h md nsp children held) ->
  length c = D
  /\ Forall (fun s => length (coordinates s) = D) held
  /\ Forall (Shaped D) children.
Proof. inversion 1; subst. auto. Qed.

Lemma Shaped_allStates (D : nat) (node : StateTreeNode) :
  Shaped D node ->
  Forall (fun s => length (coordinates s) = D) (allStates node).
Proof.
  induction node as [c h md nsp children held IH] using StateTreeNode_ind.
  intros Hshaped. apply Shaped_inv in Hshaped as (_ & Hheld & Hchildren).
  simpl. apply Forall_app. split; [assumption|].
  apply Forall_concat, Forall_map.
  rewrite Forall_forall in IH, Hchildren. apply Forall_forall.
  intros child Hchild. apply IH; auto.
Qed.

(** Below a node whose states all fit their boxes, the query returns the
    states that pass the overlap test, in the order in which the tree
    holds them. *)
Lemma getOverlappingStatesRecursive_exact (D : nat) (coords : list R) (q : R) :
  length coords = D ->
  (1 <= D)%nat ->
  forall (node : StateTreeNode),
    Shaped D node ->
    Boxed node ->
    forall (acc : list AbstractState),
      getOverlappingStatesRecursive node acc coords q
      = Ok (acc ++ List.filter (overlapping coords q) (allStates node)).
Proof.
  intros Hlen HD.
  induction node as [c h md nsp children held IH] using StateTreeNode_ind.
  intros Hshaped Hboxed acc.
  pose proof (Shaped_allStates _ _ Hshaped) as Hdims.
  apply Shaped_inv in Hshaped as (Hc & Hheld & Hchildren).
  apply Boxed_inv in Hboxed as (Hfits & Hboxes).
  cbn [getOverlappingStatesRecursive].
  rewrite distance_Ok_r by congruence. rewrite bind_Ok.
  destruct (Rgt_dec _ _) as [Hfar|Hnear].
  - rewrite filter_none; [now rewrite app_nil_r|].
    intros s Hs. destruct (overlapping coords q s) eqn:Hov; [|reflexivity].
    exfalso. rewrite Forall_forall in Hfits, Hdims.
    apply list_elem_of_In in Hs.
    refine (overlap_reaches_box coords q s (Node c h md nsp children held)
              _ _ _ (Hfits s Hs) Hov Hfar); simpl.
    + congruence.
    + rewrite (Hdims s Hs). congruence.
    + lia.
  - rewrite (collectOverlapping_exact D) by assumption. rewrite bind_Ok.
    rewrite (descend_exact _
               (fun child => List.filter (overlapping coords q)
                               (allStates child))).
    + simpl. rewrite List.filter_app, filter_concat, map_map.
      now rewrite <- app_assoc.
    + rewrite Forall_forall in IH, Hchildren, Hboxes. apply Forall_forall.
      intros child Hchild acc'. apply IH; auto.
Qed.

Lemma addRecursive_children (P : StateTreeNode -> Prop) (fuel : nat)
    (s : AbstractState) (node node' : StateTreeNode) (b : bool) :
  (forall c0 c' b0, P c0 -> addRecursive fuel s c0 = Ok (c', b0) -> P c') ->
  Forall P (stateTreeNodes node) ->
  Forall P (createChildren node) ->
  addRecursive (S fuel) s node = Ok (node', b) ->
  Forall P (stateTreeNodes node').
Proof.
  intros Hstep Hchildren Hcreated. simpl.
  destruct node as [c h md nsp children held]. simpl in Hchildren.
  destruct (extent s) as [e|]; [|now intros [= <- <-]].
  destruct (relativeCoordinates (coordinates s) c) as [rel|f]; simpl;
    [|discriminate].
  destruct (Rgt_dec _ _); [now intros [= <- <-]|].
  destruct (md =? 0)%Z; [now intros [= <- <-]|].
  set (children1 := match children with
                    | [] => createChildren (Node c h md nsp children held)
                    | _ :: _ => children
                    end).
  assert (Hchildren1 : Forall P children1).
  { subst children1. destruct children; assumption. }
  destruct (tryChildren _ children1) as [[children2 added]|f] eqn:Htry;
    simpl; [|discriminate].
  apply tryChildren_inv in Htry as [Hall _].
  assert (Hchildren2 : Forall P children2).
  { apply Forall_lookup. intros i c' Hc'.
    destruct (Forall2_lookup_r _ _ _ _ _ Hall Hc') as (c0 & Hc0 & b0 & Hrel).
    rewrite Forall_lookup in Hchildren1. specialize (Hchildren1 i c0 Hc0).
    destruct Hrel as [Hrel| ->]; [|assumption].
    eapply Hstep; eassumption. }
  destruct added; intros [= <- <-]; assumption.
Qed.

Lemma addRecursive_taken_fits (D : nat) (s : AbstractState) (e : R)
    (fuel : nat) (node node' : StateTreeNode) :
  length (coordinates s) = D ->
  extent s = Finite e ->
  0 <= e ->
  Shaped D node ->
  addRecursive fuel s node = Ok (node', true) ->
  fits s node.
Proof.
  intros Hs He Hpos Hshaped. destruct fuel as [|fuel]; simpl; [discriminate|].
  destruct Hshaped as [c h md nsp children held Hc Hheld Hchildren].
  rewrite He. rewrite relativeCoordinates_Ok by congruence. rewrite bind_Ok.
  destruct (Rgt_dec _ _) as [|Hcheck]; [discriminate|]. intros _.
  exists e. split; [assumption|]. split; [assumption|].
  now apply contained_of_check.
Qed.

Lemma createChildren_Boxed (node : StateTreeNode) :
  Forall Boxed (createChildren node).
Proof.
  unfold createChildren. apply Forall_map, Forall_forall. intros n _.
  simpl. unfold StateTreeNode_new. constructor; constructor.
Qed.

Lemma addRecursive_Boxed (D : nat) (s : AbstractState) (e : R) :
  length (coordinates s) = D ->
  extent s = Finite e ->
  0 <= e ->
  forall (fuel : nat) (node node' : StateTreeNode) (b : bool),
    Shaped D node ->
    Boxed node ->
    addRecursive fuel s node = Ok (node', b) ->
    Boxed node'.
Proof.
  intros Hs He Hpos.
  induction fuel as [|fuel IH]; intros node node' b Hshaped Hboxed Hadd;
    [discriminate|].
  pose proof (addRecursive_allStates _ _ _ _ _ Hadd) as Hperm.
  pose proof (addRecursive_frame _ _ _ _ _ Hadd) as (Hc & Hh & _ & _).
  assert (Hchildren : Forall (fun n => Shaped D n /\ Boxed n)
                             (stateTreeNodes node')).
  { apply (addRecursive_children _ _ _ _ _ _ ) with (4 := Hadd).
    - intros c0 c' b0 [Hs0 Hb0] Hok. split.
      + eapply addRecursive_Shaped; eassumption.
      + eapply IH; eassumption.
    - destruct node as [c h md nsp children held].
      apply Shaped_inv in Hshaped as (_ & _ & Hsh).
      apply Boxed_inv in Hboxed as (_ & Hbx). simpl.
      apply Forall_and. now split.
    - apply Forall_and. split; [|apply createChildren_Boxed].
      apply createChildren_Shaped. now apply Shaped_center. }
  assert (Hfits : Forall (fun t => fits t node') (allStates node')).
  { rewrite Hperm. apply Forall_app. split.
    - destruct b; [|constructor]. constructor; [|constructor].
      apply (fits_box _ node); [assumption | assumption |].
      eapply addRecursive_taken_fits; eassumption.
    - destruct node as [c h md nsp children held].
      apply Boxed_inv in Hboxed as (Hall & _).
      eapply Forall_impl; [exact Hall|].
      intros t Ht. now apply (fits_box _ (Node c h md nsp children held)). }
  destruct node' as [c' h' md' nsp' children' held'].
  constructor; [exact Hfits|]. simpl in Hchildren.
  eapply Forall_impl; [exact Hchildren|]. now intros n [_ Hn].
Qed.

Lemma add_BoxedRoot (D fuel : nat) (s : AbstractState)
    (node node' : StateTreeNode) :
  Shaped D node ->
  BoxedRoot node ->
  (forall e, extent s = Finite e -> 0 <= e) ->
  add fuel s node = Ok node' ->
  BoxedRoot node'
  /\ Shaped D node'
  /\ allStates node' ≡ₚ allStates node ++ [s]
  /\ center node' = center node
  /\ halfSize node' = halfSize node.
Proof.
  intros Hshaped [Hall Hboxes] Hpos Hadd.
  apply add_Ok_inv in Hadd as [Hdim Hadd].
  assert (Hs : length (coordinates s) = D).
  { rewrite Hdim. now apply Shaped_center. }
  pose proof (addRecursive_allStates _ _ _ _ _ Hadd) as Hperm.
  pose proof (addRecursive_frame _ _ _ _ _ Hadd) as (Hc & Hh & _ & _).
  pose proof (addRecursive_Shaped _ _ Hs _ _ _ _ Hshaped Hadd) as Hshaped'.
  split; [|split; [assumption|split; [|now split]]].
  - split.
    + rewrite Hperm. apply Forall_app. split.
      * constructor; [|constructor].
        destruct (extent s) as [e|] eqn:He; [right | now left].
        apply (fits_box _ node); [assumption | assumption |].
        eapply addRecursive_taken_fits; eauto.
      * eapply Forall_impl; [exact Hall|].
        intros t [Ht|Ht]; [now left | right].
        now apply (fits_box _ node).
    + destruct fuel as [|fuel]; [discriminate|].
      destruct (extent s) as [e|] eqn:He.
      * assert (Hchildren : Forall (fun n => Shaped D n /\ Boxed n)
                                   (stateTreeNodes node')).
        { apply (addRecursive_children _ _ _ _ _ _ ) with (4 := Hadd).
          - intros c0 c' b0 [Hs0 Hb0] Hok. split.
            + eapply addRecursive_Shaped; eassumption.
            + eapply (addRecursive_Boxed D s e); eauto.
          - apply Forall_and. split; [|assumption].
            destruct node as [c h md nsp children held].
            now apply Shaped_inv in Hshaped as (_ & _ & Hsh).
          - apply Forall_and. split; [|apply createChildren_Boxed].
            apply createChildren_Shaped. now apply Shaped_center. }
        eapply Forall_impl; [exact Hchildren|]. now intros n [_ Hn].
      * rewrite addRecursive_Infinite in Hadd by assumption.
        injection Hadd as <-. exact Hboxes.
  - rewrite Hperm. simpl. apply Permutation_cons_append.
Qed.

Lemma addAll_BoxedRoot (D fuel : nat) :
  forall (inserted : list AbstractState) (node tree : StateTreeNode),
    Shaped D node ->
    BoxedRoot node ->
    Forall (fun s => forall e, extent s = Finite e -> 0 <= e) inserted ->
    addAll fuel inserted node = Ok tree ->
    BoxedRoot tree
    /\ Shaped D tree
    /\ allStates tree ≡ₚ allStates node ++ inserted
    /\ center tree = center node
    /\ halfSize tree = halfSize node.
Proof.
  induction inserted as [|s rest IH]; intros node tree Hshaped Hroot Hpos;
    simpl.
  - intros [= <-]. rewrite app_nil_r. auto.
  - inversion Hpos as [|? ? Hs Hrest]; subst.
    destruct (add fuel s node) as [node1|f] eqn:Hadd; simpl; [|discriminate].
    destruct (add_BoxedRoot _ _ _ _ _ Hshaped Hroot Hs Hadd)
      as (Hroot1 & Hshaped1 & Hperm1 & Hc1 & Hh1).
    intros Hall.
    destruct (IH _ _ Hshaped1 Hroot1 Hrest Hall)
      as (Hroot2 & Hshaped2 & Hperm2 & Hc2 & Hh2).
    split; [assumption|]. split; [assumption|].
    split; [|split; congruence].
    rewrite Hperm2, Hperm1. now rewrite <- app_assoc.
Qed.

Lemma getOverlappingStates_root (D : nat) (coords : list R) (q : R)
    (tree : StateTreeNode) :
  length coords = D ->
  (1 <= D)%nat ->
  Shaped D tree ->
  BoxedRoot tree ->
  getOverlappingStates tree coords q
  = Ok (if Rgt_dec (sqrt (sumSquares coords (center tree)))
                   (sqrt (INR D * halfSize tree ^ 2) + q)
        then []
        else List.filter (overlapping coords q) (allStates tree)).
Proof.
  intros Hlen HD Hshaped [Hall Hboxes].
  pose proof (Shaped_allStates _ _ Hshaped) as Hdims.
  unfold getOverlappingStates.
  destruct tree as [c h md nsp children held].
  apply Shaped_inv in Hshaped as (Hc & Hheld & Hchildren).
  simpl center. simpl halfSize.
  destruct (decide _) as [_|Hn]; [|congruence].
  cbn [getOverlappingStatesRecursive].
  rewrite distance_Ok_r by congruence. rewrite bind_Ok. rewrite Hc.
  destruct (Rgt_dec _ _) as [Hfar|Hnear]; [reflexivity|].
  rewrite (collectOverlapping_exact D) by assumption. rewrite bind_Ok.
  rewrite (descend_exact _
             (fun child => List.filter (overlapping coords q)
                             (allStates child))).
  - simpl. rewrite List.filter_app, filter_concat, map_map. reflexivity.
  - simpl in Hboxes.
    rewrite Forall_forall in Hchildren, Hboxes. apply Forall_forall.
    intros child Hchild acc'.
    apply (getOverlappingStatesRecursive_exact D); auto.
Qed.

Lemma built_tree (fuel : nat) (c : list R) (h : R) (md : Z)
    (inserted : list AbstractState) (tree : StateTreeNode) :
  (addAll fuel inserted (StateTreeNode_new c h md) = Ok tree
   \/ StateTreeNode_fromStateSet fuel inserted md = Ok tree) ->
  exists root,
    addAll fuel inserted root = Ok tree
    /\ Shaped (length (center root)) root
    /\ allStates root = []
    /\ stateTreeNodes root = [].
Proof.
  intros [Hbuilt|Hbuilt].
  - exists (StateTreeNode_new c h md). split; [assumption|].
    split; [|split; reflexivity].
    unfold StateTreeNode_new. simpl. constructor; [reflexivity | constructor..].
  - unfold StateTreeNode_fromStateSet in Hbuilt.
    destruct (StateSetRoot inserted md) as [root|f] eqn:Hroot; simpl in Hbuilt;
      [|discriminate].
    exists root. split; [assumption|].
    destruct (StateSetRoot_Shaped _ _ _ Hroot) as [Hshaped _].
    destruct (StateSetRoot_fields _ _ _ Hroot) as (_ & Hch & Hst & _).
    split; [assumption|]. split; [|assumption].
    destruct root as [c0 h0 md0 nsp0 children0 held0]. simpl in *.
    now subst.
Qed.

Lemma addAll_allStates (fuel : nat) :
  forall (inserted : list AbstractState) (node tree : StateTreeNode),
    addAll fuel inserted node = Ok tree ->
    allStates tree ≡ₚ allStates node ++ inserted.
Proof.
  induction inserted as [|s rest IH]; intros node tree; simpl.
  - intros [= <-]. now rewrite app_nil_r.
  - destruct (add fuel s node) as [node1|f] eqn:Hadd; simpl; [|discriminate].
    intros Hall. apply add_Ok_inv in Hadd as [_ Hadd].
    rewrite (IH _ _ Hall), (addRecursive_allStates _ _ _ _ _ Hadd).
    simpl. rewrite <- Permutation_middle. reflexivity.
Qed.

(** X13. A tree built by adding the states of a list one after the other
    to a new root, or by the StateSet constructor, holds the states of the
    list and nothing else, each as often as the list does: no state is
    dropped, duplicated or invented. *)
Theorem tree_holds_each_inserted_state_once :
  forall (fuel : nat) (c : list R) (h : R) (md : Z)
         (inserted : list AbstractState) (tree : StateTreeNode),
    (addAll fuel inserted (StateTreeNode_new c h md) = Ok tree
     \/ StateTreeNode_fromStateSet fuel inserted md = Ok tree) ->
    allStates tree ≡ₚ inserted.
Proof.
  intros fuel c h md inserted tree Hbuilt.
  destruct (built_tree _ _ _ _ _ _ Hbuilt) as (root & Hall & _ & Hempty & _).
  apply addAll_allStates in Hall. now rewrite Hempty in Hall.
Qed.

Lemma built_tree_BoxedRoot (fuel : nat) (c : list R) (h : R) (md : Z)
    (inserted : list AbstractState) (tree : StateTreeNode) :
  (addAll fuel inserted (StateTreeNode_new c h md) = Ok tree
   \/ StateTreeNode_fromStateSet fuel inserted md = Ok tree) ->
  Forall (fun s => forall e, extent s = Finite e -> 0 <= e) inserted ->
  Shaped (length (center tree)) tree
  /\ BoxedRoot tree
  /\ allStates tree ≡ₚ inserted.
Proof.
  intros Hbuilt Hpos.
  destruct (built_tree _ _ _ _ _ _ Hbuilt)
    as (root & Hall & Hshaped & Hempty & Hleaf).
  assert (Hroot : BoxedRoot root).
  { split; [rewrite Hempty | rewrite Hleaf]; constructor. }
  destruct (addAll_BoxedRoot _ _ _ _ _ Hshaped Hroot Hpos Hall)
    as (Hroot' & Hshaped' & Hperm & Hc & _).
  rewrite Hc. split; [assumption|]. split; [assumption|].
  now rewrite Hempty in Hperm.
Qed.

(** X14. On a tree built from states whose finite extents are not
    negative, in dimension at least 1, [getOverlappingStates] returns
    nothing when the query sphere misses the bounding sphere of the root,
    and otherwise exactly the held states that pass the test
    [distance < extent + state->getExtent()], in the order in which the
    tree holds them. *)
Theorem query_returns_overlapping_states_unless_root_is_missed :
  forall (fuel : nat) (c : list R) (h : R) (md : Z)
         (inserted : list AbstractState) (tree : StateTreeNode)
         (coords : list R) (q : R),
    (addAll fuel inserted (StateTreeNode_new c h md) = Ok tree
     \/ StateTreeNode_fromStateSet fuel inserted md = Ok tree) ->
    Forall (fun s => forall e, extent s = Finite e -> 0 <= e) inserted ->
    length coords = length (center tree) ->
    (1 <= length coords)%nat ->
    exists stored,
      stored ≡ₚ inserted
      /\ getOverlappingStates tree coords q
         = Ok (if Rgt_dec (sqrt (sumSquares coords (center tree)))
                          (sqrt (INR (length (center tree)) * halfSize tree ^ 2)
                           + q)
               then []
               else List.filter (overlapping coords q) stored).
Proof.
  intros fuel c h md inserted tree coords q Hbuilt Hpos Hlen HD.
  destruct (built_tree_BoxedRoot _ _ _ _ _ _ Hbuilt Hpos)
    as (Hshaped & Hroot & Hperm).
  exists (allStates tree). split; [assumption|].
  apply getOverlappingStates_root; [assumption | lia | assumption..].
Qed.

(** X15. No false negative for local states: a query whose
    distance to an inserted state of extent [e >= 0] is less than the sum
    of the two extents returns that state, wherever in the tree the state
    has ended up. *)
Theorem overlapping_local_state_is_found :
  forall (fuel : nat) (c : list R) (h : R) (md : Z)
         (inserted : list AbstractState) (tree : StateTreeNode)
         (coords : list R) (q : R) (s : AbstractState) (e : R),
    (addAll fuel inserted (StateTreeNode_new c h md) = Ok tree
     \/ StateTreeNode_fromStateSet fuel inserted md = Ok tree) ->
    Forall (fun s => forall e, extent s = Finite e -> 0 <= e) inserted ->
    length coords = length (center tree) ->
    (1 <= length coords)%nat ->
    In s inserted ->
    extent s = Finite e ->
    sqrt (sumSquares coords (coordinates s)) < q + e ->
    exists found,
      getOverlappingStates tree coords q = Ok found /\ In s found.
Proof.
  intros fuel c h md inserted tree coords q s e Hbuilt Hpos Hlen HD Hin He Hd.
  destruct (built_tree_BoxedRoot _ _ _ _ _ _ Hbuilt Hpos)
    as (Hshaped & Hroot & Hperm).
  assert (Hstored : In s (allStates tree)).
  { apply list_elem_of_In. rewrite Hperm. now apply list_elem_of_In. }
  assert (Hov : overlapping coords q s = true).
  { unfold overlapping, overlaps. rewrite He.
    destruct (Rlt_dec _ _); [reflexivity | contradiction]. }
  rewrite (getOverlappingStates_root (length (center tree)));
    [|assumption | lia | assumption | assumption].
  eexists. split; [reflexivity|].
  destruct (Rgt_dec _ _) as [Hfar|Hnear].
  - exfalso. destruct Hroot as [Hall _].
    rewrite Forall_forall in Hall.
    destruct (Hall s ltac:(now apply list_elem_of_In)) as [Hinf|Hfits];
      [congruence|].
    pose proof (Shaped_allStates _ _ Hshaped) as Hdims.
    rewrite Forall_forall in Hdims.
    refine (overlap_reaches_box coords q s tree Hlen _ _ Hfits Hov Hfar).
    + apply Hdims. now apply list_elem_of_In.
    + lia.
  - apply filter_In. now split.
Qed.

(** X16. A non-local state is returned by a query if and only if
    the query sphere reaches the bounding sphere of the root: a query far
    from the root box misses the non-local states too. *)
Theorem nonlocal_state_is_found_iff_root_is_reached :
  forall (fuel : nat) (c : list R) (h : R) (md : Z)
         (inserted : list AbstractState) (tree : StateTreeNode)
         (coords : list R) (q : R) (s : AbstractState),
    (addAll fuel inserted (StateTreeNode_new c h md) = Ok tree
     \/ StateTreeNode_fromStateSet fuel inserted md = Ok tree) ->
    Forall (fun s => forall e, extent s = Finite e -> 0 <= e) inserted ->
    length coords = length (center tree) ->
    (1 <= length coords)%nat ->
    In s inserted ->
    extent s = Infinite ->
    exists found,
      getOverlappingStates tree coords q = Ok found
      /\ (In s found
          <-> ~ sqrt (sumSquares coords (center tree))
                > sqrt (INR (length (center tree)) * halfSize tree ^ 2) + q).
Proof.
  intros fuel c h md inserted tree coords q s Hbuilt Hpos Hlen HD Hin He.
  destruct (built_tree_BoxedRoot _ _ _ _ _ _ Hbuilt Hpos)
    as (Hshaped & Hroot & Hperm).
  assert (Hstored : In s (allStates tree)).
  { apply list_elem_of_In. rewrite Hperm. now apply list_elem_of_In. }
  rewrite (getOverlappingStates_root (length (center tree)));
    [|assumption | lia | assumption | assumption].
  eexists. split; [reflexivity|].
  destruct (Rgt_dec _ _) as [Hfar|Hnear].
  - split; [intros [] | contradiction].
  - split; [now intros _|]. intros _. apply filter_In. split; [assumption|].
    unfold overlapping, overlaps. now rewrite He.
Qed.

(** *** Depth, soundness of the query and the boxes of the children *)

Lemma Depths_height (node : StateTreeNode) :
  Depths node -> (Z.of_nat (height node) <= maxDepth node)%Z.
Proof.
  induction node as [c h md nsp children held IH] using StateTreeNode_ind.
  intros Hdepths.
  inversion Hdepths as [c' h' md' nsp' ch' held' Hmd Hsteps Hdeep].
  subst c' h' md' nsp' ch' held'. simpl.
  induction children as [|child rest IHrest]; simpl; [lia|].
  apply Forall_cons in IH as [IHchild IHforall].
  apply Forall_cons in Hsteps as [Hstep Hsteps].
  apply Forall_cons in Hdeep as [Hd Hdeep].
  assert (Hrest : Depths (Node c h md nsp rest held)) by now constructor.
  specialize (IHrest IHforall Hrest Hsteps Hdeep).
  specialize (IHchild Hd). lia.
Qed.

Lemma addAll_Depths (D fuel : nat) :
  forall (inserted : list AbstractState) (node tree : StateTreeNode),
    Shaped D node ->
    Depths node ->
    (Z.to_nat (maxDepth node) < fuel)%nat ->
    addAll fuel inserted node = Ok tree ->
    Depths tree /\ maxDepth tree = maxDepth node.
Proof.
  induction inserted as [|s rest IH]; intros node tree Hshaped Hdepths Hfuel;
    simpl.
  - intros [= <-]. auto.
  - destruct (add fuel s node) as [node1|f] eqn:Hadd; simpl; [|discriminate].
    destruct (add_invariants _ _ _ _ _ Hshaped Hdepths Hfuel Hadd)
      as (Hshaped1 & Hdepths1 & Hmd1).
    intros Hall. rewrite <- Hmd1. apply IH; try assumption.
    now rewrite Hmd1.
Qed.

(** X18. A tree built with the depth budget [maxDepth >= 0] never
    has more than [maxDepth] generations below its root. *)
Theorem tree_is_no_deeper_than_maxDepth :
  forall (fuel : nat) (c : list R) (h : R) (md : Z)
         (inserted : list AbstractState) (tree : StateTreeNode),
    (0 <= md)%Z ->
    (Z.to_nat md < fuel)%nat ->
    (addAll fuel inserted (StateTreeNode_new c h md) = Ok tree
     \/ StateTreeNode_fromStateSet fuel inserted md = Ok tree) ->
    le (height tree) (Z.to_nat md).
Proof.
  intros fuel c h md inserted tree Hmd Hfuel [Hbuilt|Hbuilt].
  - destruct (StateTreeNode_new_invariants c h md Hmd) as [Hshaped Hdepths].
    destruct (addAll_Depths _ _ _ _ _ Hshaped Hdepths Hfuel Hbuilt)
      as [Hd Heq].
    apply Depths_height in Hd. simpl in Heq. lia.
  - unfold StateTreeNode_fromStateSet in Hbuilt.
    destruct (StateSetRoot inserted md) as [root|f] eqn:Hroot; simpl in Hbuilt;
      [|discriminate].
    destruct (StateSetRoot_Shaped _ _ _ Hroot) as [Hshaped Hdepths].
    destruct (StateSetRoot_fields _ _ _ Hroot) as (_ & _ & _ & Hrmd).
    assert (Hrfuel : (Z.to_nat (maxDepth root) < fuel)%nat)
      by now rewrite Hrmd.
    destruct (addAll_Depths _ _ _ _ _ Hshaped (Hdepths Hmd) Hrfuel Hbuilt)
      as [Hd Heq].
    apply Depths_height in Hd. lia.
Qed.

Lemma leaf_with_two_states :
  addAll 1 [unitState; waveState] (StateTreeNode_new [0] 1 0)
  = Ok (Node [0] 1 0 2 [] [unitState; waveState]).
Proof.
  unfold addAll.
  change (StateTreeNode_new [0] 1 0) with (Node [0] 1 0 2 [] []).
  rewrite (add_to_leaf 0 unitState 1 [0] 1 2 []); [|reflexivity..|].
  - rewrite bind_Ok. unfold add. simpl center.
    destruct (decide _) as [_|Hne]; [|contradiction].
    rewrite addRecursive_Infinite by reflexivity. reflexivity.
  - simpl zip_with. rewrite largest_singleton.
    rewrite Rabs_right by lra. lra.
Qed.

Lemma tree_is_no_deeper_than_maxDepth_witness :
  le (height (Node [0] 1 0 2 [] [unitState; waveState])) (Z.to_nat 0).
Proof.
  apply (tree_is_no_deeper_than_maxDepth 1 [0] 1 0 [unitState; waveState]).
  - lia.
  - simpl. lia.
  - left. exact leaf_with_two_states.
Defined.

Lemma descend_sound
    (query : StateTreeNode -> list AbstractState -> Result (list AbstractState))
    (P : AbstractState -> Prop) :
  forall (children : list StateTreeNode),
    Forall (fun child => forall acc, exists more,
                query child acc = Ok (acc ++ more)
                /\ Forall (fun x => In x (allStates child) /\ P x) more)
           children ->
    forall (acc : list AbstractState),
      exists more,
        descend query children acc = Ok (acc ++ more)
        /\ Forall (fun x => In x (concat (map allStates children)) /\ P x)
                  more.
Proof.
  induction 1 as [|child rest Hchild _ IH]; intros acc; simpl.
  - exists []. rewrite app_nil_r. split; [reflexivity | constructor].
  - destruct (Hchild acc) as (more1 & -> & Hmore1). rewrite bind_Ok.
    destruct (IH (acc ++ more1)) as (more2 & -> & Hmore2).
    exists (more1 ++ more2). rewrite app_assoc. split; [reflexivity|].
    apply Forall_app. split.
    + eapply Forall_impl; [exact Hmore1|]. intros x [Hx HP].
      split; [|assumption]. apply in_or_app. now left.
    + eapply Forall_impl; [exact Hmore2|]. intros x [Hx HP].
      split; [|assumption]. apply in_or_app. now right.
Qed.

Lemma getOverlappingStatesRecursive_sound (D : nat) (coords : list R) (q : R) :
  length coords = D ->
  forall (node : StateTreeNode),
    Shaped D node ->
    forall (acc : list AbstractState),
      exists more,
        getOverlappingStatesRecursive node acc coords q = Ok (acc ++ more)
        /\ Forall (fun x => In x (allStates node)
                            /\ overlapping coords q x = true) more.
Proof.
  intros Hlen.
  induction node as [c h md nsp children held IH] using StateTreeNode_ind.
  intros Hshaped acc.
  apply Shaped_inv in Hshaped as (Hc & Hheld & Hchildren).
  cbn [getOverlappingStatesRecursive].
  rewrite distance_Ok_r by congruence. rewrite bind_Ok.
  destruct (Rgt_dec _ _) as [Hfar|Hnear].
  - exists []. rewrite app_nil_r. split; [reflexivity | constructor].
  - rewrite (collectOverlapping_exact D) by assumption. rewrite bind_Ok.
    destruct (descend_sound
                (fun child overlappingStates =>
                   getOverlappingStatesRecursive child overlappingStates
                     coords q)
                (fun x => overlapping coords q x = true) children)
      with (acc := acc ++ List.filter (overlapping coords q) held)
      as (more & -> & Hmore).
    { rewrite Forall_forall in IH, Hchildren. apply Forall_forall.
      intros child Hchild acc'. apply IH; auto. }
    exists (List.filter (overlapping coords q) held ++ more).
    rewrite app_assoc. split; [reflexivity|].
    apply Forall_app. split.
    + apply Forall_forall. intros x Hx.
      apply list_elem_of_In, filter_In in Hx as [Hx Hov].
      split; [|assumption]. simpl. apply in_or_app. now left.
    + eapply Forall_impl; [exact Hmore|]. intros x [Hx Hov].
      split; [|assumption]. simpl. apply in_or_app. now right.
Qed.

(** X19. No false positive: whatever the extents of the states are,
    every state a query returns was inserted and passes the test
    [distance < extent + state->getExtent()]. *)
Theorem query_returns_only_inserted_overlapping_states :
  forall (fuel : nat) (c : list R) (h : R) (md : Z)
         (inserted : list AbstractState) (tree : StateTreeNode)
         (coords : list R) (q : R) (found : list AbstractState),
    (addAll fuel inserted (StateTreeNode_new c h md) = Ok tree
     \/ StateTreeNode_fromStateSet fuel inserted md = Ok tree) ->
    getOverlappingStates tree coords q = Ok found ->
    forall s, In s found -> In s inserted /\ overlapping coords q s = true.
Proof.
  intros fuel c h md inserted tree coords q found Hbuilt Hquery s Hs.
  assert (Hperm : allStates tree ≡ₚ inserted).
  { destruct (built_tree _ _ _ _ _ _ Hbuilt) as (root & Hall & _ & Hempty & _).
    apply addAll_allStates in Hall. now rewrite Hempty in Hall. }
  destruct (built_tree _ _ _ _ _ _ Hbuilt) as (root & Hall & Hshaped & _ & _).
  destruct (addAll_spec _ _ _ _ _ Hshaped Hall) as (Hshaped' & Hc & _).
  unfold getOverlappingStates in Hquery.
  destruct (decide _) as [Hlen|]; [|discriminate].
  destruct (getOverlappingStatesRecursive_sound _ coords q eq_refl tree)
    with (acc := @nil AbstractState) as (more & Hrun & Hmore).
  { rewrite Hlen, Hc. exact Hshaped'. }
  rewrite Hrun in Hquery. injection Hquery as <-. simpl in Hs.
  rewrite Forall_forall in Hmore.
  destruct (Hmore s ltac:(now apply list_elem_of_In)) as [Hstored Hov].
  split; [|assumption].
  apply list_elem_of_In. rewrite <- Hperm. now apply list_elem_of_In.
Qed.

Lemma subCenter_lookup (c : list R) (h : R) (n : Z) (k : nat) (x : R) :
  subCenter c h n !! k = Some x ->
  exists y, c !! k = Some y
            /\ x = y + (IZR ((n / 2 ^ Z.of_nat k) mod 2) - 1 / 2) * h.
Proof.
  unfold subCenter. rewrite list_lookup_imap.
  destruct (c !! k) as [y|]; simpl; [|discriminate].
  intros [= <-]. eauto.
Qed.

Lemma bit_cases (n : Z) (k : nat) :
  ((n / 2 ^ Z.of_nat k) mod 2 = 0 \/ (n / 2 ^ Z.of_nat k) mod 2 = 1)%Z.
Proof.
  pose proof (Z.mod_pos_bound (n / 2 ^ Z.of_nat k)%Z 2 ltac:(lia)). lia.
Qed.

Lemma bits_determine (D : nat) (i j : Z) :
  (0 <= i < 2 ^ Z.of_nat D)%Z ->
  (0 <= j < 2 ^ Z.of_nat D)%Z ->
  (forall k, (k < D)%nat ->
     ((i / 2 ^ Z.of_nat k) mod 2 = (j / 2 ^ Z.of_nat k) mod 2)%Z) ->
  i = j.
Proof.
  intros Hi Hj Hbits. apply Z.bits_inj'. intros n Hn.
  destruct (Z_lt_le_dec n (Z.of_nat D)) as [Hlt|Hge].
  - specialize (Hbits (Z.to_nat n) ltac:(lia)).
    rewrite Z2Nat.id in Hbits by assumption.
    rewrite <- !Z.testbit_spec' in Hbits by assumption.
    destruct (Z.testbit i n), (Z.testbit j n); simpl in Hbits;
      congruence.
  - assert (Hhigh : forall a, (0 <= a < 2 ^ Z.of_nat D)%Z ->
                              Z.testbit a n = false).
    { intros a Ha. destruct (Z.eq_dec a 0%Z) as [->|Hne];
        [apply Z.bits_0|].
      apply Z.bits_above_log2; [lia|].
      assert (Z.log2 a < Z.of_nat D)%Z by (apply Z.log2_lt_pow2; lia). lia. }
    now rewrite !Hhigh.
Qed.

(** X20. The children a node creates: as many as
    [numSpacePartitions] says, each with half the half size and one level
    less of depth budget, each box within the box of the node, and with
    pairwise different centers as long as there are at most [2^D] of
    them. *)
Theorem children_are_the_distinct_half_boxes :
  forall (node : StateTreeNode),
    0 < halfSize node ->
    (0 <= numSpacePartitions node <= 2 ^ Z.of_nat (length (center node)))%Z ->
    length (createChildren node) = Z.to_nat (numSpacePartitions node)
    /\ Forall (fun child =>
                 halfSize child = halfSize node / 2
                 /\ maxDepth child = (maxDepth node - 1)%Z
                 /\ length (center child) = length (center node)
                 /\ contained (center child) (halfSize child) node)
              (createChildren node)
    /\ (forall i j child child',
          createChildren node !! i = Some child ->
          createChildren node !! j = Some child' ->
          i <> j -> center child <> center child').
Proof.
  intros node Hh Hnsp. split; [apply length_createChildren|]. split.
  - unfold createChildren. apply Forall_map, Forall_forall. intros n _.
    simpl. split; [reflexivity|]. split; [reflexivity|].
    split; [apply length_subCenter|].
    intros k x y Hx Hy.
    apply subCenter_lookup in Hx as (y' & Hy' & ->).
    assert (y' = y) as -> by congruence.
    destruct (bit_cases (Z.of_nat n) k) as [-> | ->]; simpl; lra.
  - intros i j child child' Hi Hj Hne Heq.
    unfold createChildren in Hi, Hj.
    rewrite list_lookup_fmap in Hi, Hj.
    destruct (seq 0 (Z.to_nat (numSpacePartitions node)) !! i) as [a|] eqn:Ha;
      simpl in Hi; [|discriminate].
    destruct (seq 0 (Z.to_nat (numSpacePartitions node)) !! j) as [b|] eqn:Hb;
      simpl in Hj; [|discriminate].
    apply lookup_seq in Ha as [-> Hia]. apply lookup_seq in Hb as [-> Hjb].
    injection Hi as <-. injection Hj as <-. simpl in Heq.
    apply Hne. apply Nat2Z.inj.
    apply (bits_determine (length (center node))); [lia | lia |].
    intros k Hk.
    destruct (lookup_lt_is_Some_2 (center node) k Hk) as [y Hy].
    apply (f_equal (fun l => l !! k)) in Heq as Hl.
    unfold subCenter in Hl. rewrite !list_lookup_imap, Hy in Hl.
    injection Hl as Hl.
    destruct (bit_cases (Z.of_nat i) k) as [Hbi|Hbi],
             (bit_cases (Z.of_nat j) k) as [Hbj|Hbj];
      rewrite Hbi, Hbj in *; try reflexivity; simpl in Hl; exfalso; nra.
Qed.

Lemma children_are_the_distinct_half_boxes_witness :
  length (createChildren (StateTreeNode_new [0] 1 1))
  = Z.to_nat (numSpacePartitions (StateTreeNode_new [0] 1 1))
  /\ Forall (fun child =>
               halfSize child = halfSize (StateTreeNode_new [0] 1 1) / 2
               /\ maxDepth child
                  = Z.sub (maxDepth (StateTreeNode_new [0] 1 1)) 1
               /\ length (center child)
                  = length (center (StateTreeNode_new [0] 1 1))
               /\ contained (center child) (halfSize child)
                    (StateTreeNode_new [0] 1 1))
            (createChildren (StateTreeNode_new [0] 1 1))
  /\ (forall i j child child',
        createChildren (StateTreeNode_new [0] 1 1) !! i = Some child ->
        createChildren (StateTreeNode_new [0] 1 1) !! j = Some child' ->
        i <> j -> center child <> center child').
Proof.
  apply (children_are_the_distinct_half_boxes (StateTreeNode_new [0] 1 1)).
  - simpl. lra.
  - simpl. lia.
Defined.

Lemma two_states_extents :
  Forall (fun s => forall e, extent s = Finite e -> 0 <= e)
         [unitState; waveState].
Proof.
  constructor; [intros e [= <-]; lra|].
  constructor; [intros e [=] | constructor].
Qed.

Lemma tree_holds_each_inserted_state_once_witness :
  allStates (Node [0] 1 0 2 [] [unitState; waveState])
  ≡ₚ [unitState; waveState].
Proof.
  apply (tree_holds_each_inserted_state_once 1 [0] 1 0 [unitState; waveState]).
  left. exact leaf_with_two_states.
Defined.

Lemma query_returns_overlapping_states_unless_root_is_missed_witness :
  exists stored,
    stored ≡ₚ [unitState; waveState]
    /\ getOverlappingStates (Node [0] 1 0 2 [] [unitState; waveState]) [3] 0
       = Ok (if Rgt_dec
                  (sqrt (sumSquares [3]
                           (center (Node [0] 1 0 2 [] [unitState; waveState]))))
                  (sqrt (INR (length (center (Node [0] 1 0 2 []
                                                [unitState; waveState])))
                         * halfSize (Node [0] 1 0 2 [] [unitState; waveState])
                           ^ 2)
                   + 0)
             then []
             else List.filter (overlapping [3] 0) stored).
Proof.
  apply (query_returns_overlapping_states_unless_root_is_missed
           1 [0] 1 0 [unitState; waveState]).
  - left. exact leaf_with_two_states.
  - exact two_states_extents.
  - reflexivity.
  - simpl. lia.
Defined.

Lemma overlapping_local_state_is_found_witness :
  exists found,
    getOverlappingStates (Node [0] 1 0 2 [] [unitState; waveState]) [1] (1 / 2)
    = Ok found
    /\ In unitState found.
Proof.
  apply (overlapping_local_state_is_found 1 [0] 1 0 [unitState; waveState]
           (Node [0] 1 0 2 [] [unitState; waveState]) [1] (1 / 2) unitState 1).
  - left. exact leaf_with_two_states.
  - exact two_states_extents.
  - reflexivity.
  - simpl. lia.
  - now left.
  - reflexivity.
  - change (sumSquares [1] (coordinates unitState)) with ((1 - 0) ^ 2 + 0).
    replace ((1 - 0) ^ 2 + 0) with 1 by lra. rewrite sqrt_1. lra.
Defined.

Lemma nonlocal_state_is_found_iff_root_is_reached_witness :
  exists found,
    getOverlappingStates (Node [0] 1 0 2 [] [unitState; waveState]) [3] 0
    = Ok found
    /\ (In waveState found
        <-> ~ sqrt (sumSquares [3]
                      (center (Node [0] 1 0 2 [] [unitState; waveState])))
              > sqrt (INR (length (center (Node [0] 1 0 2 []
                                             [unitState; waveState])))
                      * halfSize (Node [0] 1 0 2 [] [unitState; waveState]) ^ 2)
                + 0).
Proof.
  apply (nonlocal_state_is_found_iff_root_is_reached
           1 [0] 1 0 [unitState; waveState]).
  - left. exact leaf_with_two_states.
  - exact two_states_extents.
  - reflexivity.
  - simpl. lia.
  - right. now left.
  - reflexivity.
Defined.

Lemma query_unitState_at_origin :
  getOverlappingStates (Node [0] 1 0 2 [] [unitState; waveState]) [0] 0
  = Ok [unitState; waveState].
Proof.
  unfold getOverlappingStates. simpl center.
  destruct (decide _) as [_|Hne]; [|contradiction].
  rewrite getOverlappingStatesRecursive_leaf by reflexivity.
  rewrite sumSquares_self, sqrt_0.
  pose proof (sqrt_pos (INR (length [0]) * 1 ^ 2)).
  destruct (Rgt_dec _ _); [lra|].
  rewrite collectOverlapping_cons by reflexivity.
  simpl coordinates. rewrite sumSquares_self, sqrt_0.
  unfold overlaps at 1. simpl extent. cbv iota beta.
  decide_reals.
  rewrite collectOverlapping_cons by reflexivity.
  reflexivity.
Qed.

Lemma query_returns_only_inserted_overlapping_states_witness :
  In unitState [unitState; waveState]
  /\ overlapping [0] 0 unitState = true.
Proof.
  apply (query_returns_only_inserted_overlapping_states
           1 [0] 1 0 [unitState; waveState]
           (Node [0] 1 0 2 [] [unitState; waveState]) [0] 0
           [unitState; waveState]).
  - left. exact leaf_with_two_states.
  - exact query_unitState_at_origin.
  - now left.
Defined.

Lemma leaf_with_unitState :
  addAll 1 [unitState] (StateTreeNode_new [0] 1 0)
  = Ok (Node [0] 1 0 2 [] [unitState]).
Proof.
  unfold addAll.
  change (StateTreeNode_new [0] 1 0) with (Node [0] 1 0 2 [] []).
  rewrite (add_to_leaf 0 unitState 1 [0] 1 2 []); [reflexivity..|].
  simpl zip_with. rewrite largest_singleton.
  rewrite Rabs_right by lra. lra.
Qed.

(** On a tree of local states, the query is the filter of the held
    states, whether or not it reaches the root. *)
Lemma getOverlappingStates_local (fuel : nat) (c : list R) (h : R) (md : Z)
    (inserted : list AbstractState) (tree : StateTreeNode)
    (coords : list R) (q : R) :
  (addAll fuel inserted (StateTreeNode_new c h md) = Ok tree
   \/ StateTreeNode_fromStateSet fuel inserted md = Ok tree) ->
  Forall (fun s => exists e, extent s = Finite e /\ 0 <= e) inserted ->
  length coords = length (center tree) ->
  (1 <= length coords)%nat ->
  getOverlappingStates tree coords q
  = Ok (List.filter (overlapping coords q) (allStates tree))
  /\ allStates tree ≡ₚ inserted
  /\ Forall (fun s => length (coordinates s) = length (center tree)) inserted.
Proof.
  intros Hbuilt Hlocal Hlen HD.
  assert (Hpos : Forall (fun s => forall e, extent s = Finite e -> 0 <= e)
                        inserted).
  { eapply Forall_impl; [exact Hlocal|].
    intros s (e & He & Hpos) e' He'. congruence. }
  destruct (built_tree_BoxedRoot _ _ _ _ _ _ Hbuilt Hpos)
    as (Hshaped & Hroot & Hperm).
  pose proof (Shaped_allStates _ _ Hshaped) as Hdims.
  split; [|split; [assumption | now rewrite <- Hperm]].
  rewrite (getOverlappingStates_root (length (center tree)));
    [|assumption | lia | assumption | assumption].
  destruct (Rgt_dec _ _) as [Hfar|Hnear]; [|reflexivity].
  rewrite filter_none; [reflexivity|].
  intros s Hs. destruct (overlapping coords q s) eqn:Hov; [|reflexivity].
  exfalso. destruct Hroot as [Hall _].
  rewrite Forall_forall in Hall, Hdims, Hlocal.
  apply list_elem_of_In in Hs.
  destruct (Hall s Hs) as [Hinf|Hfits].
  - rewrite Hperm in Hs. destruct (Hlocal s Hs) as (e & He & _). congruence.
  - refine (overlap_reaches_box coords q s tree Hlen (Hdims s Hs) _ Hfits Hov
              Hfar). lia.
Qed.


End StateTree.

(** ** ModelFactory *)

Module ModelFactory.

Local Open Scope Z_scope.

Import StateTree.

(** [HoppingAmplitude(amplitude, toIndex, fromIndex)]. *)
Record HoppingAmplitude : Type := {
  amplitude : C;
  toIndex : Index;
  fromIndex : Index
}.

(** The Model and its Geometry are external: a model is represented by the
    calls the factory makes on it and on its geometry, in their order. *)
Inductive ModelCall : Type :=
| AddHA (ha : HoppingAmplitude)
| AddHAAndHC (ha : HoppingAmplitude)
| Construct
| CreateGeometry (dimensions numSpecifiers : Z)
| SetCoordinates (index : Index) (coordinates : list R) (specifiers : list Z).

Abbreviation Model := (list ModelCall).

(** The values [0, 1, ..., n-1] a loop [for(int v = 0; v < n; v++)] gives
    to [v]. *)
Definition range (n : Z) : list Z := map Z.of_nat (seq 0 (Z.to_nat n)).

(** [for(int v = 0; v < n; v++) s = body(v, s)], for a body that cannot
    fail. *)
Definition loop {S : Type} (n : Z) (body : Z -> S -> S) (s : S) : S :=
  fold_left (fun s v => body v s) (range n) s.

(** [*(list.begin() + n)] on an initializer list. *)
Definition initializer_at {A : Type} (l : list A) (n : nat) : Result A :=
  match l !! n with
  | Some x => Ok x
  | None => Fail OutOfBounds
  end.

Definition addHAAndHC (ha : HoppingAmplitude) (model : Model) : Model :=
  model ++ [AddHAAndHC ha].

Definition createSquareLattice1D (model : Model) (size : list Z)
    (periodic : list bool) (t : C) : Result Model :=
  do sizeX <- initializer_at size 0;
  do periodicX <- initializer_at periodic 0;
  Ok (loop sizeX
        (fun x =>
           loop 2
             (fun s model =>
                if periodicX || (x + 1 <? sizeX) then
                  addHAAndHC
                    {| amplitude := t;
                       toIndex := [Z.rem (x + 1) sizeX; s];
                       fromIndex := [x; s] |} model
                else model))
        model).

Definition createSquareLattice2D (model : Model) (size : list Z)
    (periodic : list bool) (t : C) : Result Model :=
  do sizeX <- initializer_at size 0;
  do sizeY <- initializer_at size 1;
  do periodicX <- initializer_at periodic 0;
  do periodicY <- initializer_at periodic 1;
  Ok (loop sizeX
        (fun x =>
           loop sizeY
             (fun y =>
                loop 2
                  (fun s model =>
                     let model1 :=
                       if periodicX || (x + 1 <? sizeX) then
                         addHAAndHC
                           {| amplitude := t;
                              toIndex := [Z.rem (x + 1) sizeX; y; s];
                              fromIndex := [x; y; s] |} model
                       else model in
                     if periodicY || (y + 1 <? sizeY) then
                       addHAAndHC
                         {| amplitude := t;
                            toIndex := [x; Z.rem (y + 1) sizeY; s];
                            fromIndex := [x; y; s] |} model1
                     else model1)))
        model).

(** The subindex of the neighbour in the third direction is formed with
    [&], the bitwise and. *)
Definition createSquareLattice3D (model : Model) (size : list Z)
    (periodic : list bool) (t : C) : Result Model :=
  do sizeX <- initializer_at size 0;
  do sizeY <- initializer_at size 1;
  do sizeZ <- initializer_at size 2;
  do periodicX <- initializer_at periodic 0;
  do periodicY <- initializer_at periodic 1;
  do periodicZ <- initializer_at periodic 2;
  Ok (loop sizeX
        (fun x =>
           loop sizeY
             (fun y =>
                loop sizeZ
                  (fun z =>
                     loop 2
                       (fun s model =>
                          let model1 :=
                            if periodicX || (x + 1 <? sizeX) then
                              addHAAndHC
                                {| amplitude := t;
                                   toIndex := [Z.rem (x + 1) sizeX; y; z; s];
                                   fromIndex := [x; y; z; s] |} model
                            else model in
                          let model2 :=
                            if periodicY || (y + 1 <? sizeY) then
                              addHAAndHC
                                {| amplitude := t;
                                   toIndex := [x; Z.rem (y + 1) sizeY; z; s];
                                   fromIndex := [x; y; z; s] |} model1
                            else model1 in
                          if periodicZ || (z + 1 <? sizeZ) then
                            addHAAndHC
                              {| amplitude := t;
                                 toIndex := [x; y; Z.land (z + 1) sizeZ; s];
                                 fromIndex := [x; y; z; s] |} model2
                          else model2))))
        model).

Definition sizePeriodicMismatch : string :=
  "Argument 'size' and argument 'periodic' have different dimensions.".

Definition unsupportedDimensions : string :=
  "Only 1-3 dimensions supported, but  dimensions requested.".

(** [createSquareLattice]. The messages are kept without the values
    streamed into them. *)
Definition createSquareLattice (size : list Z) (periodic : list bool) (t : C)
    : Result Model :=
  let model : Model := [] in
  if decide (length size = length periodic) then
    match length size with
    | 1%nat => createSquareLattice1D model size periodic t
    | 2%nat => createSquareLattice2D model size periodic t
    | 3%nat => createSquareLattice3D model size periodic t
    | _ => Fail (TBTKExit "ModelFactory::createSquareLattice()"
                   unsupportedDimensions)
    end
  else Fail (TBTKAssertFailed "ModelFactory::createSquareLattice()"
               sizePeriodicMismatch).

Definition setCoordinates (index : Index) (coordinates : list R)
    (model : Model) : Model :=
  model ++ [SetCoordinates index coordinates []].

Definition addSquareGeometry1D (model : Model) (size : list Z)
    : Result Model :=
  let model := model ++ [CreateGeometry 3 0] in
  do sizeX <- initializer_at size 0;
  Ok (loop sizeX
        (fun x =>
           loop 2
             (fun s => setCoordinates [x; s] [IZR x; 0%R; 0%R]))
        model).

Definition addSquareGeometry2D (model : Model) (size : list Z)
    : Result Model :=
  let model := model ++ [CreateGeometry 3 0] in
  do sizeX <- initializer_at size 0;
  do sizeY <- initializer_at size 1;
  Ok (loop sizeX
        (fun x =>
           loop sizeY
             (fun y =>
                loop 2
                  (fun s => setCoordinates [x; y; s] [IZR x; IZR y; 0%R])))
        model).

Definition addSquareGeometry3D (model : Model) (size : list Z)
    : Result Model :=
  let model := model ++ [CreateGeometry 3 0] in
  do sizeX <- initializer_at size 0;
  do sizeY <- initializer_at size 1;
  do sizeZ <- initializer_at size 2;
  Ok (loop sizeX
        (fun x =>
           loop sizeY
             (fun y =>
                loop sizeZ
                  (fun z =>
                     loop 2
                       (fun s =>
                          setCoordinates [x; y; z; s]
                            [IZR x; IZR y; IZR z]))))
        model).

(** [addSquareGeometry]. *)
Definition addSquareGeometry (model : Model) (size : list Z) : Result Model :=
  match length size with
  | 1%nat => addSquareGeometry1D model size
  | 2%nat => addSquareGeometry2D model size
  | 3%nat => addSquareGeometry3D model size
  | _ => Fail (TBTKExit "ModelFactory::addSquareGeometry()"
                 unsupportedDimensions)
  end.


Definition onlyTwoDimensions : string :=
  "Only 2 dimensions supported, but  dimensions requested.".

(** [createHexagonalLattice]. *)
Definition createHexagonalLattice (size : list Z) (periodic : list bool)
    (t : C) : Result Model :=
  let model : Model := [] in
  if decide (length size = length periodic) then
    if decide (length size = 2%nat) then
      do sizeX <- initializer_at size 0;
      do sizeY <- initializer_at size 1;
      do periodicX <- initializer_at periodic 0;
      do periodicY <- initializer_at periodic 1;
      Ok (loop sizeX
            (fun x =>
               loop sizeY
                 (fun y =>
                    loop 2
                      (fun s model =>
                         let model1 :=
                           addHAAndHC
                             {| amplitude := t;
                                toIndex := [x; y; 1; s];
                                fromIndex := [x; y; 0; s] |} model in
                         let model2 :=
                           addHAAndHC
                             {| amplitude := t;
                                toIndex := [x; y; 2; s];
                                fromIndex := [x; y; 1; s] |} model1 in
                         let model3 :=
                           addHAAndHC
                             {| amplitude := t;
                                toIndex := [x; y; 3; s];
                                fromIndex := [x; y; 2; s] |} model2 in
                         let model4 :=
                           if periodicX || (x + 1 <? sizeX) then
                             addHAAndHC
                               {| amplitude := t;
                                  toIndex := [Z.rem (x + 1) sizeX; y; 0; s];
                                  fromIndex := [x; y; 3; s] |} model3
                           else model3 in
                         if periodicY || (y + 1 <? sizeY) then
                           addHAAndHC
                             {| amplitude := t;
                                toIndex := [x; Z.rem (y + 1) sizeY; 3; s];
                                fromIndex := [x; y; 2; s] |}
                             (addHAAndHC
                                {| amplitude := t;
                                   toIndex := [x; Z.rem (y + 1) sizeY; 0; s];
                                   fromIndex := [x; y; 1; s] |} model4)
                         else model4)))
            model)
    else Fail (TBTKAssertFailed "ModelFactory::createHexagonalLattice():"
                 onlyTwoDimensions)
  else Fail (TBTKAssertFailed "ModelFactory::createHexagonalLattice()"
               sizePeriodicMismatch).

(** [addHexagonalGeometry]; its error names [addSquareGeometry]. *)
Definition addHexagonalGeometry (model : Model) (size : list Z)
    : Result Model :=
  if decide (length size = 2%nat) then
    let model := model ++ [CreateGeometry 3 0] in
    do sizeX <- initializer_at size 0;
    do sizeY <- initializer_at size 1;
    Ok (loop sizeX
          (fun x =>
             loop sizeY
               (fun y =>
                  loop 2
                    (fun s model =>
                       let model1 :=
                         setCoordinates [x; y; 0; s]
                           [3 * IZR x + 0; sqrt 3 * IZR y + 0; 0]%R model in
                       let model2 :=
                         setCoordinates [x; y; 1; s]
                           [3 * IZR x + 1 / 2; sqrt 3 * IZR y + sqrt 3 / 2; 0]%R
                           model1 in
                       let model3 :=
                         setCoordinates [x; y; 2; s]
                           [3 * IZR x + 3 / 2; sqrt 3 * IZR y + sqrt 3 / 2; 0]%R
                           model2 in
                       setCoordinates [x; y; 3; s]
                         [3 * IZR x + 2; sqrt 3 * IZR y + 0; 0]%R model3)))
          model)
  else Fail (TBTKExit "ModelFactory::addSquareGeometry()"
               unsupportedDimensions).

(** A model handed to [merge]: its hopping amplitudes in the order in which
    the iterator of its AmplitudeSet delivers them, its geometry if it has
    one, and its map from indices to basis indices. The geometry delivers
    the coordinates of a basis index as a pointer to [double]s. *)
Record Geometry : Type := {
  dimensions : Z;
  numSpecifiers : Z;
  getCoordinates : Z -> nat -> R
}.

Record Source : Type := {
  amplitudeSet : list HoppingAmplitude;
  geometry : option Geometry;
  getBasisIndex : Index -> Z
}.

Definition addHA (ha : HoppingAmplitude) (model : Model) : Model :=
  model ++ [AddHA ha].

(** The first loop of [merge]: both new indices are built from
    [ha->fromIndex]. *)
Definition mergeAmplitudes (n : nat) (m : Source) (model : Model) : Model :=
  fold_left
    (fun model ha =>
       let from := fromIndex ha in
       let to := fromIndex ha in
       let newFrom := Z.of_nat n :: from in
       let newTo := Z.of_nat n :: to in
       addHA {| amplitude := amplitude ha;
                toIndex := newTo;
                fromIndex := newFrom |} model)
    (amplitudeSet m) model.

Definition lacksGeometry : string :=
  "Warning in ModelFactory::merge: Geometric data connot be merged because model  lacks geometric data.
".

Definition wrongGeometryDimension : string :=
  "Warning in ModelFactory::merge: Geometric data connot be merged because model  has geometric of dimension .
".

Definition specifiersIgnored : string :=
  "Warning in ModelFactory::merge: Specifiers ignored in model .
".

(** The loop of [merge] that decides whether the geometries can be merged:
    what it writes to the output stream, and [geometryExists]. *)
Fixpoint geometriesExist (models : list Source) (out : list string)
    : list string * bool :=
  match models with
  | [] => (out, true)
  | m :: rest =>
      match geometry m with
      | None => (out ++ [lacksGeometry], false)
      | Some g =>
          if dimensions g =? 3 then
            geometriesExist rest
              (if numSpecifiers g =? 0 then out
               else out ++ [specifiersIgnored])
          else (out ++ [wrongGeometryDimension], false)
      end
  end.

(** The last loop of [merge], for the model with number [n]; a model
    without geometry makes the loop read through a null pointer. *)
Definition mergeCoordinates (n : nat) (m : Source) (model : Model)
    : Result Model :=
  match geometry m with
  | None => Fail OutOfBounds
  | Some g =>
      Ok (fold_left
            (fun model ha =>
               let from := fromIndex ha in
               let newFrom := Z.of_nat n :: from in
               let basisIndex := getBasisIndex m (fromIndex ha) in
               let coordinates := getCoordinates g basisIndex in
               setCoordinates newFrom
                 [coordinates 0%nat; coordinates 1%nat; coordinates 2%nat]
                 model)
            (amplitudeSet m) model)
  end.

(** A loop over the models together with their numbers. *)
Fixpoint forModels (body : nat -> Source -> Model -> Result Model)
    (n : nat) (models : list Source) (model : Model) : Result Model :=
  match models with
  | [] => Ok model
  | m :: rest =>
      do model' <- body n m model;
      forModels body (S n) rest model'
  end.

(** [merge]: what it writes to the output stream, and the model. *)
Definition merge (models : list Source) : list string * Result Model :=
  let model : Model := [] in
  let result :=
    forModels (fun n m model => Ok (mergeAmplitudes n m model)) 0 models
      model in
  let '(out, geometryExists) := geometriesExist models [] in
  (out,
   do model1 <- result;
   let model2 := model1 ++ [Construct] in
   if geometryExists then
     forModels mergeCoordinates 0 models (model2 ++ [CreateGeometry 3 0])
   else Ok model2).

Section CreateModel.

(** What the factory asks of a state besides its coordinates and its
    extent: the matrix element [ket->getMatrixElement( *bra)], the index
    [Index(state->getContainer(), state->getIndex())] and the specifiers.
    The operator handed to [createModel] is not used. *)
Variable getMatrixElement : AbstractState -> AbstractState -> C.
Variable stateIndex : AbstractState -> Index.
Variable getSpecifiers : AbstractState -> list Z.

(** [amplitude != 0.]. *)
Definition isNonZero (amplitude : C) : bool :=
  if Req_dec_T (real amplitude) 0 then
    if Req_dec_T (imag amplitude) 0 then false else true
  else true.

(** The body of the loop over the bras. *)
Definition addMatrixElement (ket bra : AbstractState) (model : Model)
    : Model :=
  let amplitude := getMatrixElement ket bra in
  if isNonZero amplitude then
    addHA {| amplitude := amplitude;
             toIndex := stateIndex bra;
             fromIndex := stateIndex ket |} model
  else model.

Definition addMatrixElements (ket : AbstractState)
    (bras : list AbstractState) (model : Model) : Model :=
  fold_left (fun model bra => addMatrixElement ket bra model) bras model.

Definition incompatibleCoordinates : string :=
  "Incompatible coordinate dimensions. First state has  coordinates, while state  has  coordinates.".

Definition incompatibleSpecifiers : string :=
  "Incompatible number of specifiers. First state has  specifiers, while state  has  specifiers.".

(** A loop of assertions over the states from the second on. *)
Fixpoint assertAll (holds : AbstractState -> bool)
    (states : list AbstractState) (message : string) : Result unit :=
  match states with
  | [] => Ok tt
  | state :: rest =>
      if holds state then assertAll holds rest message
      else Fail (TBTKAssertFailed "ModelFactory::createModel()" message)
  end.

(** What both variants of [createModel] do once the hopping amplitudes
    are in the model. *)
Definition finishModel (states : list AbstractState) (model : Model)
    : Result Model :=
  do first <- vec_at states 0;
  let numCoordinates := length (coordinates first) in
  do _ <- assertAll
            (fun state =>
               Nat.eqb (length (coordinates state)) numCoordinates)
            (drop 1 states) incompatibleCoordinates;
  let numSpecifiers := length (getSpecifiers first) in
  do _ <- assertAll
            (fun state =>
               Nat.eqb (length (getSpecifiers state)) numSpecifiers)
            (drop 1 states) incompatibleSpecifiers;
  let model1 :=
    model ++ [Construct;
              CreateGeometry (Z.of_nat numCoordinates)
                (Z.of_nat numSpecifiers)] in
  Ok (fold_left
        (fun model state =>
           model ++ [SetCoordinates (stateIndex state) (coordinates state)
                       (getSpecifiers state)])
        states model1).

(** [createModel(stateSet, o)]: every pair of states is tried. *)
Definition createModel (states : list AbstractState) : Result Model :=
  finishModel states
    (fold_left (fun model ket => addMatrixElements ket states model)
       states []).

(** The loop over the kets of [createModel(stateSet, stateTreeNode, o)]. *)
Fixpoint addOverlapping (tree : StateTreeNode) (kets : list AbstractState)
    (model : Model) : Result Model :=
  match kets with
  | [] => Ok model
  | ket :: rest =>
      do bras <- getOverlappingStatesOf tree (coordinates ket) (extent ket);
      addOverlapping tree rest (addMatrixElements ket bras model)
  end.

(** [createModel(stateSet, stateTreeNode, o)]: for every ket, the bras are
    the states the tree reports as overlapping. *)
Definition createModelFromTree (states : list AbstractState)
    (tree : StateTreeNode) : Result Model :=
  do model <- addOverlapping tree states [];
  finishModel states model.

(** The call, if any, that the pair of a ket and a bra adds. *)
Definition hopping (ket bra : AbstractState) : list ModelCall :=
  if isNonZero (getMatrixElement ket bra) then
    [AddHA {| amplitude := getMatrixElement ket bra;
              toIndex := stateIndex bra;
              fromIndex := stateIndex ket |}]
  else [].

End CreateModel.

(** The hopping amplitude [merge] makes of the amplitude [ha] of the model
    with number [n]. *)
Definition merged (n : nat) (ha : HoppingAmplitude) : HoppingAmplitude :=
  {| amplitude := amplitude ha;
     toIndex := Z.of_nat n :: fromIndex ha;
     fromIndex := Z.of_nat n :: fromIndex ha |}.

(** The position [addHexagonalGeometry] gives to the site [sub] of the
    cell [(x, y)]. *)
Definition hexagonalSite (x y sub : Z) : list R :=
  if sub =? 0 then [3 * IZR x + 0; sqrt 3 * IZR y + 0; 0]%R
  else if sub =? 1 then [3 * IZR x + 1 / 2; sqrt 3 * IZR y + sqrt 3 / 2; 0]%R
  else if sub =? 2 then [3 * IZR x + 3 / 2; sqrt 3 * IZR y + sqrt 3 / 2; 0]%R
  else [3 * IZR x + 2; sqrt 3 * IZR y + 0; 0]%R.

(** One step along a direction of [n] sites: to the next site, or, with
    periodic boundary, from the last site back to the first. *)
Definition step (n : Z) (periodic : bool) (a b : Z) : Prop :=
  0 <= a < n /\ ((b = a + 1 /\ a + 1 < n)
                 \/ (periodic = true /\ a = n - 1 /\ b = 0)).

(** The optional call of a guarded statement. *)
Definition guarded (condition : bool) (call : ModelCall) : list ModelCall :=
  if condition then [call] else [].

Lemma range_spec (n v : Z) : In v (range n) <-> 0 <= v < n.
Proof.
  unfold range. rewrite in_map_iff. split.
  - intros (k & <- & Hk). apply in_seq in Hk. lia.
  - intros Hv. exists (Z.to_nat v). split; [lia|]. apply in_seq. lia.
Qed.

Lemma loop_app {A : Type} (n : Z) (body : Z -> list A -> list A)
    (g : Z -> list A) :
  (forall v m, In v (range n) -> body v m = m ++ g v) ->
  forall m, loop n body m = m ++ concat (map g (range n)).
Proof.
  unfold loop. induction (range n) as [|v l IH]; intros Hbody m; simpl.
  - now rewrite app_nil_r.
  - rewrite Hbody by now left. rewrite IH.
    + now rewrite <- app_assoc.
    + intros w m' Hw. apply Hbody. now right.
Qed.

Lemma In_concat_map {A B : Type} (g : A -> list B) (l : list A) (c : B) :
  In c (concat (map g l)) <-> exists v, In v l /\ In c (g v).
Proof.
  rewrite in_concat. split.
  - intros (x & Hx & Hc). apply in_map_iff in Hx as (v & <- & Hv). eauto.
  - intros (v & Hv & Hc). exists (g v). split; [|assumption].
    apply in_map_iff. eauto.
Qed.

Lemma In_guarded (condition : bool) (call c : ModelCall) :
  In c (guarded condition call) <-> condition = true /\ c = call.
Proof.
  unfold guarded. destruct condition; simpl; intuition congruence.
Qed.

Lemma spin_cases (s : Z) : In s (range 2) <-> s = 0 \/ s = 1.
Proof. rewrite range_spec. lia. Qed.

Lemma step_spec (n : Z) (periodic : bool) (a : Z) :
  0 <= a < n ->
  (periodic || (a + 1 <? n) = true <-> step n periodic a (Z.rem (a + 1) n))
  /\ (forall b, step n periodic a b -> b = Z.rem (a + 1) n).
Proof.
  intros Ha. rewrite Z.rem_mod_nonneg by lia.
  destruct (Z.ltb_spec (a + 1) n) as [Hlt|Hge].
  - rewrite Z.mod_small by lia. rewrite orb_true_r. split.
    + split; [intros _|reflexivity]. split; [assumption|]. left. lia.
    + intros b [_ [[-> _]|(_ & Heq & _)]]; [reflexivity | lia].
  - assert (Hlast : a + 1 = n) by lia. rewrite Hlast, Z.mod_same by lia.
    rewrite orb_false_r. split.
    + split.
      * intros ->. split; [assumption|]. right. repeat split; lia.
      * intros [_ [[_ Hlt]|(Hp & _)]]; [lia | assumption].
    + intros b [_ [[_ Hlt]|(_ & _ & ->)]]; [lia | reflexivity].
Qed.

Lemma createSquareLattice1D_calls (model : Model) (sizeX : Z)
    (periodicX : bool) (t : C) :
  createSquareLattice1D model [sizeX] [periodicX] t
  = Ok (model
        ++ concat
             (map (fun x =>
                     concat
                       (map (fun s =>
                               guarded (periodicX || (x + 1 <? sizeX))
                                 (AddHAAndHC
                                    {| amplitude := t;
                                       toIndex := [Z.rem (x + 1) sizeX; s];
                                       fromIndex := [x; s] |}))
                            (range 2)))
                  (range sizeX))).
Proof.
  unfold createSquareLattice1D.
  change (initializer_at [sizeX] 0) with (Ok sizeX).
  change (initializer_at [periodicX] 0) with (Ok periodicX).
  rewrite !bind_Ok. f_equal.
  apply loop_app. intros x m _. apply loop_app. intros s m' _.
  unfold guarded, addHAAndHC. destruct (_ || _); [reflexivity|].
  now rewrite app_nil_r.
Qed.

Lemma createSquareLattice_chain_bonds :
  forall (sizeX : Z) (periodicX : bool) (t : C),
    exists model,
      createSquareLattice [sizeX] [periodicX] t = Ok model
      /\ forall call,
           In call model
           <-> exists x x' s,
                 call = AddHAAndHC {| amplitude := t;
                                      toIndex := [x'; s];
                                      fromIndex := [x; s] |}
                 /\ step sizeX periodicX x x'
                 /\ (s = 0 \/ s = 1).
Proof.
  intros sizeX periodicX t. unfold createSquareLattice.
  destruct (decide _) as [_|Hn]; [|contradiction]. simpl length.
  rewrite createSquareLattice1D_calls. eexists. split; [reflexivity|].
  intros call. rewrite app_nil_l, In_concat_map. split.
  - intros (x & Hx & Hcall). apply In_concat_map in Hcall as (s & Hs & Hcall).
    apply In_guarded in Hcall as [Hcond ->].
    apply range_spec in Hx. apply spin_cases in Hs.
    exists x, (Z.rem (x + 1) sizeX), s. split; [reflexivity|].
    split; [|assumption]. now apply step_spec.
  - intros (x & x' & s & -> & Hstep & Hs).
    assert (Hx : 0 <= x < sizeX) by apply Hstep.
    exists x. split; [now apply range_spec|].
    apply In_concat_map. exists s. split; [now apply spin_cases|].
    apply In_guarded.
    destruct (step_spec sizeX periodicX x Hx) as [Hcond Huniq].
    pose proof (Huniq x' Hstep) as ->.
    split; [now apply Hcond | reflexivity].
Qed.


Lemma createSquareLattice2D_calls (model : Model) (sizeX sizeY : Z)
    (periodicX periodicY : bool) (t : C) :
  createSquareLattice2D model [sizeX; sizeY] [periodicX; periodicY] t
  = Ok (model
        ++ concat
             (map (fun x =>
                concat
                  (map (fun y =>
                     concat
                       (map (fun s =>
                          guarded (periodicX || (x + 1 <? sizeX))
                            (AddHAAndHC
                               {| amplitude := t;
                                  toIndex := [Z.rem (x + 1) sizeX; y; s];
                                  fromIndex := [x; y; s] |})
                          ++ guarded (periodicY || (y + 1 <? sizeY))
                               (AddHAAndHC
                                  {| amplitude := t;
                                     toIndex := [x; Z.rem (y + 1) sizeY; s];
                                     fromIndex := [x; y; s] |}))
                          (range 2)))
                     (range sizeY)))
                (range sizeX))).
Proof.
  unfold createSquareLattice2D.
  change (initializer_at [sizeX; sizeY] 0) with (Ok sizeX).
  change (initializer_at [sizeX; sizeY] 1) with (Ok sizeY).
  change (initializer_at [periodicX; periodicY] 0) with (Ok periodicX).
  change (initializer_at [periodicX; periodicY] 1) with (Ok periodicY).
  rewrite !bind_Ok. f_equal.
  apply loop_app. intros x m _. apply loop_app. intros y m' _.
  apply loop_app. intros s m'' _.
  unfold guarded, addHAAndHC.
  destruct (periodicX || _), (periodicY || _); simpl;
    rewrite <- ?app_assoc, ?app_nil_r; reflexivity.
Qed.

Lemma createSquareLattice_square_bonds :
  forall (sizeX sizeY : Z) (periodicX periodicY : bool) (t : C),
    exists model,
      createSquareLattice [sizeX; sizeY] [periodicX; periodicY] t = Ok model
      /\ forall call,
           In call model
           <-> exists x y x' y' s,
                 call = AddHAAndHC {| amplitude := t;
                                      toIndex := [x'; y'; s];
                                      fromIndex := [x; y; s] |}
                 /\ ((step sizeX periodicX x x' /\ y' = y /\ 0 <= y < sizeY)
                     \/ (step sizeY periodicY y y' /\ x' = x
                         /\ 0 <= x < sizeX))
                 /\ (s = 0 \/ s = 1).
Proof.
  intros sizeX sizeY periodicX periodicY t. unfold createSquareLattice.
  destruct (decide _) as [_|Hn]; [|contradiction]. simpl length.
  rewrite createSquareLattice2D_calls. eexists. split; [reflexivity|].
  intros call. rewrite app_nil_l, In_concat_map. split.
  - intros (x & Hx & Hcall). apply In_concat_map in Hcall as (y & Hy & Hcall).
    apply In_concat_map in Hcall as (s & Hs & Hcall).
    apply range_spec in Hx. apply range_spec in Hy. apply spin_cases in Hs.
    apply in_app_or in Hcall as [Hcall|Hcall];
      apply In_guarded in Hcall as [Hcond ->].
    + exists x, y, (Z.rem (x + 1) sizeX), y, s. split; [reflexivity|].
      split; [|assumption]. left. split; [now apply step_spec | auto].
    + exists x, y, x, (Z.rem (y + 1) sizeY), s. split; [reflexivity|].
      split; [|assumption]. right. split; [now apply step_spec | auto].
  - intros (x & y & x' & y' & s & -> & Hbond & Hs).
    assert (Hxy : 0 <= x < sizeX /\ 0 <= y < sizeY).
    { destruct Hbond as [(Hstep & _ & Hy)|(Hstep & _ & Hx)].
      - split; [apply Hstep | assumption].
      - split; [assumption | apply Hstep]. }
    destruct Hxy as [Hx Hy].
    exists x. split; [now apply range_spec|].
    apply In_concat_map. exists y. split; [now apply range_spec|].
    apply In_concat_map. exists s. split; [now apply spin_cases|].
    apply in_or_app.
    destruct Hbond as [(Hstep & -> & _)|(Hstep & -> & _)]; [left | right];
      apply In_guarded.
    + destruct (step_spec sizeX periodicX x Hx) as [Hcond Huniq].
      pose proof (Huniq x' Hstep) as ->.
      split; [now apply Hcond | reflexivity].
    + destruct (step_spec sizeY periodicY y Hy) as [Hcond Huniq].
      pose proof (Huniq y' Hstep) as ->.
      split; [now apply Hcond | reflexivity].
Qed.


Lemma createSquareLattice3D_calls (model : Model) (sizeX sizeY sizeZ : Z)
    (periodicX periodicY periodicZ : bool) (t : C) :
  createSquareLattice3D model [sizeX; sizeY; sizeZ]
    [periodicX; periodicY; periodicZ] t
  = Ok (model
        ++ concat
             (map (fun x =>
                concat
                  (map (fun y =>
                     concat
                       (map (fun z =>
                          concat
                            (map (fun s =>
                               guarded (periodicX || (x + 1 <? sizeX))
                                 (AddHAAndHC
                                    {| amplitude := t;
                                       toIndex :=
                                         [Z.rem (x + 1) sizeX; y; z; s];
                                       fromIndex := [x; y; z; s] |})
                               ++ guarded (periodicY || (y + 1 <? sizeY))
                                    (AddHAAndHC
                                       {| amplitude := t;
                                          toIndex :=
                                            [x; Z.rem (y + 1) sizeY; z; s];
                                          fromIndex := [x; y; z; s] |})
                               ++ guarded (periodicZ || (z + 1 <? sizeZ))
                                    (AddHAAndHC
                                       {| amplitude := t;
                                          toIndex :=
                                            [x; y; Z.land (z + 1) sizeZ; s];
                                          fromIndex := [x; y; z; s] |}))
                               (range 2)))
                          (range sizeZ)))
                     (range sizeY)))
                (range sizeX))).
Proof.
  unfold createSquareLattice3D.
  change (initializer_at [sizeX; sizeY; sizeZ] 0) with (Ok sizeX).
  change (initializer_at [sizeX; sizeY; sizeZ] 1) with (Ok sizeY).
  change (initializer_at [sizeX; sizeY; sizeZ] 2) with (Ok sizeZ).
  change (initializer_at [periodicX; periodicY; periodicZ] 0)
    with (Ok periodicX).
  change (initializer_at [periodicX; periodicY; periodicZ] 1)
    with (Ok periodicY).
  change (initializer_at [periodicX; periodicY; periodicZ] 2)
    with (Ok periodicZ).
  rewrite !bind_Ok. f_equal.
  apply loop_app. intros x m _. apply loop_app. intros y m1 _.
  apply loop_app. intros z m2 _. apply loop_app. intros s m3 _.
  unfold guarded, addHAAndHC.
  destruct (periodicX || _), (periodicY || _), (periodicZ || _); simpl;
    rewrite <- ?app_assoc, ?app_nil_r; reflexivity.
Qed.

Lemma createSquareLattice3D_In (sizeX sizeY sizeZ : Z)
    (periodicX periodicY periodicZ : bool) (t : C) (call : ModelCall) :
  In call
    (concat
       (map (fun x =>
          concat
            (map (fun y =>
               concat
                 (map (fun z =>
                    concat
                      (map (fun s =>
                         guarded (periodicX || (x + 1 <? sizeX))
                           (AddHAAndHC
                              {| amplitude := t;
                                 toIndex := [Z.rem (x + 1) sizeX; y; z; s];
                                 fromIndex := [x; y; z; s] |})
                         ++ guarded (periodicY || (y + 1 <? sizeY))
                              (AddHAAndHC
                                 {| amplitude := t;
                                    toIndex := [x; Z.rem (y + 1) sizeY; z; s];
                                    fromIndex := [x; y; z; s] |})
                         ++ guarded (periodicZ || (z + 1 <? sizeZ))
                              (AddHAAndHC
                                 {| amplitude := t;
                                    toIndex := [x; y; Z.land (z + 1) sizeZ; s];
                                    fromIndex := [x; y; z; s] |}))
                         (range 2)))
                    (range sizeZ)))
               (range sizeY)))
          (range sizeX)))
  <-> exists x y z s,
        0 <= x < sizeX /\ 0 <= y < sizeY /\ 0 <= z < sizeZ
        /\ (s = 0 \/ s = 1)
        /\ ((periodicX || (x + 1 <? sizeX) = true
             /\ call = AddHAAndHC
                         {| amplitude := t;
                            toIndex := [Z.rem (x + 1) sizeX; y; z; s];
                            fromIndex := [x; y; z; s] |})
            \/ (periodicY || (y + 1 <? sizeY) = true
                /\ call = AddHAAndHC
                            {| amplitude := t;
                               toIndex := [x; Z.rem (y + 1) sizeY; z; s];
                               fromIndex := [x; y; z; s] |})
            \/ (periodicZ || (z + 1 <? sizeZ) = true
                /\ call = AddHAAndHC
                            {| amplitude := t;
                               toIndex := [x; y; Z.land (z + 1) sizeZ; s];
                               fromIndex := [x; y; z; s] |})).
Proof.
  rewrite In_concat_map. split.
  - intros (x & Hx & Hcall). apply In_concat_map in Hcall as (y & Hy & Hcall).
    apply In_concat_map in Hcall as (z & Hz & Hcall).
    apply In_concat_map in Hcall as (s & Hs & Hcall).
    apply range_spec in Hx. apply range_spec in Hy. apply range_spec in Hz.
    apply spin_cases in Hs.
    exists x, y, z, s. repeat (split; [assumption|]).
    apply in_app_or in Hcall as [Hcall|Hcall];
      [|apply in_app_or in Hcall as [Hcall|Hcall]];
      apply In_guarded in Hcall; auto.
  - intros (x & y & z & s & Hx & Hy & Hz & Hs & Hcall).
    exists x. split; [now apply range_spec|].
    apply In_concat_map. exists y. split; [now apply range_spec|].
    apply In_concat_map. exists z. split; [now apply range_spec|].
    apply In_concat_map. exists s. split; [now apply spin_cases|].
    rewrite !in_app_iff, !In_guarded. tauto.
Qed.

Lemma addSquareGeometry3D_calls (model : Model) (sizeX sizeY sizeZ : Z) :
  addSquareGeometry3D model [sizeX; sizeY; sizeZ]
  = Ok ((model ++ [CreateGeometry 3 0])
        ++ concat
             (map (fun x =>
                concat
                  (map (fun y =>
                     concat
                       (map (fun z =>
                          concat
                            (map (fun s =>
                               [SetCoordinates [x; y; z; s]
                                  [IZR x; IZR y; IZR z] []])
                               (range 2)))
                          (range sizeZ)))
                     (range sizeY)))
                (range sizeX))).
Proof.
  unfold addSquareGeometry3D.
  change (initializer_at [sizeX; sizeY; sizeZ] 0) with (Ok sizeX).
  change (initializer_at [sizeX; sizeY; sizeZ] 1) with (Ok sizeY).
  change (initializer_at [sizeX; sizeY; sizeZ] 2) with (Ok sizeZ).
  rewrite !bind_Ok. f_equal.
  apply loop_app. intros x m _. apply loop_app. intros y m1 _.
  apply loop_app. intros z m2 _. apply loop_app. intros s m3 _.
  reflexivity.
Qed.

(** X21. In three dimensions with periodic boundary in the third
    direction, the hopping that starts in the last layer ends in the layer
    with subindex [sizeZ], because the neighbour is formed with [&] where
    the other directions use [%]: the model has a hopping to a site outside
    the lattice, for which [addSquareGeometry] sets no coordinates, and has
    no hopping that closes the ring from the last layer to the first. *)
Theorem createSquareLattice_cube_leaves_the_lattice :
  forall (sizeX sizeY sizeZ : Z) (periodicX periodicY : bool) (t : C),
    2 <= sizeZ ->
    exists model geometry,
      createSquareLattice [sizeX; sizeY; sizeZ] [periodicX; periodicY; true] t
      = Ok model
      /\ addSquareGeometry [] [sizeX; sizeY; sizeZ] = Ok geometry
      /\ forall x y s,
           0 <= x < sizeX -> 0 <= y < sizeY -> s = 0 \/ s = 1 ->
           In (AddHAAndHC {| amplitude := t;
                             toIndex := [x; y; sizeZ; s];
                             fromIndex := [x; y; sizeZ - 1; s] |}) model
           /\ ~ In (AddHAAndHC {| amplitude := t;
                                  toIndex := [x; y; 0; s];
                                  fromIndex := [x; y; sizeZ - 1; s] |}) model
           /\ forall coordinates specifiers,
                ~ In (SetCoordinates [x; y; sizeZ; s] coordinates specifiers)
                     geometry.
Proof.
  intros sizeX sizeY sizeZ periodicX periodicY t HZ.
  unfold createSquareLattice, addSquareGeometry.
  destruct (decide _) as [_|Hn]; [|contradiction]. simpl length.
  rewrite createSquareLattice3D_calls, addSquareGeometry3D_calls.
  eexists. eexists. split; [reflexivity|]. split; [reflexivity|].
  intros x y s Hx Hy Hs. rewrite !app_nil_l. split; [|split].
  - apply createSquareLattice3D_In. exists x, y, (sizeZ - 1), s.
    repeat (split; [assumption || lia|]).
    right. right. split; [reflexivity|].
    replace (sizeZ - 1 + 1) with sizeZ by lia. now rewrite Z.land_diag.
  - intros Hin. apply createSquareLattice3D_In in Hin
      as (x0 & y0 & z0 & s0 & Hx0 & Hy0 & Hz0 & Hs0 & Hcall).
    destruct Hcall as [[_ Hcall]|[[_ Hcall]|[_ Hcall]]];
      injection Hcall as Hx2 Hy2 Hz2 Hs2 Hx1 Hy1 Hz1 Hs1; try lia.
    subst z0. replace (sizeZ - 1 + 1) with sizeZ in Hz2 by lia.
    rewrite Z.land_diag in Hz2. lia.
  - intros coordinates specifiers [[=]|Hin].
    apply In_concat_map in Hin as (x0 & Hx0 & Hin).
    apply In_concat_map in Hin as (y0 & Hy0 & Hin).
    apply In_concat_map in Hin as (z0 & Hz0 & Hin).
    apply In_concat_map in Hin as (s0 & Hs0 & Hin).
    apply range_spec in Hz0.
    destruct Hin as [Hin|[]]. injection Hin as Hx1 Hy1 Hz1 Hs1 _ _. lia.
Qed.


Lemma step_target (n : Z) (periodic : bool) (a b : Z) :
  step n periodic a b -> 0 <= a < n /\ 0 <= b < n.
Proof. intros [Ha [[-> Hb]|(_ & -> & ->)]]; lia. Qed.

Lemma addSquareGeometry1D_calls (model : Model) (sizeX : Z) :
  addSquareGeometry1D model [sizeX]
  = Ok ((model ++ [CreateGeometry 3 0])
        ++ concat
             (map (fun x =>
                     concat
                       (map (fun s =>
                               [SetCoordinates [x; s] [IZR x; 0%R; 0%R] []])
                            (range 2)))
                  (range sizeX))).
Proof.
  unfold addSquareGeometry1D.
  change (initializer_at [sizeX] 0) with (Ok sizeX).
  rewrite !bind_Ok. f_equal.
  apply loop_app. intros x m _. apply loop_app. intros s m1 _.
  reflexivity.
Qed.

Lemma addSquareGeometry2D_calls (model : Model) (sizeX sizeY : Z) :
  addSquareGeometry2D model [sizeX; sizeY]
  = Ok ((model ++ [CreateGeometry 3 0])
        ++ concat
             (map (fun x =>
                concat
                  (map (fun y =>
                     concat
                       (map (fun s =>
                               [SetCoordinates [x; y; s]
                                  [IZR x; IZR y; 0%R] []])
                            (range 2)))
                     (range sizeY)))
                (range sizeX))).
Proof.
  unfold addSquareGeometry2D.
  change (initializer_at [sizeX; sizeY] 0) with (Ok sizeX).
  change (initializer_at [sizeX; sizeY] 1) with (Ok sizeY).
  rewrite !bind_Ok. f_equal.
  apply loop_app. intros x m _. apply loop_app. intros y m1 _.
  apply loop_app. intros s m2 _. reflexivity.
Qed.

(** X22. The chain [createSquareLattice] builds from one size: the
    calls on the model are exactly the hoppings, for either spin, from a
    site to the next one, and with periodic boundary from the last site to
    the first; with open boundary none wraps around. Every site such a
    hopping names is given coordinates by [addSquareGeometry]. *)
Theorem createSquareLattice_chain :
  forall (sizeX : Z) (periodicX : bool) (t : C),
    exists model geometry,
      createSquareLattice [sizeX] [periodicX] t = Ok model
      /\ addSquareGeometry [] [sizeX] = Ok geometry
      /\ (forall call,
            In call model
            <-> exists x x' s,
                  call = AddHAAndHC {| amplitude := t;
                                       toIndex := [x'; s];
                                       fromIndex := [x; s] |}
                  /\ step sizeX periodicX x x'
                  /\ (s = 0 \/ s = 1))
      /\ (forall ha,
            In (AddHAAndHC ha) model ->
            (exists c, In (SetCoordinates (toIndex ha) c []) geometry)
            /\ (exists c, In (SetCoordinates (fromIndex ha) c []) geometry)).
Proof.
  intros sizeX periodicX t.
  destruct (createSquareLattice_chain_bonds sizeX periodicX t)
    as (model & Hmodel & Hbonds).
  exists model. eexists. split; [assumption|].
  unfold addSquareGeometry. simpl length.
  rewrite addSquareGeometry1D_calls. split; [reflexivity|].
  split; [assumption|].
  intros ha Hha. apply Hbonds in Hha as (x & x' & s & [= ->] & Hstep & Hs).
  apply step_target in Hstep as [Hx Hx']. simpl.
  assert (Hsite : forall a, 0 <= a < sizeX ->
             In (SetCoordinates [a; s] [IZR a; 0%R; 0%R] [])
                (([] ++ [CreateGeometry 3 0])
                 ++ concat
                      (map (fun x =>
                              concat
                                (map (fun s =>
                                        [SetCoordinates [x; s]
                                           [IZR x; 0%R; 0%R] []])
                                     (range 2)))
                           (range sizeX)))).
  { intros a Ha. apply in_or_app. right.
    apply In_concat_map. exists a. split; [now apply range_spec|].
    apply In_concat_map. exists s. split; [now apply spin_cases|].
    now left. }
  split; eexists; apply Hsite; assumption.
Qed.

(** X23. The same for two sizes: the calls are exactly the hoppings
    by one step in one of the two directions, within the lattice, and
    every site they name is given coordinates by [addSquareGeometry]. *)
Theorem createSquareLattice_square :
  forall (sizeX sizeY : Z) (periodicX periodicY : bool) (t : C),
    exists model geometry,
      createSquareLattice [sizeX; sizeY] [periodicX; periodicY] t = Ok model
      /\ addSquareGeometry [] [sizeX; sizeY] = Ok geometry
      /\ (forall call,
            In call model
            <-> exists x y x' y' s,
                  call = AddHAAndHC {| amplitude := t;
                                       toIndex := [x'; y'; s];
                                       fromIndex := [x; y; s] |}
                  /\ ((step sizeX periodicX x x' /\ y' = y /\ 0 <= y < sizeY)
                      \/ (step sizeY periodicY y y' /\ x' = x
                          /\ 0 <= x < sizeX))
                  /\ (s = 0 \/ s = 1))
      /\ (forall ha,
            In (AddHAAndHC ha) model ->
            (exists c, In (SetCoordinates (toIndex ha) c []) geometry)
            /\ (exists c, In (SetCoordinates (fromIndex ha) c []) geometry)).
Proof.
  intros sizeX sizeY periodicX periodicY t.
  destruct (createSquareLattice_square_bonds sizeX sizeY periodicX periodicY t)
    as (model & Hmodel & Hbonds).
  exists model. eexists. split; [assumption|].
  unfold addSquareGeometry. simpl length.
  rewrite addSquareGeometry2D_calls. split; [reflexivity|].
  split; [assumption|].
  intros ha Hha.
  apply Hbonds in Hha as (x & y & x' & y' & s & [= ->] & Hbond & Hs).
  simpl.
  assert (Hsite : forall a b, 0 <= a < sizeX -> 0 <= b < sizeY ->
             In (SetCoordinates [a; b; s] [IZR a; IZR b; 0%R] [])
                (([] ++ [CreateGeometry 3 0])
                 ++ concat
                      (map (fun x =>
                         concat
                           (map (fun y =>
                              concat
                                (map (fun s =>
                                        [SetCoordinates [x; y; s]
                                           [IZR x; IZR y; 0%R] []])
                                     (range 2)))
                              (range sizeY)))
                         (range sizeX)))).
  { intros a b Ha Hb. apply in_or_app. right.
    apply In_concat_map. exists a. split; [now apply range_spec|].
    apply In_concat_map. exists b. split; [now apply range_spec|].
    apply In_concat_map. exists s. split; [now apply spin_cases|].
    now left. }
  destruct Hbond as [(Hstep & -> & Hy)|(Hstep & -> & Hx)];
    apply step_target in Hstep as [H1 H2];
    split; eexists; apply Hsite; assumption.
Qed.

(** X24. [createSquareLattice] returns a model exactly when [size]
    and [periodic] have the same number of components and that number is
    1, 2 or 3; a different number of components fails the assertion, and
    equal numbers outside 1 to 3 (zero included) end in [TBTKExit]. *)
Theorem createSquareLattice_dimensions :
  forall (size : list Z) (periodic : list bool) (t : C),
    match createSquareLattice size periodic t with
    | Ok _ =>
        length size = length periodic /\ (1 <= length size <= 3)%nat
    | Fail f =>
        (length size <> length periodic
         /\ f = TBTKAssertFailed "ModelFactory::createSquareLattice()"
                  sizePeriodicMismatch)
        \/ (length size = length periodic
            /\ ~ (1 <= length size <= 3)%nat
            /\ f = TBTKExit "ModelFactory::createSquareLattice()"
                     unsupportedDimensions)
    end.
Proof.
  intros size periodic t. unfold createSquareLattice.
  destruct (decide _) as [Hlen|Hlen]; [|left; auto].
  destruct size as [|sx [|sy [|sz [|extra size]]]];
    destruct periodic as [|px [|py [|pz [|more periodic]]]];
    try discriminate Hlen; simpl length.
  - right. split; [reflexivity|]. split; [simpl; lia | reflexivity].
  - rewrite createSquareLattice1D_calls. simpl. split; [reflexivity | lia].
  - rewrite createSquareLattice2D_calls. simpl. split; [reflexivity | lia].
  - rewrite createSquareLattice3D_calls. simpl. split; [reflexivity | lia].
  - right. split; [assumption|]. split; [simpl; lia | reflexivity].
Qed.


Lemma createHexagonalLattice_calls (sizeX sizeY : Z) (t : C) :
  createHexagonalLattice [sizeX; sizeY] [false; false] t
  = Ok (concat
          (map (fun x =>
             concat
               (map (fun y =>
                  concat
                    (map (fun s =>
                       [AddHAAndHC {| amplitude := t;
                                      toIndex := [x; y; 1; s];
                                      fromIndex := [x; y; 0; s] |};
                        AddHAAndHC {| amplitude := t;
                                      toIndex := [x; y; 2; s];
                                      fromIndex := [x; y; 1; s] |};
                        AddHAAndHC {| amplitude := t;
                                      toIndex := [x; y; 3; s];
                                      fromIndex := [x; y; 2; s] |}]
                       ++ guarded (x + 1 <? sizeX)
                            (AddHAAndHC
                               {| amplitude := t;
                                  toIndex := [Z.rem (x + 1) sizeX; y; 0; s];
                                  fromIndex := [x; y; 3; s] |})
                       ++ (if y + 1 <? sizeY then
                             [AddHAAndHC
                                {| amplitude := t;
                                   toIndex := [x; Z.rem (y + 1) sizeY; 0; s];
                                   fromIndex := [x; y; 1; s] |};
                              AddHAAndHC
                                {| amplitude := t;
                                   toIndex := [x; Z.rem (y + 1) sizeY; 3; s];
                                   fromIndex := [x; y; 2; s] |}]
                           else []))
                       (range 2)))
                  (range sizeY)))
             (range sizeX))).
Proof.
  unfold createHexagonalLattice.
  destruct (decide (length [sizeX; sizeY] = length [false; false]))
    as [_|Hn]; [|contradiction].
  destruct (decide (length [sizeX; sizeY] = 2%nat)) as [_|Hn];
    [|contradiction].
  change (initializer_at [sizeX; sizeY] 0) with (Ok sizeX).
  change (initializer_at [sizeX; sizeY] 1) with (Ok sizeY).
  change (initializer_at [false; false] 0) with (Ok false).
  change (initializer_at [false; false] 1) with (Ok false).
  rewrite !bind_Ok. f_equal.
  rewrite <- (app_nil_l (concat _)).
  apply loop_app. intros x m _. apply loop_app. intros y m1 _.
  apply loop_app. intros s m2 _.
  unfold guarded, addHAAndHC. cbn [orb].
  destruct (x + 1 <? sizeX), (y + 1 <? sizeY); simpl;
    rewrite <- ?app_assoc, ?app_nil_r; reflexivity.
Qed.

Lemma addHexagonalGeometry_calls (sizeX sizeY : Z) :
  addHexagonalGeometry [] [sizeX; sizeY]
  = Ok ([CreateGeometry 3 0]
        ++ concat
             (map (fun x =>
                concat
                  (map (fun y =>
                     concat
                       (map (fun s =>
                          [SetCoordinates [x; y; 0; s] (hexagonalSite x y 0) [];
                           SetCoordinates [x; y; 1; s] (hexagonalSite x y 1) [];
                           SetCoordinates [x; y; 2; s] (hexagonalSite x y 2) [];
                           SetCoordinates [x; y; 3; s] (hexagonalSite x y 3) []])
                          (range 2)))
                     (range sizeY)))
                (range sizeX))).
Proof.
  unfold addHexagonalGeometry.
  destruct (decide _) as [_|Hn]; [|contradiction].
  change (initializer_at [sizeX; sizeY] 0) with (Ok sizeX).
  change (initializer_at [sizeX; sizeY] 1) with (Ok sizeY).
  rewrite !bind_Ok. f_equal.
  apply loop_app. intros x m _. apply loop_app. intros y m1 _.
  apply loop_app. intros s m2 _.
  unfold setCoordinates, hexagonalSite. simpl.
  rewrite <- !app_assoc. reflexivity.
Qed.

Lemma hexagonalSite_set (sizeX sizeY x y sub s : Z) :
  0 <= x < sizeX -> 0 <= y < sizeY -> 0 <= sub <= 3 -> s = 0 \/ s = 1 ->
  In (SetCoordinates [x; y; sub; s] (hexagonalSite x y sub) [])
     ([CreateGeometry 3 0]
      ++ concat
           (map (fun x =>
              concat
                (map (fun y =>
                   concat
                     (map (fun s =>
                        [SetCoordinates [x; y; 0; s] (hexagonalSite x y 0) [];
                         SetCoordinates [x; y; 1; s] (hexagonalSite x y 1) [];
                         SetCoordinates [x; y; 2; s] (hexagonalSite x y 2) [];
                         SetCoordinates [x; y; 3; s] (hexagonalSite x y 3) []])
                        (range 2)))
                   (range sizeY)))
              (range sizeX))).
Proof.
  intros Hx Hy Hsub Hs. apply in_or_app. right.
  apply In_concat_map. exists x. split; [now apply range_spec|].
  apply In_concat_map. exists y. split; [now apply range_spec|].
  apply In_concat_map. exists s. split; [now apply spin_cases|].
  assert (sub = 0 \/ sub = 1 \/ sub = 2 \/ sub = 3) as [-> | [-> | [-> | ->]]]
    by lia; simpl; auto.
Qed.

(** X25. With open boundaries, every hopping of the hexagonal lattice
    joins two sites to which [addHexagonalGeometry] gives coordinates, and
    these lie at distance 1 from each other. *)
Theorem hexagonal_bonds_have_length_one :
  forall (sizeX sizeY : Z) (t : C),
    exists model geometry,
      createHexagonalLattice [sizeX; sizeY] [false; false] t = Ok model
      /\ addHexagonalGeometry [] [sizeX; sizeY] = Ok geometry
      /\ forall call,
           In call model ->
           exists ha a b a' b',
             call = AddHAAndHC ha
             /\ In (SetCoordinates (toIndex ha) [a; b; 0%R] []) geometry
             /\ In (SetCoordinates (fromIndex ha) [a'; b'; 0%R] []) geometry
             /\ ((a - a') ^ 2 + (b - b') ^ 2 = 1)%R.
Proof.
  intros sizeX sizeY t.
  rewrite createHexagonalLattice_calls, addHexagonalGeometry_calls.
  match goal with
  | |- context [Ok ([CreateGeometry 3 0] ++ ?rest)] =>
      set (geometry := [CreateGeometry 3 0] ++ rest)
  end.
  eexists. exists geometry. split; [reflexivity|]. split; [reflexivity|].
  intros call Hcall.
  apply In_concat_map in Hcall as (x & Hx & Hcall).
  apply In_concat_map in Hcall as (y & Hy & Hcall).
  apply In_concat_map in Hcall as (s & Hs & Hcall).
  apply range_spec in Hx. apply range_spec in Hy. apply spin_cases in Hs.
  pose proof (sqrt_sqrt 3 ltac:(lra)) as H3.
  assert (Hbond : forall x' y' sub sub' ha,
             0 <= x' < sizeX -> 0 <= y' < sizeY ->
             0 <= sub <= 3 -> 0 <= sub' <= 3 ->
             ha = {| amplitude := t;
                     toIndex := [x'; y'; sub'; s];
                     fromIndex := [x; y; sub; s] |} ->
             (exists a b a' b',
                 hexagonalSite x' y' sub' = [a; b; 0%R]
                 /\ hexagonalSite x y sub = [a'; b'; 0%R]
                 /\ ((a - a') ^ 2 + (b - b') ^ 2 = 1)%R) ->
             exists ha0 a b a' b',
               AddHAAndHC ha = AddHAAndHC ha0
               /\ In (SetCoordinates (toIndex ha0) [a; b; 0%R] []) geometry
               /\ In (SetCoordinates (fromIndex ha0) [a'; b'; 0%R] []) geometry
               /\ ((a - a') ^ 2 + (b - b') ^ 2 = 1)%R).
  { intros x' y' sub sub' ha Hx' Hy' Hsub Hsub' -> (a & b & a' & b' & Hto & Hfrom & Hd).
    exists {| amplitude := t; toIndex := [x'; y'; sub'; s];
              fromIndex := [x; y; sub; s] |}, a, b, a', b'.
    split; [reflexivity|]. simpl. rewrite <- Hto, <- Hfrom.
    subst geometry.
    split; [now apply hexagonalSite_set|].
    split; [now apply hexagonalSite_set | assumption]. }
  simpl in Hcall.
  destruct Hcall as [<-|[<-|[<-|Hcall]]].
  - eapply Hbond; try reflexivity; try lia.
    unfold hexagonalSite. simpl. do 4 eexists.
    split; [reflexivity|]. split; [reflexivity|]. nra.
  - eapply Hbond; try reflexivity; try lia.
    unfold hexagonalSite. simpl. do 4 eexists.
    split; [reflexivity|]. split; [reflexivity|]. nra.
  - eapply Hbond; try reflexivity; try lia.
    unfold hexagonalSite. simpl. do 4 eexists.
    split; [reflexivity|]. split; [reflexivity|]. nra.
  - apply in_app_or in Hcall as [Hcall|Hcall].
    + apply In_guarded in Hcall as [Hcond ->].
      apply Z.ltb_lt in Hcond.
      rewrite Z.rem_small by lia.
      eapply Hbond; try reflexivity; try lia.
      unfold hexagonalSite. simpl. do 4 eexists.
      split; [reflexivity|]. split; [reflexivity|].
      rewrite plus_IZR. nra.
    + destruct (Z.ltb_spec (y + 1) sizeY) as [Hlt|]; [|contradiction].
      rewrite Z.rem_small in Hcall by lia.
      destruct Hcall as [<-|[<-|[]]].
      * eapply Hbond; try reflexivity; try lia.
        unfold hexagonalSite. simpl. do 4 eexists.
        split; [reflexivity|]. split; [reflexivity|].
        rewrite plus_IZR. nra.
      * eapply Hbond; try reflexivity; try lia.
        unfold hexagonalSite. simpl. do 4 eexists.
        split; [reflexivity|]. split; [reflexivity|].
        rewrite plus_IZR. nra.
Qed.


Lemma fold_left_app_map {A B : Type} (f : A -> B) (l : list A) :
  forall (acc : list B),
    fold_left (fun acc x => acc ++ [f x]) l acc = acc ++ map f l.
Proof.
  induction l as [|x l IH]; intros acc; simpl.
  - now rewrite app_nil_r.
  - rewrite IH. now rewrite <- app_assoc.
Qed.

Lemma mergeAmplitudes_calls (n : nat) (m : Source) (model : Model) :
  mergeAmplitudes n m model
  = model ++ map (fun ha => AddHA (merged n ha)) (amplitudeSet m).
Proof.
  unfold mergeAmplitudes, addHA.
  apply (fold_left_app_map (fun ha => AddHA (merged n ha))).
Qed.

Lemma forModels_amplitudes :
  forall (models : list Source) (k : nat) (model : Model),
    exists added,
      forModels (fun n m model => Ok (mergeAmplitudes n m model)) k models
        model = Ok (model ++ added)
      /\ forall call,
           In call added
           <-> exists n m ha,
                 models !! n = Some m /\ In ha (amplitudeSet m)
                 /\ call = AddHA (merged (k + n) ha).
Proof.
  induction models as [|m rest IH]; intros k model; simpl.
  - exists []. rewrite app_nil_r. split; [reflexivity|].
    intros call. split; [intros [] | intros (n & m & ha & Hm & _)].
    discriminate.
  - rewrite mergeAmplitudes_calls.
    destruct (IH (S k)
                (model ++ map (fun ha => AddHA (merged k ha)) (amplitudeSet m)))
      as (added & -> & Hadded).
    exists (map (fun ha => AddHA (merged k ha)) (amplitudeSet m) ++ added).
    rewrite app_assoc. split; [reflexivity|].
    intros call. rewrite in_app_iff, in_map_iff, Hadded. split.
    + intros [(ha & <- & Hha)|(n & m' & ha & Hm' & Hha & ->)].
      * exists 0%nat, m, ha. rewrite Nat.add_0_r. auto.
      * exists (S n), m', ha. rewrite Nat.add_succ_r. auto.
    + intros ([|n] & m' & ha & Hm' & Hha & ->).
      * left. simpl in Hm'. injection Hm' as <-.
        exists ha. rewrite Nat.add_0_r. auto.
      * right. exists n, m', ha. rewrite Nat.add_succ_r. auto.
Qed.

Lemma geometriesExist_true :
  forall (models : list Source) (out out' : list string),
    geometriesExist models out = (out', true) ->
    Forall (fun m => exists g, geometry m = Some g /\ dimensions g = 3) models.
Proof.
  induction models as [|m rest IH]; intros out out'; simpl; [constructor|].
  destruct (geometry m) as [g|] eqn:Hg; [|discriminate].
  destruct (Z.eqb_spec (dimensions g) 3) as [Hd|]; [|discriminate].
  intros Hrest. constructor; [eauto | eapply IH; eassumption].
Qed.

Lemma forModels_coordinates :
  forall (models : list Source) (k : nat) (model : Model),
    Forall (fun m => exists g, geometry m = Some g /\ dimensions g = 3)
           models ->
    exists added,
      forModels mergeCoordinates k models model = Ok (model ++ added)
      /\ Forall (fun call => exists index coordinates,
                     call = SetCoordinates index coordinates []) added.
Proof.
  induction models as [|m rest IH]; intros k model Hall; simpl.
  - exists []. rewrite app_nil_r. split; [reflexivity | constructor].
  - apply Forall_cons in Hall as [(g & Hg & _) Hrest].
    unfold mergeCoordinates at 1. rewrite Hg, bind_Ok.
    unfold setCoordinates.
    rewrite (fold_left_app_map
               (fun ha =>
                  SetCoordinates (Z.of_nat k :: fromIndex ha)
                    [getCoordinates g (getBasisIndex m (fromIndex ha)) 0%nat;
                     getCoordinates g (getBasisIndex m (fromIndex ha)) 1%nat;
                     getCoordinates g (getBasisIndex m (fromIndex ha)) 2%nat]
                    [])).
    match goal with
    | |- context [forModels mergeCoordinates (S k) rest ?m1] =>
        destruct (IH (S k) m1 Hrest) as (added & -> & Hadded)
    end.
    eexists. rewrite <- app_assoc. split; [reflexivity|].
    apply Forall_app. split; [|assumption].
    apply Forall_map, Forall_forall. intros ha _. simpl. eauto.
Qed.

(** X26. [merge] always returns a model; its hopping amplitudes are
    those of the merged models with the number of the model put in front
    of the index, but with the to-index built from the from-index: every
    hopping amplitude of the merged model joins a site to itself. *)
Theorem merge_keeps_no_hopping_between_sites :
  forall (models : list Source),
    exists model,
      snd (merge models) = Ok model
      /\ (forall ha,
            In (AddHA ha) model
            <-> exists n m ha0,
                  models !! n = Some m /\ In ha0 (amplitudeSet m)
                  /\ ha = merged n ha0)
      /\ (forall ha, In (AddHA ha) model -> toIndex ha = fromIndex ha).
Proof.
  intros models. unfold merge.
  destruct (forModels_amplitudes models 0 []) as (added & Hrun & Hadded).
  rewrite Hrun. simpl app.
  destruct (geometriesExist models []) as [out exists_] eqn:Hgeo.
  cbn [snd]. rewrite ?bind_Ok. cbv zeta.
  assert (Hmodel : exists rest,
             (if exists_
              then forModels mergeCoordinates 0 models
                     ((added ++ [Construct]) ++ [CreateGeometry 3 0])
              else Ok (added ++ [Construct]))
             = Ok (added ++ rest)
             /\ forall ha, ~ In (AddHA ha) rest).
  { destruct exists_.
    - apply geometriesExist_true in Hgeo.
      destruct (forModels_coordinates models 0
                  ((added ++ [Construct]) ++ [CreateGeometry 3 0]) Hgeo)
        as (sets & -> & Hsets).
      exists ([Construct] ++ [CreateGeometry 3 0] ++ sets).
      rewrite <- !app_assoc. split; [reflexivity|].
      intros ha [Hin|[Hin|Hin]]; try discriminate.
      rewrite Forall_forall in Hsets. apply list_elem_of_In in Hin.
      destruct (Hsets _ Hin) as (index & coordinates & Heq).
      discriminate.
    - exists [Construct]. split; [reflexivity|].
      intros ha [Hin|[]]. discriminate. }
  destruct Hmodel as (rest & -> & Hrest).
  eexists. split; [reflexivity|].
  assert (Hiff : forall ha,
             In (AddHA ha) (added ++ rest)
             <-> exists n m ha0,
                   models !! n = Some m /\ In ha0 (amplitudeSet m)
                   /\ ha = merged n ha0).
  { intros ha. rewrite in_app_iff, Hadded. split.
    - intros [(n & m & ha0 & Hm & Hha & [= ->])|Hin];
        [exists n, m, ha0; auto | now apply Hrest in Hin].
    - intros (n & m & ha0 & Hm & Hha & ->). left. eauto 10. }
  split; [exact Hiff|].
  intros ha Hha. apply Hiff in Hha as (n & m & ha0 & _ & _ & ->).
  reflexivity.
Qed.


(** *** The two variants of createModel *)

Section CreateModelFacts.

Variable getMatrixElement : AbstractState -> AbstractState -> C.
Variable stateIndex : AbstractState -> Index.
Variable getSpecifiers : AbstractState -> list Z.

Lemma addMatrixElements_calls (ket : AbstractState) :
  forall (bras : list AbstractState) (model : Model),
    addMatrixElements getMatrixElement stateIndex ket bras model
    = model ++ concat (map (hopping getMatrixElement stateIndex ket) bras).
Proof.
  unfold addMatrixElements.
  induction bras as [|bra rest IH]; intros model; simpl.
  - now rewrite app_nil_r.
  - rewrite IH. unfold addMatrixElement, hopping, addHA.
    destruct (isNonZero _); simpl; [now rewrite <- app_assoc | reflexivity].
Qed.

Lemma allPairs_calls (states : list AbstractState) :
  forall (kets : list AbstractState) (model : Model),
    fold_left
      (fun model ket =>
         addMatrixElements getMatrixElement stateIndex ket states model)
      kets model
    = model ++ concat (map (fun ket => concat (map (hopping getMatrixElement stateIndex ket) states)) kets).
Proof.
  induction kets as [|ket rest IH]; intros model; simpl.
  - now rewrite app_nil_r.
  - rewrite IH, addMatrixElements_calls. now rewrite <- app_assoc.
Qed.

Lemma addOverlapping_calls (tree : StateTreeNode)
    (found : AbstractState -> list AbstractState) :
  forall (kets : list AbstractState) (model : Model),
    Forall (fun ket =>
              getOverlappingStatesOf tree (coordinates ket) (extent ket)
              = Ok (found ket)) kets ->
    addOverlapping getMatrixElement stateIndex tree kets model
    = Ok (model
          ++ concat (map (fun ket => concat (map (hopping getMatrixElement stateIndex ket) (found ket)))
                       kets)).
Proof.
  induction kets as [|ket rest IH]; intros model Hfound; simpl.
  - now rewrite app_nil_r.
  - apply Forall_cons in Hfound as [Hket Hrest].
    rewrite Hket, bind_Ok, IH by assumption.
    rewrite addMatrixElements_calls. now rewrite <- app_assoc.
Qed.

Lemma hopping_filter (ket : AbstractState) (keep : AbstractState -> bool) :
  forall (bras : list AbstractState),
    (forall bra, In bra bras ->
       isNonZero (getMatrixElement ket bra) = true -> keep bra = true) ->
    concat (map (hopping getMatrixElement stateIndex ket) (List.filter keep bras))
    = concat (map (hopping getMatrixElement stateIndex ket) bras).
Proof.
  induction bras as [|bra rest IH]; intros Hkeep; [reflexivity|]. simpl.
  assert (Hrest : concat (map (hopping getMatrixElement stateIndex ket) (List.filter keep rest))
                  = concat (map (hopping getMatrixElement stateIndex ket) rest)).
  { apply IH. intros b Hb. apply Hkeep. now right. }
  destruct (keep bra) eqn:Hk; simpl; rewrite Hrest; [reflexivity|].
  unfold hopping at 2.
  destruct (isNonZero (getMatrixElement ket bra)) eqn:Hnz; [|reflexivity].
  rewrite (Hkeep bra) in Hk by (assumption || now left). discriminate.
Qed.

Lemma concat_map_Permutation {A B : Type} (f : A -> list B) (l l' : list A) :
  l ≡ₚ l' -> concat (map f l) ≡ₚ concat (map f l').
Proof.
  induction 1 as [|x l l' _ IH|x y l|l l' l'' _ IH1 _ IH2]; simpl.
  - reflexivity.
  - now rewrite IH.
  - rewrite !app_assoc. now rewrite (Permutation_app_comm (f y) (f x)).
  - now rewrite IH1.
Qed.

Lemma concat_map_pointwise {A B : Type} (f g : A -> list B) (l : list A) :
  (forall x, In x l -> f x ≡ₚ g x) ->
  concat (map f l) ≡ₚ concat (map g l).
Proof.
  induction l as [|x l IH]; intros Hfg; simpl; [reflexivity|].
  rewrite (Hfg x) by now left. rewrite IH; [reflexivity|].
  intros y Hy. apply Hfg. now right.
Qed.

Lemma finishModel_app (states : list AbstractState) (model out : Model) :
  finishModel stateIndex getSpecifiers states model = Ok out ->
  exists rest,
    out = model ++ rest
    /\ Forall (fun call => forall ha, call <> AddHA ha) rest
    /\ forall model',
         finishModel stateIndex getSpecifiers states model'
         = Ok (model' ++ rest).
Proof.
  unfold finishModel.
  destruct (vec_at states 0) as [first|f]; simpl; [|discriminate].
  destruct (assertAll _ (drop 1 states) incompatibleCoordinates) as [[]|f];
    simpl; [|discriminate].
  destruct (assertAll _ (drop 1 states) incompatibleSpecifiers) as [[]|f];
    simpl; [|discriminate].
  intros [= <-].
  exists ([Construct;
           CreateGeometry (Z.of_nat (length (coordinates first)))
             (Z.of_nat (length (getSpecifiers first)))]
          ++ map (fun state =>
                    SetCoordinates (stateIndex state) (coordinates state)
                      (getSpecifiers state)) states).
  assert (Hfold : forall model0,
             fold_left
               (fun model state =>
                  model ++ [SetCoordinates (stateIndex state)
                              (coordinates state) (getSpecifiers state)])
               states model0
             = model0
               ++ map (fun state =>
                         SetCoordinates (stateIndex state) (coordinates state)
                           (getSpecifiers state)) states).
  { intros model0.
    apply (fold_left_app_map
             (fun state =>
                SetCoordinates (stateIndex state) (coordinates state)
                  (getSpecifiers state))). }
  split; [|split].
  - rewrite Hfold. now rewrite <- app_assoc.
  - apply Forall_app. split.
    + constructor; [discriminate|]. constructor; [discriminate | constructor].
    + apply Forall_map, Forall_forall. intros x _ ha. discriminate.
  - intros model'. rewrite Hfold. now rewrite <- app_assoc.
Qed.

(** X27. For local states whose matrix elements vanish unless their
    extent spheres overlap, and a tree built from the same states,
    [createModel] with the tree adds the same hopping amplitudes as
    [createModel] over all pairs, up to their order, followed by the same
    calls that set up the geometry. *)
Theorem createModelFromTree_agrees_with_createModel :
  forall (fuel : nat) (c : list R) (h : R) (md : Z)
         (states : list AbstractState) (tree : StateTreeNode) (model : Model),
    (addAll fuel states (StateTreeNode_new c h md) = Ok tree
     \/ StateTreeNode_fromStateSet fuel states md = Ok tree) ->
    (1 <= length (center tree))%nat ->
    Forall (fun s => exists e, extent s = Finite e /\ (0 <= e)%R) states ->
    (forall ket bra e,
        In ket states -> In bra states -> extent ket = Finite e ->
        isNonZero (getMatrixElement ket bra) = true ->
        overlapping (coordinates ket) e bra = true) ->
    createModel getMatrixElement stateIndex getSpecifiers states = Ok model ->
    exists hoppings hoppings' rest,
      model = hoppings ++ rest
      /\ createModelFromTree getMatrixElement stateIndex getSpecifiers states
           tree
         = Ok (hoppings' ++ rest)
      /\ hoppings ≡ₚ hoppings'
      /\ Forall (fun call => exists ha, call = AddHA ha) hoppings
      /\ Forall (fun call => forall ha, call <> AddHA ha) rest.
Proof.
  intros fuel c h md states tree model Hbuilt HD Hlocal Hzero Hmodel.
  unfold createModel in Hmodel. rewrite allPairs_calls in Hmodel.
  rewrite app_nil_l in Hmodel.
  apply finishModel_app in Hmodel as (rest & -> & Hrest & Hfinish).
  set (found := fun ket =>
         match extent ket with
         | Finite e =>
             List.filter (overlapping (coordinates ket) e) (allStates tree)
         | Infinite => []
         end).
  assert (Hquery : Forall (fun ket =>
                      getOverlappingStatesOf tree (coordinates ket) (extent ket)
                      = Ok (found ket)) states).
  { apply Forall_forall. intros ket Hket.
    pose proof Hlocal as Hl. rewrite Forall_forall in Hl.
    destruct (Hl ket Hket) as (e & He & _).
    unfold getOverlappingStatesOf, found. rewrite He.
    destruct (getOverlappingStates_local fuel c h md states tree
                (coordinates ket) e Hbuilt Hlocal) as (Hq & _ & Hdims).
    - destruct (getOverlappingStates_local fuel c h md states tree
                  (center tree) 0 Hbuilt Hlocal eq_refl HD) as (_ & _ & Hd).
      rewrite Forall_forall in Hd. now apply Hd.
    - destruct (getOverlappingStates_local fuel c h md states tree
                  (center tree) 0 Hbuilt Hlocal eq_refl HD) as (_ & _ & Hd).
      rewrite Forall_forall in Hd. rewrite (Hd ket Hket). exact HD.
    - exact Hq. }
  destruct (getOverlappingStates_local fuel c h md states tree
              (center tree) 0 Hbuilt Hlocal eq_refl HD) as (_ & Hperm & _).
  exists (concat (map (fun ket => concat (map (hopping getMatrixElement stateIndex ket) states)) states)),
    (concat (map (fun ket => concat (map (hopping getMatrixElement stateIndex ket) (found ket))) states)),
    rest.
  split; [reflexivity|]. split; [|split; [|split; [|assumption]]].
  - unfold createModelFromTree.
    rewrite (addOverlapping_calls tree found) by assumption.
    rewrite bind_Ok, app_nil_l. apply Hfinish.
  - apply concat_map_pointwise. intros ket Hket.
    rewrite Forall_forall in Hlocal.
    destruct (Hlocal ket ltac:(now apply list_elem_of_In)) as (e & He & _).
    unfold found. rewrite He. rewrite hopping_filter.
    + symmetry. now apply concat_map_Permutation.
    + intros bra Hbra Hnz. apply (Hzero ket bra e); try assumption.
      apply list_elem_of_In. rewrite <- Hperm. now apply list_elem_of_In.
  - apply Forall_concat, Forall_map, Forall_forall. intros ket _.
    apply Forall_concat, Forall_map, Forall_forall. intros bra _.
    unfold hopping. destruct (isNonZero _); repeat constructor. eauto.
Qed.

End CreateModelFacts.


(** *** Concrete instances *)

Lemma createSquareLattice_cube_leaves_the_lattice_witness :
  exists model geometry,
    createSquareLattice [1; 1; 2] [false; false; true] C0 = Ok model
    /\ addSquareGeometry [] [1; 1; 2] = Ok geometry
    /\ forall x y s,
         0 <= x < 1 -> 0 <= y < 1 -> s = 0 \/ s = 1 ->
         In (AddHAAndHC {| amplitude := C0;
                           toIndex := [x; y; 2; s];
                           fromIndex := [x; y; 2 - 1; s] |}) model
         /\ ~ In (AddHAAndHC {| amplitude := C0;
                                toIndex := [x; y; 0; s];
                                fromIndex := [x; y; 2 - 1; s] |}) model
         /\ forall coordinates specifiers,
              ~ In (SetCoordinates [x; y; 2; s] coordinates specifiers)
                   geometry.
Proof.
  apply (createSquareLattice_cube_leaves_the_lattice 1 1 2 false false C0).
  lia.
Defined.

Lemma createModel_of_unitState :
  createModel (fun _ _ => (1, 0)%R) (fun s => [Z.of_nat (address s)])
    (fun _ => []) [unitState]
  = Ok [AddHA {| amplitude := (1, 0)%R; toIndex := [1]; fromIndex := [1] |};
        Construct; CreateGeometry 1 0; SetCoordinates [1] [0%R] []].
Proof.
  unfold createModel, finishModel, addMatrixElements, addMatrixElement,
    isNonZero. simpl.
  destruct (Req_dec_T _ _) as [H|_]; [exfalso; unfold real in H; simpl in H; lra|].
  reflexivity.
Qed.

Lemma createModelFromTree_agrees_with_createModel_witness :
  exists hoppings hoppings' rest,
    [AddHA {| amplitude := (1, 0)%R; toIndex := [1]; fromIndex := [1] |};
     Construct; CreateGeometry 1 0; SetCoordinates [1] [0%R] []]
    = hoppings ++ rest
    /\ createModelFromTree (fun _ _ => (1, 0)%R)
         (fun s => [Z.of_nat (address s)]) (fun _ => []) [unitState]
         (Node [0%R] 1%R 0 2 [] [unitState])
       = Ok (hoppings' ++ rest)
    /\ hoppings ≡ₚ hoppings'
    /\ Forall (fun call => exists ha, call = AddHA ha) hoppings
    /\ Forall (fun call => forall ha, call <> AddHA ha) rest.
Proof.
  apply (createModelFromTree_agrees_with_createModel
           (fun _ _ => (1, 0)%R) (fun s => [Z.of_nat (address s)])
           (fun _ => []) 1 [0%R] 1%R 0 [unitState]
           (Node [0%R] 1%R 0 2 [] [unitState])).
  - left. exact leaf_with_unitState.
  - simpl. lia.
  - constructor; [|constructor]. exists 1%R. split; [reflexivity | lra].
  - intros ket bra e [<-|[]] [<-|[]] [= <-] _.
    unfold overlapping, overlaps. simpl coordinates.
    rewrite sumSquares_self, sqrt_0. simpl extent. cbv iota beta.
    destruct (Rlt_dec _ _) as [|Hn]; [reflexivity | exfalso; lra].
  - exact createModel_of_unitState.
Defined.

End ModelFactory.

